(** * scan_lbc: the financial field extraction engine

    A shallow embedding of [scripts/scan_lbc.py]: the number normalizer
    ([parse_amount]), the keyword window locator
    ([parse_amounts_near_keyword]), the period detector
    ([detect_period_from_snippet]) and the field cascades and yield
    computation of [parse_ad_page].

    Modelling conventions.
    - A Python [str] is a list of Unicode code points ([char := N]); slices,
      [find], [rfind], [replace], [strip], [lower] and [in] are functions on
      such lists.  String literals are written in UTF-8 and decoded by [u].
    - Python floats are modelled by exact rationals ([Q], kept reduced): the
      binary64 rounding of [/] and [*] is abstracted away; [round(x, 2)] is
      rounding to the nearest hundredth, ties to even.
    - [str.lower], [str.isspace], [str.isdigit] and the case folding of [re]
      follow the Unicode tables on Basic Latin and Latin-1 Supplement (and the
      few code points outside them listed at each definition); other code
      points are treated as uncased, non-space, non-digit.
    - [float(v)] is modelled on the strings that reach it from the amount
      patterns (ASCII digits and separators): a decimal literal
      [digits[.digits]]; anything else is a failure.  Lemma
      [captured_amount_chars] shows that the amounts captured by the
      patterns of the script are made of these characters only.
    - [re] patterns are abstract syntax trees run by a backtracking matcher
      with the priorities of Python's engine (leftmost match, greedy or lazy
      repetition, ordered alternation).
    - The page fetch and the HTML/JSON decoding of [parse_ad_page] are
      outside the model: [parse_ad_text] takes the combined text and the
      price of the embedded JSON (when it decoded) as arguments. *)

From Stdlib Require Import String Ascii.
From Stdlib Require Import List Bool Arith NArith ZArith QArith Qround Qreduction.
From Stdlib Require Import Lia Lqa.
Import ListNotations.

(* ------------------------------------------------------------------ *)
(** ** Strings *)

Module Str.

Definition char := N.
Definition str := list char.

(** UTF-8 decoding of a literal. *)
Fixpoint utf8 (bs : list N) : str :=
  match bs with
  | [] => []
  | b0 :: t0 =>
    if (b0 <? 128)%N then b0 :: utf8 t0
    else if (b0 <? 224)%N then
      match t0 with
      | b1 :: t1 => ((b0 - 192) * 64 + (b1 - 128))%N :: utf8 t1
      | _ => []
      end
    else if (b0 <? 240)%N then
      match t0 with
      | b1 :: b2 :: t2 =>
        ((b0 - 224) * 4096 + (b1 - 128) * 64 + (b2 - 128))%N :: utf8 t2
      | _ => []
      end
    else
      match t0 with
      | b1 :: b2 :: b3 :: t3 =>
        ((b0 - 240) * 262144 + (b1 - 128) * 4096 + (b2 - 128) * 64
         + (b3 - 128))%N :: utf8 t3
      | _ => []
      end
  end.

Definition u (s : string) : str :=
  utf8 (map N_of_ascii (list_ascii_of_string s)).

Definition eqc (a b : char) : bool := (a =? b)%N.

(** [len(s)] *)
Definition len (s : str) : nat := length s.

(** [s[a:b]] for [0 <= a] and [0 <= b]. *)
Definition slice (a b : nat) (s : str) : str := firstn (b - a) (skipn a s).

(** [s[a:]] *)
Definition from (a : nat) (s : str) : str := skipn a s.

(** [s.startswith(p)] *)
Fixpoint startswith (p s : str) : bool :=
  match p, s with
  | [], _ => true
  | a :: p', b :: s' => eqc a b && startswith p' s'
  | _ :: _, [] => false
  end.

Fixpoint find_at (sub s : str) (i : nat) : option nat :=
  if startswith sub s then Some i
  else match s with
       | [] => None
       | _ :: s' => find_at sub s' (S i)
       end.

(** [s.find(sub, start)]: [None] stands for Python's [-1]. *)
Definition find (sub s : str) (start : nat) : option nat :=
  if (length s <? start)%nat then None else find_at sub (skipn start s) start.

(** [sub in s] *)
Definition contains (sub s : str) : bool :=
  match find sub s 0 with Some _ => true | None => false end.

(** [s.rfind(c)] for a one-character [c]; [-1] when absent. *)
Fixpoint rfind_at (c : char) (s : str) (i : Z) (last : Z) : Z :=
  match s with
  | [] => last
  | x :: s' => rfind_at c s' (i + 1)%Z (if eqc x c then i else last)
  end.

Definition rfind (c : char) (s : str) : Z := rfind_at c s 0%Z (-1)%Z.

(** [s.replace(c, new)] for a one-character [c]. *)
Definition replace (c : char) (new : str) (s : str) : str :=
  flat_map (fun x => if eqc x c then new else [x]) s.

(** [str.isspace] of one character. *)
Definition isspace (c : char) : bool :=
  ((9 <=? c) && (c <=? 13) || (28 <=? c) && (c <=? 32) || (c =? 133)
   || (c =? 160) || (c =? 5760) || (8192 <=? c) && (c <=? 8202)
   || (c =? 8232) || (c =? 8233) || (c =? 8239) || (c =? 8287)
   || (c =? 12288))%N.

(** ASCII digits, the class [[0-9]]. *)
Definition is_ascii_digit (c : char) : bool := ((48 <=? c) && (c <=? 57))%N.

(** [str.isdigit] of one character (Latin-1: the ASCII digits and the
    superscripts two, three and one). *)
Definition isdigit (c : char) : bool :=
  (is_ascii_digit c || (c =? 178) || (c =? 179) || (c =? 185))%N.

Fixpoint lstrip (s : str) : str :=
  match s with
  | c :: s' => if isspace c then lstrip s' else s
  | [] => []
  end.

(** [s.strip()] *)
Definition strip (s : str) : str := rev (lstrip (rev (lstrip s))).

(** Full lower-casing of one code point: Basic Latin and Latin-1 capitals,
    and U+0130 whose lower case is two code points. *)
Definition lower_char (c : char) : str :=
  (if (65 <=? c) && (c <=? 90) then [c + 32]
   else if (192 <=? c) && (c <=? 222) && negb (c =? 215) then [c + 32]
   else if c =? 304 then [105; 775]
   else [c])%N.

(** [s.lower()] *)
Definition lower (s : str) : str := flat_map lower_char s.

(** Truth value of a string: non-empty. *)
Definition truthy (s : str) : bool :=
  match s with [] => false | _ => true end.

End Str.

Import Str.

(* ------------------------------------------------------------------ *)
(** ** Numbers *)

Module Num.

Local Open Scope Q_scope.

(** Truth value of a float. *)
Definition nonzero (q : Q) : bool := negb (Qnum q =? 0)%Z.

(** Truth value of [None] or a float. *)
Definition truthy (o : option Q) : bool :=
  match o with Some q => nonzero q | None => false end.

Definition leb (a b : Q) : bool := Qle_bool a b.
Definition gtb (a b : Q) : bool := negb (Qle_bool a b).

(** [a <= x <= b] *)
Definition between (a x b : Q) : bool := leb a x && leb x b.

Definition fdiv (a b : Q) : Q := Qred (a / b).
Definition fmul (a b : Q) : Q := Qred (a * b).
Definition fsub (a b : Q) : Q := Qred (a - b).

(** Nearest integer, ties to even. *)
Definition round_half_even (q : Q) : Z :=
  let f := Qfloor q in
  match Qcompare (q - inject_Z f) (1 # 2) with
  | Lt => f
  | Gt => (f + 1)%Z
  | Eq => if Z.even f then f else (f + 1)%Z
  end.

(** [round(x, 2)] *)
Definition round2 (x : Q) : Q := Qred (inject_Z (round_half_even (x * 100)) / 100).

Fixpoint digits_value (acc : Z) (s : str) : Z :=
  match s with
  | [] => acc
  | c :: s' => digits_value (acc * 10 + Z.of_N (c - 48)%N)%Z s'
  end.

Fixpoint span_digits (s : str) : str * str :=
  match s with
  | c :: s' =>
    if is_ascii_digit c then let (d, r) := span_digits s' in (c :: d, r)
    else ([], s)
  | [] => ([], [])
  end.

(** [float(v)] on decimal literals [digits[.digits]]; [None] stands for the
    [ValueError]. *)
Definition py_float (v : str) : option Q :=
  let (ip, r) := span_digits v in
  match r with
  | [] => if Str.truthy ip then Some (inject_Z (digits_value 0%Z ip)) else None
  | c :: fp =>
    if eqc c 46%N && forallb is_ascii_digit fp
       && (Str.truthy ip || Str.truthy fp)
    then Some (Qred (inject_Z (digits_value 0%Z (ip ++ fp))
                     / inject_Z (10 ^ Z.of_nat (length fp))))
    else None
  end.

End Num.

Import Num.

Local Open Scope string_scope.
Local Open Scope list_scope.

(* ------------------------------------------------------------------ *)
(** ** [parse_amount]: the number normalizer *)

Definition SPACE : char := 32%N.
Definition NBSP : char := 160%N.
Definition COMMA : char := 44%N.
Definition DOT : char := 46%N.

Fixpoint count_digits (s : str) : nat :=
  match s with
  | c :: s' => if isdigit c then S (count_digits s') else O
  | [] => O
  end.

(** The local helper of [parse_amount]: the digits that follow position
    [pos] without interruption. *)
Definition digits_after (s : str) (pos : Z) : nat :=
  count_digits (skipn (Z.to_nat (pos + 1)) s).

Definition parse_amount (raw : option str) : option Q :=
  match raw with
  | None => None
  | Some raw =>
    let v := strip raw in
    let v := replace NBSP [SPACE] v in
    let v :=
      if contains [COMMA] v || contains [DOT] v then
        let last_comma := rfind COMMA v in
        let last_dot := rfind DOT v in
        let comma_digits :=
          if (0 <=? last_comma)%Z then digits_after v last_comma else O in
        let dot_digits :=
          if (0 <=? last_dot)%Z then digits_after v last_dot else O in
        if (last_dot <? last_comma)%Z then
          if (1 <=? comma_digits)%nat && (comma_digits <=? 2)%nat then
            let v := replace DOT [] (replace SPACE [] v) in
            replace COMMA [DOT] v
          else
            replace DOT [] (replace COMMA [] (replace SPACE [] v))
        else
          if (1 <=? dot_digits)%nat && (dot_digits <=? 2)%nat then
            replace COMMA [] (replace SPACE [] v)
          else
            replace DOT [] (replace COMMA [] (replace SPACE [] v))
      else
        replace SPACE [] v in
    py_float v
  end.

(* ------------------------------------------------------------------ *)
(** ** [detect_period_from_snippet]: the period detector *)

Inductive period := Monthly | Annual.

Definition detect_period_from_snippet (snippet : str) : option period :=
  let s := lower snippet in
  if contains (u "par mois") s || contains (u "/mois") s
     || contains (u "€/mois") s
     || contains (u "mois") s && negb (contains (u "par an") s)
  then Some Monthly
  else if contains (u "par an") s || contains (u "/an") s
          || contains (u "annuel") s || contains (u "par an") s
  then Some Annual
  else None.

(* ------------------------------------------------------------------ *)
(** ** Regular expressions *)

Module Re.

Inductive regex :=
| Eps
| Chr (ignorecase : bool) (c : char)
| Cls (p : char -> bool)
| Seq (r1 r2 : regex)
| Alt (r1 r2 : regex)
| Star (r : regex)
| LazyStar (r : regex)
| Grp (r : regex).

(** Simple lower-casing used by [re.IGNORECASE]. *)
Definition sre_lower (c : char) : char :=
  (if (65 <=? c) && (c <=? 90) then c + 32
   else if (192 <=? c) && (c <=? 222) && negb (c =? 215) then c + 32
   else if c =? 304 then 105
   else if c =? 8490 then 107
   else if c =? 8491 then 229
   else c)%N.

(** The extra case equivalences of the engine for the letters [i] and [s]
    (dotless i, long s). *)
Definition ignorecase_fixes (lo : char) : list char :=
  (if lo =? 105 then [305] else if lo =? 115 then [383] else [])%N.

Definition char_match (ignorecase : bool) (c x : char) : bool :=
  if ignorecase then
    let lo := sre_lower c in
    let lx := sre_lower x in
    eqc lx lo || existsb (eqc lx) (ignorecase_fixes lo)
  else eqc x c.

Record mstate := MState { pos : nat; rest : str; cap : option str }.

Definition advance (st : mstate) (xs : str) : mstate :=
  {| pos := S (pos st); rest := xs; cap := cap st |}.

Section Matcher.
Variable A : Type.

(** The iteration of a greedy repetition: one more round of [body] is
    tried before the continuation; a round must consume input.  [n]
    bounds the rounds by the length of the remaining input. *)
Definition greedy_loop (body : mstate -> (mstate -> option A) -> option A)
           (k : mstate -> option A) : nat -> mstate -> option A :=
  fix loop (n : nat) (st : mstate) {struct n} : option A :=
    match n with
    | O => k st
    | S n' =>
      match body st (fun st1 => if (pos st <? pos st1)%nat then loop n' st1
                                else None) with
      | Some a => Some a
      | None => k st
      end
    end.

(** The iteration of a lazy repetition: the continuation is tried before
    one more round of [body]. *)
Definition lazy_loop (body : mstate -> (mstate -> option A) -> option A)
           (k : mstate -> option A) : nat -> mstate -> option A :=
  fix loop (n : nat) (st : mstate) {struct n} : option A :=
    match n with
    | O => k st
    | S n' =>
      match k st with
      | Some a => Some a
      | None =>
        body st (fun st1 => if (pos st <? pos st1)%nat then loop n' st1
                            else None)
      end
    end.

(** Backtracking matcher in continuation-passing style: [rmatch r st k]
    tries the ways [r] matches at [st] in the engine's priority order and
    returns the first one the continuation accepts. *)
Fixpoint rmatch (r : regex) (st : mstate) (k : mstate -> option A)
  : option A :=
  match r with
  | Eps => k st
  | Chr ic c =>
    match rest st with
    | x :: xs => if char_match ic c x then k (advance st xs) else None
    | [] => None
    end
  | Cls p =>
    match rest st with
    | x :: xs => if p x then k (advance st xs) else None
    | [] => None
    end
  | Seq r1 r2 => rmatch r1 st (fun st1 => rmatch r2 st1 k)
  | Alt r1 r2 =>
    match rmatch r1 st k with
    | Some a => Some a
    | None => rmatch r2 st k
    end
  | Star r1 => greedy_loop (rmatch r1) k (length (rest st)) st
  | LazyStar r1 => lazy_loop (rmatch r1) k (length (rest st)) st
  | Grp r1 =>
    rmatch r1 st
      (fun st1 =>
         k {| pos := pos st1; rest := rest st1;
              cap := Some (firstn (pos st1 - pos st) (rest st)) |})
  end.

End Matcher.

Arguments greedy_loop {A} body k n st.
Arguments lazy_loop {A} body k n st.
Arguments rmatch {A} r st k.

(** A match object: [m.start()], [m.end()], [m.group(1)]. *)
Record rmatch_obj := Match { m_start : nat; m_end : nat; group1 : option str }.

Definition match_here (r : regex) (s : str) (i : nat) : option rmatch_obj :=
  rmatch r {| pos := i; rest := s; cap := None |}
    (fun st => Some {| m_start := i; m_end := pos st; group1 := cap st |}).

(** The scan of [search]: [s] is the text from position [i] on. *)
Fixpoint search_at (r : regex) (s : str) (i : nat) : option rmatch_obj :=
  match match_here r s i with
  | Some m => Some m
  | None => match s with
            | [] => None
            | _ :: s' => search_at r s' (S i)
            end
  end.

(** [re.search(r, s)] *)
Definition search (r : regex) (s : str) : option rmatch_obj := search_at r s 0.

(** The scan of [finditer]: after a match the next attempt is at its end
    (one further when the match is empty); [skip] counts the positions that
    lie inside the last match. *)
Fixpoint finditer_at (r : regex) (s : str) (i skip : nat)
  : list rmatch_obj :=
  match skip with
  | S sk =>
    match s with
    | [] => []
    | _ :: s' => finditer_at r s' (S i) sk
    end
  | O =>
    match match_here r s i with
    | Some m =>
      m :: match s with
           | [] => []
           | _ :: s' => finditer_at r s' (S i) (m_end m - i - 1)
           end
    | None =>
      match s with
      | [] => []
      | _ :: s' => finditer_at r s' (S i) 0
      end
    end
  end.

(** [r.finditer(s)] *)
Definition finditer (r : regex) (s : str) : list rmatch_obj :=
  finditer_at r s 0 0.

(** *** Pattern combinators *)

Fixpoint lit (ic : bool) (s : str) : regex :=
  match s with
  | [] => Eps
  | [c] => Chr ic c
  | c :: s' => Seq (Chr ic c) (lit ic s')
  end.

Fixpoint seq (rs : list regex) : regex :=
  match rs with
  | [] => Eps
  | [r] => r
  | r :: rs' => Seq r (seq rs')
  end.

Definition opt (r : regex) : regex := Alt r Eps.
Definition plus (r : regex) : regex := Seq r (Star r).

Definition digit : regex := Cls is_ascii_digit.
Definition nondigit : regex := Cls (fun c => negb (is_ascii_digit c)).
Definition ws : regex := Cls isspace.
Definition anychar : regex := Cls (fun _ => true).
Definition oneof (cs : list char) : regex := Cls (fun c => existsb (eqc c) cs).

End Re.

Import Re.

(* ------------------------------------------------------------------ *)
(** ** The patterns of the script *)

(** [[0-9]{1,3}(?:[  \.,][0-9]{3})*(?:[\.,][0-9]+)?] *)
Definition amount_body : regex :=
  seq [ digit; opt (Seq digit (opt digit));
        Star (seq [oneof [SPACE; NBSP; DOT; COMMA]; digit; digit; digit]);
        opt (Seq (oneof [DOT; COMMA]) (plus digit)) ].

(** [(?:€|euros?)] *)
Definition currency (ic : bool) : regex :=
  Alt (lit ic (u "€")) (Seq (lit ic (u "euro")) (opt (lit ic (u "s")))).

(** [euros?] *)
Definition euros (ic : bool) : regex :=
  Seq (lit ic (u "euro")) (opt (lit ic (u "s"))).

(** [AMOUNT_RE] *)
Definition AMOUNT_RE : regex :=
  seq [Grp amount_body; Star ws; currency false].

Definition IC := true.

(** [loyer\s+annuel\s*:?\s*(amount)\s*(?:€|euros?)], IGNORECASE *)
Definition RENT_RE1 : regex :=
  seq [lit IC (u "loyer"); plus ws; lit IC (u "annuel"); Star ws;
       opt (lit IC (u ":")); Star ws; Grp amount_body; Star ws; currency IC].

(** [loyer\s+mensuel\s+de\s+(amount)], IGNORECASE *)
Definition RENT_RE2 : regex :=
  seq [lit IC (u "loyer"); plus ws; lit IC (u "mensuel"); plus ws;
       lit IC (u "de"); plus ws; Grp amount_body].

(** [loyer[^0-9]*(amount)\s*€\s*(?:/\s*an|par\s+an)], IGNORECASE *)
Definition RENT_RE3 : regex :=
  seq [lit IC (u "loyer"); Star nondigit; Grp amount_body; Star ws;
       lit IC (u "€"); Star ws;
       Alt (seq [lit IC (u "/"); Star ws; lit IC (u "an")])
           (seq [lit IC (u "par"); plus ws; lit IC (u "an")])].

(** [loyer[^0-9]*(amount)\s*€], IGNORECASE *)
Definition RENT_RE4 : regex :=
  seq [lit IC (u "loyer"); Star nondigit; Grp amount_body; Star ws;
       lit IC (u "€")].

(** [loyer\s+(amount)\s+euros?], IGNORECASE *)
Definition RENT_RE5 : regex :=
  seq [lit IC (u "loyer"); plus ws; Grp amount_body; plus ws; euros IC].

(** [soit\s+.*?(amount)\s*euros?\s+par\s+mois], IGNORECASE | DOTALL *)
Definition RENT_RE6 : regex :=
  seq [lit IC (u "soit"); plus ws; LazyStar anychar; Grp amount_body;
       Star ws; euros IC; plus ws; lit IC (u "par"); plus ws;
       lit IC (u "mois")].

(** [charges\s+(amount)\s*(?:€|euros?)], IGNORECASE *)
Definition CHARGES_RE1 : regex :=
  seq [lit IC (u "charges"); plus ws; Grp amount_body; Star ws; currency IC].

(** [[+\s]?(amount)\s*€\s+de\s+charges], IGNORECASE *)
Definition CHARGES_RE2 : regex :=
  seq [opt (Cls (fun c => eqc c 43%N || isspace c)); Grp amount_body;
       Star ws; lit IC (u "€"); plus ws; lit IC (u "de"); plus ws;
       lit IC (u "charges")].

(* ------------------------------------------------------------------ *)
(** ** [parse_amounts_near_keyword]: the keyword window locator *)

Section Locator.

Variables (text keyword : str) (strict : bool).

Definition text_lower : str := lower text.
Definition keyword_lower : str := lower keyword.

(** The snippet built for the occurrence found at [idx]. *)
Definition search_snippet (idx : nat) : str :=
  if strict then
    let search_end := Nat.min (len text) (idx + len keyword + 50) in
    slice idx search_end text
  else
    let window := 300%nat in
    let snippet_start := Nat.max 0 (idx - window) in
    let snippet_end := Nat.min (len text) (idx + window) in
    slice snippet_start snippet_end text.

(** The [while True] loop; [start] is the loop variable.  [None] is only
    returned when the fuel runs out, which [near_keyword_loop_total]
    excludes. *)
Fixpoint near_keyword_loop (fuel start : nat)
  : option (option Q * option str) :=
  match fuel with
  | O => None
  | S fuel' =>
    match find keyword_lower text_lower start with
    | None => Some (None, None)
    | Some idx =>
      let snippet := search_snippet idx in
      match search AMOUNT_RE (from (len keyword) snippet) with
      | Some m => Some (parse_amount (group1 m), Some snippet)
      | None => near_keyword_loop fuel' (idx + 1)
      end
    end
  end.

Definition parse_amounts_near_keyword : option Q * option str :=
  match near_keyword_loop (len text_lower + 2) 0 with
  | Some r => r
  | None => (None, None)
  end.

End Locator.

(* ------------------------------------------------------------------ *)
(** ** [parse_ad_page]: the field cascades *)

(** [text[max(0, m.start()-50):min(len(text), m.end()+100)]] *)
Definition context_snip (text : str) (m : rmatch_obj) : str :=
  slice (Nat.max 0 (m_start m - 50)) (Nat.min (len text) (m_end m + 100)) text.

(** *** Price *)

Definition price_keywords : list str :=
  [u "prix de vente"; u "prix"; u "vente"].

(** The [for kw in price_keywords] loop with its [break]. *)
Fixpoint price_keyword_loop (text : str) (kws : list str) (price : option Q)
  : option Q :=
  match kws with
  | [] => price
  | kw :: kws' =>
    let price := fst (parse_amounts_near_keyword text kw false) in
    if truthy price then price else price_keyword_loop text kws' price
  end.

Definition large_amounts (text : str) : list Q :=
  flat_map (fun m =>
              match parse_amount (group1 m) with
              | Some val => if nonzero val && gtb val 10000 then [val] else []
              | None => []
              end)
           (finditer AMOUNT_RE text).

(** [max(amounts)] for a non-empty list. *)
Definition max_amount (x : Q) (l : list Q) : Q :=
  fold_left (fun a b => if gtb b a then b else a) l x.

Definition extract_price (ad_price : option Q) (text : str) : option Q :=
  match ad_price with
  | Some p => Some p
  | None =>
    let price := price_keyword_loop text price_keywords None in
    match price with
    | Some p => Some p
    | None =>
      match large_amounts text with
      | [] => None
      | x :: l => Some (max_amount x l)
      end
    end
  end.

(** *** Rent *)

Module Rent.

(** The three variables the rent patterns assign. *)
Record state := State {
  loyer : option Q;
  loyer_snip : option str;
  monthly_rent : option Q
}.

Definition init : state :=
  {| loyer := None; loyer_snip := None; monthly_rent := None |}.

(** [x and lo <= x <= hi] *)
Definition plausible (lo hi : Q) (x : option Q) : bool :=
  match x with
  | Some v => nonzero v && between lo v hi
  | None => false
  end.

Definition divided (x : option Q) (d : Q) : option Q :=
  option_map (fun v => fdiv v d) x.

(** Pattern 1: annual range, divided by 12. *)
Definition pattern1 (text : str) (st : state) : state :=
  match search RENT_RE1 text with
  | Some m =>
    let l := parse_amount (group1 m) in
    if plausible 3600 36000 l then
      {| loyer := l; loyer_snip := Some (context_snip text m);
         monthly_rent := divided l 12 |}
    else
      {| loyer := None; loyer_snip := loyer_snip st;
         monthly_rent := monthly_rent st |}
  | None => st
  end.

(** Pattern 2: monthly range. *)
Definition pattern2 (text : str) (st : state) : state :=
  match monthly_rent st with
  | Some _ => st
  | None =>
    match search RENT_RE2 text with
    | Some m =>
      let mr := parse_amount (group1 m) in
      if plausible 300 3000 mr then
        {| loyer := loyer st; loyer_snip := Some (context_snip text m);
           monthly_rent := mr |}
      else
        {| loyer := loyer st; loyer_snip := loyer_snip st;
           monthly_rent := None |}
    | None => st
    end
  end.

(** Pattern 3: annual range, divided by 12. *)
Definition pattern3 (text : str) (st : state) : state :=
  match monthly_rent st with
  | Some _ => st
  | None =>
    match search RENT_RE3 text with
    | Some m =>
      let l := parse_amount (group1 m) in
      if plausible 3600 36000 l then
        {| loyer := l; loyer_snip := Some (context_snip text m);
           monthly_rent := divided l 12 |}
      else
        {| loyer := None; loyer_snip := loyer_snip st;
           monthly_rent := monthly_rent st |}
    | None => st
    end
  end.

(** Pattern 4: the period is read off the text from the match start to 100
    characters past its end. *)
Definition pattern4 (text : str) (st : state) : state :=
  match monthly_rent st with
  | Some _ => st
  | None =>
    match search RENT_RE4 text with
    | Some m =>
      let l := parse_amount (group1 m) in
      let snip := Some (context_snip text m) in
      let snippet :=
        slice (Nat.max 0 (m_start m)) (Nat.min (len text) (m_end m + 100))
              text in
      if contains (u "annuel") (lower snippet)
         || contains (u "par an") (lower snippet)
         || contains (u "/an") (lower snippet)
      then
        if plausible 3600 36000 l then
          {| loyer := l; loyer_snip := snip; monthly_rent := divided l 12 |}
        else
          {| loyer := None; loyer_snip := snip;
             monthly_rent := monthly_rent st |}
      else
        if plausible 300 3000 l then
          {| loyer := l; loyer_snip := snip; monthly_rent := l |}
        else
          {| loyer := None; loyer_snip := snip;
             monthly_rent := monthly_rent st |}
    | None => st
    end
  end.

(** Pattern 5: monthly range. *)
Definition pattern5 (text : str) (st : state) : state :=
  match monthly_rent st with
  | Some _ => st
  | None =>
    match search RENT_RE5 text with
    | Some m =>
      let l := parse_amount (group1 m) in
      if plausible 300 3000 l then
        {| loyer := l; loyer_snip := Some (context_snip text m);
           monthly_rent := l |}
      else
        {| loyer := None; loyer_snip := loyer_snip st;
           monthly_rent := monthly_rent st |}
    | None => st
    end
  end.

(** [m and m.group(1)] *)
Definition matched_group (m : option rmatch_obj) : option rmatch_obj :=
  match m with
  | Some mm =>
    match group1 mm with
    | Some g => if Str.truthy g then Some mm else None
    | None => None
    end
  | None => None
  end.

(** Pattern 6: monthly range. *)
Definition pattern6 (text : str) (st : state) : state :=
  match monthly_rent st with
  | Some _ => st
  | None =>
    match matched_group (search RENT_RE6 text) with
    | Some m =>
      let mr := parse_amount (group1 m) in
      if plausible 300 3000 mr then
        {| loyer := loyer st; loyer_snip := Some (context_snip text m);
           monthly_rent := mr |}
      else
        {| loyer := loyer st; loyer_snip := loyer_snip st;
           monthly_rent := None |}
    | None => st
    end
  end.

(** The six blocks in the order of the script. *)
Definition extract (text : str) : state :=
  pattern6 text
    (pattern5 text
       (pattern4 text (pattern3 text (pattern2 text (pattern1 text init))))).

End Rent.

(** *** Property tax *)

Definition KW_TAXE_FONCI : str := u "taxe fonci".
Definition KW_TAXE_FONCIERE : str := u "taxe foncière".

Definition extract_taxe (text : str) : option Q * option str :=
  let (taxe, taxe_snip) := parse_amounts_near_keyword text KW_TAXE_FONCI true in
  match taxe with
  | None => parse_amounts_near_keyword text KW_TAXE_FONCIERE true
  | Some _ => (taxe, taxe_snip)
  end.

(** [snip or ""] *)
Definition or_empty (snip : option str) : str :=
  match snip with
  | Some s => s
  | None => []
  end.

(** *** Charges *)

Definition charges_keywords : list str :=
  [u "charges locatives"; u "charges mensuel"; u "charge de copropriété";
   u "charges annuelles"].

(** The [for kw in [...]] loop of pattern 3 with its [break]. *)
Fixpoint charges_keyword_loop (text : str) (kws : list str)
         (cur : option Q * option str) : option Q * option str :=
  match kws with
  | [] => cur
  | kw :: kws' =>
    let cur := parse_amounts_near_keyword text kw true in
    match fst cur with
    | Some _ => cur
    | None => charges_keyword_loop text kws' cur
    end
  end.

Definition extract_charges (text : str) : option Q * option str :=
  match search CHARGES_RE1 text with
  | Some m => (parse_amount (group1 m), Some (context_snip text m))
  | None =>
    match search CHARGES_RE2 text with
    | Some m => (parse_amount (group1 m), Some (context_snip text m))
    | None => charges_keyword_loop text charges_keywords (None, None)
    end
  end.

(** *** Yields and the returned record *)

Record listing := Listing {
  url : str;
  title : str;
  price : option Q;
  monthly_rent : option Q;
  annual_rent : option Q;
  monthly_charges : option Q;
  annual_charges : option Q;
  taxe_fonciere_annual : option Q;
  gross_yield_pct : option Q;
  net_yield_pct : option Q
}.

(** The variables the yield block reads and assigns. *)
Record yield_vars := YieldVars {
  v_monthly_rent : option Q;
  v_annual_rent : option Q;
  v_annual_charges : option Q;
  v_taxe_annual : option Q;
  v_gross_yield : option Q;
  v_net_yield : option Q
}.

Definition or_zero (x : option Q) : Q :=
  match x with
  | Some v => v
  | None => 0
  end.

(** The block [if price and annual_rent: ...]. *)
Definition yield_block (price : option Q) (v : yield_vars) : yield_vars :=
  match price, v_annual_rent v with
  | Some p, Some ar =>
    if nonzero p && nonzero ar then
      let gross_yield := fmul (fdiv ar p) 100 in
      if gtb gross_yield 20 then
        {| v_monthly_rent := None; v_annual_rent := None;
           v_annual_charges := v_annual_charges v;
           v_taxe_annual := v_taxe_annual v;
           v_gross_yield := None; v_net_yield := v_net_yield v |}
      else
        let ac := or_zero (v_annual_charges v) in
        let ta := or_zero (v_taxe_annual v) in
        {| v_monthly_rent := v_monthly_rent v; v_annual_rent := Some ar;
           v_annual_charges := Some ac; v_taxe_annual := Some ta;
           v_gross_yield := Some gross_yield;
           v_net_yield := Some (fmul (fdiv (fsub (fsub ar ac) ta) p) 100) |}
    else v
  | _, _ => v
  end.

Definition rounded (x : option Q) : option Q := option_map round2 x.

(** [monthly_charges] from the charges found and their snippet. *)
Definition monthly_charges_of (found : option Q * option str) : option Q :=
  let (charges, charges_snip) := found in
  let charges_period := detect_period_from_snippet (or_empty charges_snip) in
  match charges with
  | Some c =>
    match charges_period with
    | Some Annual => Some (fdiv c 12)
    | _ => Some c
    end
  | None => None
  end.

(** [taxe_annual] from the tax found and its snippet. *)
Definition taxe_annual_of (found : option Q * option str) : option Q :=
  let (taxe, taxe_snip) := found in
  let taxe_period := detect_period_from_snippet (or_empty taxe_snip) in
  match taxe with
  | Some t =>
    match taxe_period with
    | Some Monthly => Some (fmul t 12)
    | _ => Some t
    end
  | None => None
  end.

(** [parse_ad_page] from the combined text on: [ad_price] is the price of
    the embedded JSON when it decoded to a number. *)
Definition parse_ad_text (url title : str) (ad_price : option Q)
           (combined_text : str) : listing :=
  let price := extract_price ad_price combined_text in
  let monthly_rent := Rent.monthly_rent (Rent.extract combined_text) in
  let taxe_found := extract_taxe combined_text in
  let charges_found := extract_charges combined_text in
  let monthly_charges := monthly_charges_of charges_found in
  let taxe_annual := taxe_annual_of taxe_found in
  let annual_rent := option_map (fun m => fmul m 12) monthly_rent in
  let annual_charges := option_map (fun m => fmul m 12) monthly_charges in
  let v := yield_block price
             {| v_monthly_rent := monthly_rent; v_annual_rent := annual_rent;
                v_annual_charges := annual_charges;
                v_taxe_annual := taxe_annual;
                v_gross_yield := None; v_net_yield := None |} in
  {| url := url;
     title := title;
     price := rounded price;
     monthly_rent := rounded (v_monthly_rent v);
     annual_rent := rounded (v_annual_rent v);
     monthly_charges := rounded monthly_charges;
     annual_charges := rounded (v_annual_charges v);
     taxe_fonciere_annual := rounded (v_taxe_annual v);
     gross_yield_pct := rounded (v_gross_yield v);
     net_yield_pct := rounded (v_net_yield v) |}.

(* ------------------------------------------------------------------ *)
(** * The specification's statements *)

(** The definitions of this part follow the words of the specification;
    the theorems below compare them with the embedding of the script. *)

Module Spec.

Local Open Scope Q_scope.

(** A monetary field is absent or non-negative. *)
Definition nonneg_or_absent (x : option Q) : Prop :=
  match x with
  | Some v => 0 <= v
  | None => True
  end.


(** "If monthly_rent is present then
    annual_rent == round(monthly_rent * 12, 2)", on the stored values. *)
Definition annual_from_stored_monthly (r : listing) : Prop :=
  forall m, monthly_rent r = Some m ->
            annual_rent r = Some (round2 (fmul m 12)).



(** The period detector as specified: the annual markers first. *)
Definition detect_period (snippet : str) : option period :=
  let s := lower snippet in
  if contains (u "par an") s || contains (u "/an") s
     || contains (u "annuel") s
  then Some Annual
  else if (contains (u "par mois") s || contains (u "/mois") s
           || contains (u "mois") s)
          && negb (contains (u "par an") s)
  then Some Monthly
  else None.

(** The period detector with the priorities of the script: the monthly
    markers first. *)
Definition detect_period_monthly_first (snippet : str) : option period :=
  let s := lower snippet in
  if contains (u "par mois") s || contains (u "/mois") s
     || contains (u "mois") s && negb (contains (u "par an") s)
  then Some Monthly
  else if contains (u "par an") s || contains (u "/an") s
          || contains (u "annuel") s
  then Some Annual
  else None.

(** *** The number normalizer as specified *)

Definition is_sep (c : char) : bool := eqc c COMMA || eqc c DOT.

Definition is_grouping (c : char) : bool :=
  is_sep c || eqc c SPACE || eqc c NBSP.

Definition ungroup (s : str) : str :=
  filter (fun c => negb (is_grouping c)) s.

(** The rightmost of [,] and [.] is the candidate; with 1 or 2 digits
    after it, it is the decimal separator and every other separator and
    space goes; otherwise every separator goes. *)
Definition normalize (raw : str) : option Q :=
  let cand := Z.max (rfind COMMA raw) (rfind DOT raw) in
  if (cand <? 0)%Z then py_float (ungroup raw)
  else
    let k := digits_after raw cand in
    if (1 <=? k)%nat && (k <=? 2)%nat then
      py_float (ungroup (firstn (Z.to_nat cand) raw)
                ++ DOT :: ungroup (skipn (Z.to_nat cand + 1) raw))
    else py_float (ungroup raw).

(** The candidate separator of [raw], when there is one. *)
Definition candidate (raw : str) : option (nat * char) :=
  let lc := rfind COMMA raw in
  let ld := rfind DOT raw in
  if (Z.max lc ld <? 0)%Z then None
  else if (ld <? lc)%Z then Some (Z.to_nat lc, COMMA)
  else Some (Z.to_nat ld, DOT).

(** The candidate is a decimal separator (1 or 2 digits follow it) and
    its character occurs before it as well. *)
Definition decimal_repeated (raw : str) : bool :=
  match candidate raw with
  | Some (pos, sep) =>
    let k := digits_after raw (Z.of_nat pos) in
    (1 <=? k)%nat && (k <=? 2)%nat && existsb (eqc sep) (firstn pos raw)
  | None => false
  end.

(** *** The rent cascade as specified: rule descriptors and a runner *)

Inductive basis := PerMonth | PerYear.

(** The plausibility range of a basis, then the conversion to a monthly
    value. *)
Definition accept (b : basis) (x : option Q) : option Q :=
  match b with
  | PerYear => if Rent.plausible 3600 36000 x then Rent.divided x 12 else None
  | PerMonth => if Rent.plausible 300 3000 x then x else None
  end.

Definition rule := str -> option Q.

Definition on_match (m : option rmatch_obj) (b : rmatch_obj -> basis)
  : option Q :=
  match m with
  | Some mm => accept (b mm) (parse_amount (group1 mm))
  | None => None
  end.

Definition rule1 : rule :=
  fun text => on_match (search RENT_RE1 text) (fun _ => PerYear).
Definition rule2 : rule :=
  fun text => on_match (search RENT_RE2 text) (fun _ => PerMonth).
Definition rule3 : rule :=
  fun text => on_match (search RENT_RE3 text) (fun _ => PerYear).

(** The period classification of rule 4. *)
Definition rule4_basis (text : str) (m : rmatch_obj) : basis :=
  let snippet :=
    lower (slice (m_start m) (Nat.min (len text) (m_end m + 100)) text) in
  if contains (u "annuel") snippet || contains (u "par an") snippet
     || contains (u "/an") snippet
  then PerYear else PerMonth.

Definition rule4 : rule :=
  fun text => on_match (search RENT_RE4 text) (rule4_basis text).
Definition rule5 : rule :=
  fun text => on_match (search RENT_RE5 text) (fun _ => PerMonth).
Definition rule6 : rule :=
  fun text =>
    on_match (Rent.matched_group (search RENT_RE6 text)) (fun _ => PerMonth).

Definition rent_rules : list rule := [rule1; rule2; rule3; rule4; rule5; rule6].

(** The first rule that produces a value wins. *)
Fixpoint run_cascade (rules : list rule) (text : str) : option Q :=
  match rules with
  | [] => None
  | r :: rules' =>
    match r text with
    | Some v => Some v
    | None => run_cascade rules' text
    end
  end.

(** *** The keyword window locator *)

Section Locate.

Variables (text keyword : str) (strict : bool).

(** The keyword occurs at [idx] in the lower-cased text. *)
Definition occurs_at (idx : nat) : Prop :=
  find (keyword_lower keyword) (text_lower text) idx = Some idx.

(** The part of the snippet of [idx] the amount pattern is searched in. *)
Definition search_region (idx : nat) : str :=
  from (len keyword) (search_snippet text keyword strict idx).

(** The text just past the keyword occurrence at [idx], to the end of its
    snippet. *)
Definition region_after_keyword (idx : nat) : str :=
  let snippet_end :=
    if strict then Nat.min (len text) (idx + len keyword + 50)
    else Nat.min (len text) (idx + 300) in
  slice (idx + len keyword) snippet_end text.

(** What a result of the script's locator says about the text: with a
    snippet, it comes from the first occurrence whose region holds an
    amount pattern; without one, no occurrence has an amount pattern in
    its region. *)
Definition located (res : option Q * option str) : Prop :=
  match snd res with
  | Some snip =>
    exists idx m,
      occurs_at idx
      /\ (forall j, (j < idx)%nat -> occurs_at j ->
                    search AMOUNT_RE (search_region j) = None)
      /\ search AMOUNT_RE (search_region idx) = Some m
      /\ fst res = parse_amount (group1 m)
      /\ snip = search_snippet text keyword strict idx
  | None =>
    fst res = None
    /\ forall j, occurs_at j -> search AMOUNT_RE (search_region j) = None
  end.

(** The locator as specified: the first occurrence whose amount
    normalizes; an occurrence whose amount does not is passed over. *)
Fixpoint locate_loop (fuel start : nat) : option (option Q * option str) :=
  match fuel with
  | O => None
  | S fuel' =>
    match find (keyword_lower keyword) (text_lower text) start with
    | None => Some (None, None)
    | Some idx =>
      match search AMOUNT_RE (search_region idx) with
      | Some m =>
        match parse_amount (group1 m) with
        | Some v => Some (Some v, Some (search_snippet text keyword strict idx))
        | None => locate_loop fuel' (idx + 1)
        end
      | None => locate_loop fuel' (idx + 1)
      end
    end
  end.

Definition locate : option Q * option str :=
  match locate_loop (len (text_lower text) + 2) 0 with
  | Some r => r
  | None => (None, None)
  end.

End Locate.

(** The property-tax extractor with the fallback search removed. *)
Definition extract_taxe_without_fallback (text : str)
  : option Q * option str :=
  parse_amounts_near_keyword text KW_TAXE_FONCI true.

End Spec.

(* ------------------------------------------------------------------ *)
(** * Auxiliary definitions of the proofs *)

Section Aux.

Local Open Scope Q_scope.

(** The variables of [parse_ad_page] on entry to the yield block. *)
Definition raw_vars (text : str) : yield_vars :=
  let monthly_rent := Rent.monthly_rent (Rent.extract text) in
  {| v_monthly_rent := monthly_rent;
     v_annual_rent := option_map (fun m => fmul m 12) monthly_rent;
     v_annual_charges :=
       option_map (fun m => fmul m 12)
                  (monthly_charges_of (extract_charges text));
     v_taxe_annual := taxe_annual_of (extract_taxe text);
     v_gross_yield := None; v_net_yield := None |}.

(** The three ways through the yield block. *)
Inductive yield_case (price : option Q) (v : yield_vars) : yield_vars -> Prop :=
| Rejected p ar :
    price = Some p -> v_annual_rent v = Some ar ->
    ~ p == 0 -> ~ ar == 0 -> 20 < ar / p * 100 ->
    yield_case price v
      {| v_monthly_rent := None; v_annual_rent := None;
         v_annual_charges := v_annual_charges v;
         v_taxe_annual := v_taxe_annual v;
         v_gross_yield := None; v_net_yield := v_net_yield v |}
| Accepted p ar :
    price = Some p -> v_annual_rent v = Some ar ->
    ~ p == 0 -> ~ ar == 0 -> ar / p * 100 <= 20 ->
    yield_case price v
      {| v_monthly_rent := v_monthly_rent v; v_annual_rent := Some ar;
         v_annual_charges := Some (or_zero (v_annual_charges v));
         v_taxe_annual := Some (or_zero (v_taxe_annual v));
         v_gross_yield := Some (fmul (fdiv ar p) 100);
         v_net_yield :=
           Some (fmul (fdiv (fsub (fsub ar (or_zero (v_annual_charges v)))
                                  (or_zero (v_taxe_annual v))) p) 100) |}
| Skipped :
    (forall p ar, price = Some p -> v_annual_rent v = Some ar ->
                  p == 0 \/ ar == 0) ->
    yield_case price v v.


(** The strings [parse_amount] hands to [float], by branch, from the
    stripped input. *)
Definition comma_decimal (s : str) : str :=
  replace COMMA [DOT] (replace DOT [] (replace SPACE [] (replace NBSP [SPACE] s))).

Definition dot_decimal (s : str) : str :=
  replace COMMA [] (replace SPACE [] (replace NBSP [SPACE] s)).

Definition no_decimal (s : str) : str :=
  replace DOT [] (replace COMMA [] (replace SPACE [] (replace NBSP [SPACE] s))).

Definition no_separator (s : str) : str :=
  replace SPACE [] (replace NBSP [SPACE] s).

(** The number of dots of a string. *)
Definition ndots (s : str) : nat := length (filter (fun x => eqc x DOT) s).

(** The characters of an amount: ASCII digits and the grouping and decimal
    separators. *)
Definition amount_char (c : char) : bool :=
  is_ascii_digit c || Spec.is_grouping c.

(** A pattern without group whose every consumed character satisfies
    [P]. *)
Fixpoint consumes_only (P : char -> bool) (r : regex) : Prop :=
  match r with
  | Eps => True
  | Chr ic c => forall x, char_match ic c x = true -> P x = true
  | Cls p => forall x, p x = true -> P x = true
  | Seq r1 r2 => consumes_only P r1 /\ consumes_only P r2
  | Alt r1 r2 => consumes_only P r1 /\ consumes_only P r2
  | Star r1 => consumes_only P r1
  | LazyStar r1 => consumes_only P r1
  | Grp _ => False
  end.

(** A pattern whose groups only consume characters that satisfy [P]. *)
Fixpoint groups_only (P : char -> bool) (r : regex) : Prop :=
  match r with
  | Eps => True
  | Chr _ _ => True
  | Cls _ => True
  | Seq r1 r2 => groups_only P r1 /\ groups_only P r2
  | Alt r1 r2 => groups_only P r1 /\ groups_only P r2
  | Star r1 => groups_only P r1
  | LazyStar r1 => groups_only P r1
  | Grp r1 => consumes_only P r1
  end.

(** The captured text of a state satisfies [P]. *)
Definition cap_only (P : char -> bool) (c : option str) : Prop :=
  match c with
  | Some g => Forall (fun x => P x = true) g
  | None => True
  end.

(** The patterns of the script. *)
Definition script_patterns : list regex :=
  [AMOUNT_RE; RENT_RE1; RENT_RE2; RENT_RE3; RENT_RE4; RENT_RE5; RENT_RE6;
   CHARGES_RE1; CHARGES_RE2].

(** [st'] is reached from [st] by consuming characters of [P], the
    capture untouched. *)
Definition consumed (P : char -> bool) (st st' : mstate) : Prop :=
  cap st' = cap st
  /\ exists w, rest st = w ++ rest st'
               /\ pos st' = (pos st + length w)%nat
               /\ Forall (fun x => P x = true) w.

(** The capture stays within [P]. *)
Definition keeps_cap (P : char -> bool) (st st' : mstate) : Prop :=
  cap_only P (cap st) -> cap_only P (cap st').

End Aux.

(* ------------------------------------------------------------------ *)
(** * The callers: URL lists, the cache, search URLs *)

From Stdlib Require Import DecimalPos.

(** Equality of two strings, [a == b]. *)
Fixpoint str_eqb (a b : str) : bool :=
  match a, b with
  | [], [] => true
  | x :: a', y :: b' => eqc x y && str_eqb a' b'
  | _, _ => false
  end.

(** [u in seen] for a set or a list of strings. *)
Definition str_mem (x : str) (seen : list str) : bool :=
  existsb (str_eqb x) seen.

(** ** [main] and [scan_leboncoin]: the list of ad URLs *)

Module UrlList.

(** One round of the "dedupe while preserving order" loop; the state is
    the set [seen] and the list [ad_urls_filtered]. *)
Definition dedupe_step (st : list str * list str) (x : str)
  : list str * list str :=
  let (seen, ad_urls_filtered) := st in
  if str_mem x seen then st else (x :: seen, ad_urls_filtered ++ [x]).

(** The loop [for u in ad_urls: if u not in seen: ...]. *)
Definition dedupe (ad_urls : list str) : list str :=
  snd (fold_left dedupe_step ad_urls ([], [])).

(** [l[:k]] for an integer [k]: a negative [k] counts from the end. *)
Definition prefix_slice (k : Z) (l : list str) : list str :=
  if (0 <=? k)%Z then firstn (Z.to_nat k) l
  else firstn (length l - Z.to_nat (- k)) l.

(** [if args.max_ads: ad_urls_filtered = ad_urls_filtered[:args.max_ads]];
    [None] is the default of the option. *)
Definition limit (max_ads : option Z) (l : list str) : list str :=
  match max_ads with
  | Some k => if (k =? 0)%Z then l else prefix_slice k l
  | None => l
  end.

(** The URLs [main] goes on to parse. *)
Definition ads_to_parse (max_ads : option Z) (ad_urls : list str)
  : list str :=
  limit max_ads (dedupe ad_urls).

(** The list with only the first occurrence of each element. *)
Fixpoint first_occurrences (l : list str) : list str :=
  match l with
  | [] => []
  | x :: l' => x :: filter (fun y => negb (str_eqb y x)) (first_occurrences l')
  end.

End UrlList.

(** ** The two kinds of space of an amount *)

(** A no-break space turned into a space, and a space into a no-break
    space; [parse_amount] is compared on the two spellings. *)
Definition to_space (x : char) : char := if eqc x NBSP then SPACE else x.
Definition to_nbsp (x : char) : char := if eqc x SPACE then NBSP else x.

(** ** [PropertyCache] and [parse_properties] (interactive_scanner.py) *)

Module Cache.

(** A Python dict with string keys: the entries in insertion order.  Every
    dict built from [[]] by [set] and [del] has each key once. *)
Section Dict.

Variable V : Type.

Definition dict := list (str * V).

(** [d.get(k)] *)
Fixpoint get (k : str) (d : dict) : option V :=
  match d with
  | [] => None
  | (k', v) :: d' => if str_eqb k' k then Some v else get k d'
  end.

(** [k in d] *)
Definition has (k : str) (d : dict) : bool :=
  match get k d with Some _ => true | None => false end.

(** [d[k] = v] *)
Fixpoint set (k : str) (v : V) (d : dict) : dict :=
  match d with
  | [] => [(k, v)]
  | (k', v') :: d' =>
    if str_eqb k' k then (k', v) :: d' else (k', v') :: set k v d'
  end.

(** [del d[k]] *)
Fixpoint del (k : str) (d : dict) : dict :=
  match d with
  | [] => []
  | (k', v') :: d' =>
    if str_eqb k' k then del k d' else (k', v') :: del k d'
  end.

(** The keys of a dict are distinct. *)
Definition well_formed (d : dict) : Prop := NoDup (map fst d).

End Dict.

Arguments get {V} k d.
Arguments has {V} k d.
Arguments set {V} k v d.
Arguments del {V} k d.
Arguments well_formed {V} d.

(** The values of the fields of a property. *)
Inductive pyval :=
| VNone
| VBool (b : bool)
| VNum (q : Q)
| VStr (s : str).

(** A property: the dict [parse_ad_page] returns, plus the fields the
    scanner adds (the values of a cache file this program wrote). *)
Definition property := dict pyval.

(** [self.data]: the properties by URL. *)
Definition cache := dict property.

Definition ANALYSIS_AI : str := u "analysis_ai".
Definition USER_STATUS : str := u "user_status".

(** The truth value of [prop]: [None] and the empty dict are false. *)
Definition truthy (prop : option property) : bool :=
  match prop with
  | Some (_ :: _) => true
  | _ => false
  end.

Definition get_property (url : str) (data : cache) : option property :=
  get url data.

(** [set_property]; the write of the file by [save] is outside the
    model (its errors are swallowed). *)
Definition set_property (url : str) (data_ : property) (data : cache)
  : cache :=
  set url data_ data.

(** [has_analysis], as a truth value. *)
Definition has_analysis (url : str) (data : cache) : bool :=
  match get_property url data with
  | Some prop => truthy (Some prop) && has ANALYSIS_AI prop
  | None => false
  end.

(** [prop.get(key, default) if prop else default] *)
Definition field_or (key : str) (default : pyval) (url : str) (data : cache)
  : pyval :=
  match get_property url data with
  | Some prop =>
    if truthy (Some prop) then
      match get key prop with
      | Some v => v
      | None => default
      end
    else default
  | None => default
  end.

Definition get_analysis (url : str) (data : cache) : pyval :=
  field_or ANALYSIS_AI VNone url data.

Definition get_status (url : str) (data : cache) : pyval :=
  field_or USER_STATUS (VStr []) url data.

(** [prop = self.get_property(url); if prop: prop[key] = value]: the dict
    held by the cache is updated in place. *)
Definition set_field (key : str) (value : pyval) (url : str) (data : cache)
  : cache :=
  match get_property url data with
  | Some prop =>
    if truthy (Some prop) then set url (set key value prop) data else data
  | None => data
  end.

Definition set_analysis (url : str) (analysis : pyval) (data : cache)
  : cache :=
  set_field ANALYSIS_AI analysis url data.

Definition set_status (url : str) (status : pyval) (data : cache) : cache :=
  set_field USER_STATUS status url data.

(** [delete_property]: the returned flag and the new [self.data]. *)
Definition delete_property (url : str) (data : cache) : bool * cache :=
  if has url data then (true, del url data) else (false, data).

(** *** [parse_properties]

    The loop with [debug] off (its default); the request to the home page
    before the loop has no part in the result. *)

Section ParseProperties.

(** [parse_ad_page(url, session=session)]; [None] when the call raises. *)
Variable parse_ad_page : str -> option property.

(** The cache, the list [properties], and the URLs [parse_ad_page] was
    called on (a trace, not a variable of the script). *)
Record run := Run {
  data : cache;
  properties : list property;
  parsed : list str
}.

(** One round of [for i, url in enumerate(ad_urls, 1)]. *)
Definition step (st : run) (url : str) : run :=
  let cached := get_property url (data st) in
  match cached with
  | Some (e :: c) =>
    {| data := data st; properties := properties st ++ [e :: c];
       parsed := parsed st |}
  | _ =>
    match parse_ad_page url with
    | Some data_ =>
      {| data := set_property url data_ (data st);
         properties := properties st ++ [data_];
         parsed := parsed st ++ [url] |}
    | None =>
      {| data := data st; properties := properties st;
         parsed := parsed st ++ [url] |}
    end
  end.

Definition parse_properties (ad_urls : list str) (cache0 : cache) : run :=
  fold_left step ad_urls
            {| data := cache0; properties := []; parsed := [] |}.

(** What [parse_properties] appends for [url] when the cache is [c]: the
    cached property when it is truthy, else the parsed one. *)
Definition served (c : cache) (url : str) : option property :=
  if truthy (get_property url c) then get_property url c
  else parse_ad_page url.

End ParseProperties.

(** The zero or one property a round appends. *)
Definition olist (p : option property) : list property :=
  match p with Some d => [d] | None => [] end.

End Cache.

(** ** [extract_ad_links_from_search]: which links are kept (scan_lbc.py) *)

Module Links.

Definition SLASH : char := 47%N.
Definition HASH : char := 35%N.

(** [s.split(c)] for a one-character separator. *)
Fixpoint split (c : char) (s : str) : list str :=
  match s with
  | [] => [[]]
  | x :: s' =>
    if eqc x c then [] :: split c s'
    else match split c s' with
         | h :: t => (x :: h) :: t
         | [] => [[x]]
         end
  end.

(** [s.endswith(suffix)] *)
Definition endswith (suffix s : str) : bool :=
  startswith (rev suffix) (rev s).

(** [s.isdigit()]: at least one character, all of them digits. *)
Definition str_isdigit (s : str) : bool :=
  Str.truthy s && forallb isdigit s.

(** [href.split("#")[0]] *)
Definition before_hash (href : str) : str := hd [] (split HASH href).

(** The test on the [href] of an anchor that begins with a slash
    (line 140). *)
Definition relative_href_kept (href : str) : bool :=
  contains (u "/annonces/") href || startswith (u "/v") href
  || startswith (u "/vi") href || startswith (u "/ad") href.

(** The test on any other [href] (line 142). *)
Definition absolute_href_kept (href : str) : bool :=
  contains (u "leboncoin.fr") href
  && (contains (u "/annonces/") href || contains (u "/v") href
      || contains (u "/vi") href || contains (u "/ad") href).

(** The test of [walk] on a string of the JSON-LD data (line 156). *)
Definition walk_keeps (obj : str) : bool :=
  startswith (u "/annonces/") obj || startswith (u "/v") obj
  || startswith (u "/vi") obj || contains (u "leboncoin.fr/annonces") obj.

(** [[seg for seg in p.split("/") if seg]] *)
Definition segments (p : str) : list str :=
  filter Str.truthy (split SLASH p).

Definition ad_prefixes : list str := [u "annonces"; u "v"; u "vi"].

Definition id_like (seg : str) : bool :=
  str_isdigit seg || endswith (u ".htm") seg || endswith (u ".html") seg.

(** [is_ad_url] on [p = urlparse(u).path]. *)
Definition is_ad_path (p : str) : bool :=
  let parts := segments p in
  match parts with
  | [] => false
  | first :: _ =>
    if str_mem first ad_prefixes && (2 <=? length parts)%nat then true
    else existsb id_like parts
  end.

(** [is_ad_url]; [None] when [urlparse] raises. *)
Definition is_ad_url (path : option str) : bool :=
  match path with
  | Some p => is_ad_path p
  | None => false
  end.

End Links.

(** ** Search URLs: [build_search_url] and the pages of [main] *)

Module SearchUrl.

(** [str(n)] for an integer. *)
Fixpoint uint_str (d : Decimal.uint) : str :=
  match d with
  | Decimal.Nil => []
  | Decimal.D0 d' => 48%N :: uint_str d'
  | Decimal.D1 d' => 49%N :: uint_str d'
  | Decimal.D2 d' => 50%N :: uint_str d'
  | Decimal.D3 d' => 51%N :: uint_str d'
  | Decimal.D4 d' => 52%N :: uint_str d'
  | Decimal.D5 d' => 53%N :: uint_str d'
  | Decimal.D6 d' => 54%N :: uint_str d'
  | Decimal.D7 d' => 55%N :: uint_str d'
  | Decimal.D8 d' => 56%N :: uint_str d'
  | Decimal.D9 d' => 57%N :: uint_str d'
  end.

Definition str_of_int (z : Z) : str :=
  if (z <? 0)%Z then 45%N :: uint_str (N.to_uint (Z.abs_N z))
  else uint_str (N.to_uint (Z.to_N z)).

(** [c.encode("utf-8")]; [None] for a surrogate, which raises
    [UnicodeEncodeError]. *)
Definition utf8_encode (c : char) : option (list N) :=
  (if c <? 128 then Some [c]
   else if c <? 2048 then Some [192 + c / 64; 128 + c mod 64]
   else if c <? 65536 then
     if (55296 <=? c) && (c <=? 57343) then None
     else Some [224 + c / 4096; 128 + (c / 64) mod 64; 128 + c mod 64]
   else if c <? 1114112 then
     Some [240 + c / 262144; 128 + (c / 4096) mod 64; 128 + (c / 64) mod 64;
           128 + c mod 64]
   else None)%N.

(** The bytes [quote] never escapes: letters, digits and [_.-~]. *)
Definition always_safe (b : N) : bool :=
  ((65 <=? b) && (b <=? 90) || (97 <=? b) && (b <=? 122)
   || (48 <=? b) && (b <=? 57)
   || (b =? 95) || (b =? 46) || (b =? 45) || (b =? 126))%N.

Definition hex_digit (n : N) : char :=
  (if n <? 10 then 48 + n else 55 + n)%N.

(** One byte under [quote_plus]: kept, turned into [+], or written as
    [%XX]. *)
Definition quote_byte (b : N) : str :=
  if always_safe b then [b]
  else if (b =? 32)%N then [43%N]
  else [37%N; hex_digit (b / 16); hex_digit (b mod 16)].

(** [quote_plus(s)] *)
Fixpoint quote_plus (s : str) : option str :=
  match s with
  | [] => Some []
  | c :: s' =>
    match utf8_encode c, quote_plus s' with
    | Some bs, Some q => Some (flat_map quote_byte bs ++ q)
    | _, _ => None
    end
  end.

(** [sep.join(l)] *)
Fixpoint join (sep : str) (l : list str) : str :=
  match l with
  | [] => []
  | [x] => x
  | x :: l' => x ++ sep ++ join sep l'
  end.

(** [urlencode(params)] for a dict of strings, given as its items. *)
Fixpoint encode_items (params : list (str * str)) : option (list str) :=
  match params with
  | [] => Some []
  | (k, v) :: params' =>
    match quote_plus k, quote_plus v, encode_items params' with
    | Some k', Some v', Some l => Some ((k' ++ u "=" ++ v') :: l)
    | _, _, _ => None
    end
  end.

Definition urlencode (params : list (str * str)) : option str :=
  option_map (join (u "&")) (encode_items params).

(** The dict [params] of [build_search_url], the page as [str(page)]. *)
Definition search_params (city query : str) (page : Z) : list (str * str) :=
  [(u "text", query); (u "locations", city); (u "category", u "9");
   (u "owner_type", u "all"); (u "sort", u "time"); (u "order", u "desc")]
  ++ (if negb (page =? 0)%Z && (1 <? page)%Z
      then [(u "page", str_of_int page)] else []).

Definition BASE : str := u "https://www.leboncoin.fr/recherche".

(** [build_search_url(city, query, page)]; [None] when [urlencode]
    raises. *)
Definition build_search_url (city query : str) (page : Z) : option str :=
  option_map (fun q => BASE ++ u "?" ++ q)
             (urlencode (search_params city query page)).

(** [r"page=\d+"]; among the code points of the model the decimal
    digits [\d] stands for are the ASCII digits. *)
Definition PAGE_RE : regex := Seq (lit false (u "page=")) (plus digit).

(** [re.sub(r, repl, s)] for a pattern that matches no empty string and
    a replacement without backslash: the scan of [finditer], each match
    replaced. *)
Fixpoint sub_at (r : regex) (repl s : str) (i skip : nat) : str :=
  match skip with
  | S sk =>
    match s with
    | [] => []
    | _ :: s' => sub_at r repl s' (S i) sk
    end
  | O =>
    match match_here r s i with
    | Some m =>
      repl ++ match s with
              | [] => []
              | _ :: s' => sub_at r repl s' (S i) (m_end m - i - 1)
              end
    | None =>
      match s with
      | [] => []
      | x :: s' => x :: sub_at r repl s' (S i) 0
      end
    end
  end.

Definition sub (r : regex) (repl s : str) : str := sub_at r repl s 0 0.

(** [f"page={p}"] *)
Definition page_param (p : Z) : str := u "page=" ++ str_of_int p.

(** The URL of page [p] when [--search-url] is given (lines 577-582). *)
Definition search_page_url (search_url : str) (p : Z) : str :=
  if contains (u "page=") search_url then
    sub PAGE_RE (page_param p) search_url
  else
    search_url ++ (if contains (u "?") search_url then u "&" else u "?")
               ++ page_param p.

End SearchUrl.

(** *** Notions the statements on search URLs use *)

(** A code point that is no surrogate: a character [encode] accepts. *)
Definition scalar (c : char) : bool :=
  ((c <? 55296) || (57343 <? c) && (c <? 1114112))%N.

(** The characters of an encoded value: letters, digits, [_.-~], [+]
    and [%]. *)
Definition url_safe (c : char) : bool :=
  (SearchUrl.always_safe c || (c =? 43) || (c =? 37))%N.

Definition AMP : char := 38%N.

(** The number of leading characters of [s] that satisfy [p]. *)
Fixpoint leading (p : char -> bool) (s : str) : nat :=
  match s with
  | x :: s' => if p x then S (leading p s') else O
  | [] => O
  end.

(** The length of [page=] and the digits after it at the head of [s],
    when [s] begins so. *)
Definition page_match (s : str) : option nat :=
  if startswith (u "page=") s then
    match skipn 5 s with
    | d :: r => if is_ascii_digit d then Some (6 + leading is_ascii_digit r)%nat
                else None
    | [] => None
    end
  else None.


(** The replacement for a page: [page=] and at least one digit. *)
Definition page_repl (repl : str) : Prop :=
  exists d ds, repl = u "page=" ++ d :: ds
               /\ is_ascii_digit d = true
               /\ forallb is_ascii_digit ds = true.

(** ** [scan_leboncoin]: the loop over the search pages
    (interactive_scanner.py) *)

Module Pages.

Section Scan.

(** The links of search page [p], that is
    [extract_ad_links_from_search(fetch(build_search_url(city, query, p)))];
    [None] when the call raises. *)
Variable page_links : nat -> option (list str).

(** [for p in range(1, pages + 1)], over the pages still to do: an
    exception is printed and the loop goes on, an empty page ends it. *)
Fixpoint scan_loop (ps : list nat) (ad_urls : list str) : list str :=
  match ps with
  | [] => ad_urls
  | p :: ps' =>
    match page_links p with
    | Some [] => ad_urls
    | Some new_links => scan_loop ps' (ad_urls ++ new_links)
    | None => scan_loop ps' ad_urls
    end
  end.

(** The list [scan_leboncoin] returns; a number of pages below 1 gives
    the empty range, as 0 does. *)
Definition scan_leboncoin (pages : nat) : list str :=
  UrlList.dedupe (scan_loop (List.seq 1 pages) []).

End Scan.

End Pages.

(* ------------------------------------------------------------------ *)
(** * Properties *)

(** ** Arithmetic of the numeric model *)

Section NumFacts.

Local Open Scope Q_scope.

Lemma nonzero_true (q : Q) : nonzero q = true <-> ~ q == 0.
Proof.
  unfold nonzero, Qeq. simpl. rewrite negb_true_iff, Z.eqb_neq. lia.
Qed.

Lemma nonzero_false (q : Q) : nonzero q = false <-> q == 0.
Proof.
  unfold nonzero, Qeq. simpl. rewrite negb_false_iff, Z.eqb_eq. lia.
Qed.

Lemma leb_true (a b : Q) : leb a b = true <-> a <= b.
Proof. apply Qle_bool_iff. Qed.

Lemma gtb_true (a b : Q) : gtb a b = true <-> b < a.
Proof.
  unfold gtb. rewrite negb_true_iff. split; intro H.
  - apply Qnot_le_lt. intro L. apply Qle_bool_iff in L. congruence.
  - destruct (Qle_bool a b) eqn:E; [|reflexivity].
    apply Qle_bool_iff in E. exfalso. apply (Qlt_not_le _ _ H E).
Qed.

Lemma gtb_false (a b : Q) : gtb a b = false <-> a <= b.
Proof.
  unfold gtb. rewrite negb_false_iff. apply Qle_bool_iff.
Qed.

Lemma between_true (a x b : Q) : between a x b = true <-> a <= x /\ x <= b.
Proof.
  unfold between. rewrite andb_true_iff, !leb_true. reflexivity.
Qed.

Lemma fdiv_eq (a b : Q) : fdiv a b == a / b.
Proof. apply Qred_correct. Qed.

Lemma fmul_eq (a b : Q) : fmul a b == a * b.
Proof. apply Qred_correct. Qed.

Lemma fsub_eq (a b : Q) : fsub a b == a - b.
Proof. apply Qred_correct. Qed.

(** Rounding to the nearest integer never crosses an integer. *)
Lemma round_half_even_le (q : Q) (n : Z) :
  q <= inject_Z n -> (round_half_even q <= n)%Z.
Proof.
  intro H. unfold round_half_even.
  assert (Hf : (Qfloor q <= n)%Z).
  { rewrite <- (Qfloor_Z n). apply Qfloor_resp_le, H. }
  assert (Hstep : 0 < q - inject_Z (Qfloor q) -> (Qfloor q + 1 <= n)%Z).
  { intro Hpos.
    assert (Hlt : inject_Z (Qfloor q) < inject_Z n) by lra.
    rewrite <- Zlt_Qlt in Hlt. lia. }
  destruct (Qcompare (q - inject_Z (Qfloor q)) (1 # 2)) eqn:E.
  - apply Qeq_alt in E. destruct (Z.even (Qfloor q)); [exact Hf|].
    apply Hstep. lra.
  - exact Hf.
  - apply Qgt_alt in E. apply Hstep. lra.
Qed.

Lemma round_half_even_ge (q : Q) (n : Z) :
  inject_Z n <= q -> (n <= round_half_even q)%Z.
Proof.
  intro H. unfold round_half_even.
  assert (Hf : (n <= Qfloor q)%Z).
  { rewrite <- (Qfloor_Z n). apply Qfloor_resp_le, H. }
  destruct (Qcompare (q - inject_Z (Qfloor q)) (1 # 2));
    [destruct (Z.even (Qfloor q))| |]; lia.
Qed.

Lemma round2_eq (x : Q) :
  round2 x == inject_Z (round_half_even (x * 100)) / 100.
Proof. apply Qred_correct. Qed.

Lemma round2_le (x : Q) (n : Z) : x <= inject_Z n -> round2 x <= inject_Z n.
Proof.
  intro H. rewrite round2_eq.
  assert (L : (round_half_even (x * 100) <= n * 100)%Z).
  { apply round_half_even_le. rewrite inject_Z_mult.
    change (inject_Z 100) with 100. lra. }
  rewrite Zle_Qle, inject_Z_mult in L. change (inject_Z 100) with 100 in L.
  apply Qle_shift_div_r; lra.
Qed.

Lemma round2_ge (x : Q) (n : Z) : inject_Z n <= x -> inject_Z n <= round2 x.
Proof.
  intro H. rewrite round2_eq.
  assert (L : (n * 100 <= round_half_even (x * 100))%Z).
  { apply round_half_even_ge. rewrite inject_Z_mult.
    change (inject_Z 100) with 100. lra. }
  rewrite Zle_Qle, inject_Z_mult in L. change (inject_Z 100) with 100 in L.
  apply Qle_shift_div_l; lra.
Qed.

End NumFacts.

(** ** Facts about the string functions *)

Section StrFacts.

Local Open Scope nat_scope.

Lemma eqc_true (a b : char) : eqc a b = true <-> a = b.
Proof. apply N.eqb_eq. Qed.

Lemma eqc_refl (a : char) : eqc a a = true.
Proof. apply N.eqb_refl. Qed.

Lemma startswith_app (p s : str) :
  startswith p s = true <-> exists post, s = p ++ post.
Proof.
  revert s. induction p as [|a p IH]; intros s; simpl.
  - split; eauto.
  - destruct s as [|b s].
    + split; [discriminate | intros [post H]; discriminate].
    + rewrite andb_true_iff, eqc_true, IH. split.
      * intros [-> [post ->]]. eauto.
      * intros [post [= -> ->]]. eauto.
Qed.

Lemma startswith_prefix (p q s : str) :
  startswith (p ++ q) s = true -> startswith p s = true.
Proof.
  rewrite !startswith_app. intros [post ->]. rewrite <- app_assoc. eauto.
Qed.

Lemma startswith_length (p s : str) :
  startswith p s = true -> length p <= length s.
Proof.
  rewrite startswith_app. intros [post ->]. rewrite length_app. lia.
Qed.

(** [find_at] returns the first position at or after the offset where the
    substring starts. *)
Lemma find_at_some (sub s : str) (i idx : nat) :
  find_at sub s i = Some idx ->
  i <= idx /\ idx - i <= length s
  /\ startswith sub (skipn (idx - i) s) = true
  /\ forall j, j < idx - i -> startswith sub (skipn j s) = false.
Proof.
  revert i. induction s as [|c s IH]; intros i; simpl.
  - destruct (startswith sub []) eqn:E; [|discriminate].
    intros [= <-]. rewrite Nat.sub_diag. simpl. repeat split; auto; lia.
  - destruct (startswith sub (c :: s)) eqn:E.
    + intros [= <-]. rewrite Nat.sub_diag. simpl. repeat split; auto; lia.
    + intro H. apply IH in H as (H1 & H2 & H3 & H4).
      replace (idx - i) with (S (idx - S i)) by lia. simpl.
      repeat split; try lia; auto.
      intros [|j] Hj; simpl; [exact E | apply H4; lia].
Qed.

Lemma find_at_none (sub s : str) (i : nat) :
  find_at sub s i = None ->
  forall j, j <= length s -> startswith sub (skipn j s) = false.
Proof.
  revert i. induction s as [|c s IH]; intros i; simpl.
  - destruct (startswith sub []) eqn:E; [discriminate|].
    intros _ [|j] Hj; simpl; [exact E | lia].
  - destruct (startswith sub (c :: s)) eqn:E; [discriminate|].
    intros H [|j] Hj; simpl; [exact E|]. apply (IH _ H). lia.
Qed.

Lemma find_some (sub s : str) (start idx : nat) :
  find sub s start = Some idx ->
  start <= idx /\ idx <= length s
  /\ startswith sub (skipn idx s) = true
  /\ forall j, start <= j -> j < idx -> startswith sub (skipn j s) = false.
Proof.
  unfold find. destruct (length s <? start) eqn:L; [discriminate|].
  apply Nat.ltb_ge in L. intro H.
  apply find_at_some in H as (H1 & H2 & H3 & H4).
  rewrite length_skipn in H2. rewrite skipn_skipn in H3.
  replace (idx - start + start) with idx in H3 by lia.
  repeat split; try lia; auto.
  intros j J1 J2. specialize (H4 (j - start)). rewrite skipn_skipn in H4.
  replace (j - start + start) with j in H4 by lia. apply H4. lia.
Qed.

Lemma find_none (sub s : str) (start : nat) :
  find sub s start = None ->
  forall j, start <= j -> j <= length s ->
            startswith sub (skipn j s) = false.
Proof.
  unfold find. destruct (length s <? start) eqn:L.
  - apply Nat.ltb_lt in L. intros _ j J1 J2. lia.
  - apply Nat.ltb_ge in L. intros H j J1 J2.
    pose proof (find_at_none _ _ _ H (j - start)) as N.
    rewrite skipn_skipn, length_skipn in N.
    replace (j - start + start) with j in N by lia. apply N. lia.
Qed.

(** The keyword starts at position [j]. *)
Lemma find_self (sub s : str) (j : nat) :
  find sub s j = Some j <->
  j <= length s /\ startswith sub (skipn j s) = true.
Proof.
  split.
  - intro H. apply find_some in H. tauto.
  - intros [J H]. destruct (find sub s j) as [idx|] eqn:E.
    + apply find_some in E as (E1 & E2 & E3 & E4).
      destruct (Nat.eq_dec idx j) as [->|N]; [reflexivity|].
      rewrite (E4 j) in H; [discriminate | lia | lia].
    + rewrite (find_none _ _ _ E j) in H; [discriminate | lia | lia].
Qed.

Lemma contains_true (sub s : str) :
  contains sub s = true <-> exists pre post, s = pre ++ sub ++ post.
Proof.
  unfold contains. split.
  - destruct (find sub s 0) as [idx|] eqn:E; [|discriminate]. intros _.
    apply find_some in E as (_ & _ & H & _).
    apply startswith_app in H as [post H].
    exists (firstn idx s), post.
    rewrite <- H. symmetry. apply firstn_skipn.
  - intros (pre & post & ->).
    destruct (find sub (pre ++ sub ++ post) 0) eqn:E; [reflexivity|].
    pose proof (find_none _ _ _ E (length pre)) as N.
    rewrite skipn_app, skipn_all, Nat.sub_diag in N. simpl in N.
    rewrite length_app in N.
    assert (S : startswith sub (sub ++ post) = true)
      by (apply startswith_app; eauto).
    rewrite N in S; [discriminate | lia | lia].
Qed.

(** A string that contains [a ++ b] contains [b], and contains [a]. *)
Lemma contains_suffix (a b s : str) :
  contains (a ++ b) s = true -> contains b s = true.
Proof.
  rewrite !contains_true. intros (pre & post & ->).
  exists (pre ++ a), post. rewrite <- !app_assoc. reflexivity.
Qed.

Lemma contains_prefix (a b s : str) :
  contains (a ++ b) s = true -> contains a s = true.
Proof.
  rewrite !contains_true. intros (pre & post & ->).
  exists pre, (b ++ post). rewrite <- !app_assoc. reflexivity.
Qed.

End StrFacts.

(** ** What the amount group captures *)

Section CaptureFacts.

Local Open Scope nat_scope.

Variable P : char -> bool.

Lemma consumed_refl st : consumed P st st.
Proof. split; [reflexivity|]. exists []. simpl. auto. Qed.

Lemma consumed_trans st1 st2 st3 :
  consumed P st1 st2 -> consumed P st2 st3 -> consumed P st1 st3.
Proof.
  intros [C1 (w1 & R1 & P1 & F1)] [C2 (w2 & R2 & P2 & F2)].
  split; [congruence|]. exists (w1 ++ w2).
  rewrite R1, R2, P2, P1, length_app, <- app_assoc.
  repeat split; [lia | apply Forall_app; auto].
Qed.

Lemma consumed_advance st x xs :
  rest st = x :: xs -> P x = true -> consumed P st (advance st xs).
Proof.
  intros R Hx. split; [reflexivity|]. exists [x]. rewrite R. simpl.
  repeat split; [lia | auto].
Qed.

Section Loops.

Variable A : Type.
Variable body : mstate -> (mstate -> option A) -> option A.
Variable R : mstate -> mstate -> Prop.
Hypothesis R_refl : forall st, R st st.
Hypothesis R_trans : forall a b c, R a b -> R b c -> R a c.
Hypothesis body_ok :
  forall st k a, body st k = Some a -> exists st', k st' = Some a /\ R st st'.

Lemma greedy_loop_ok k n st a :
  greedy_loop body k n st = Some a -> exists st', k st' = Some a /\ R st st'.
Proof.
  revert st. induction n as [|n IH]; intros st; simpl.
  - intro H. eauto.
  - destruct (body st _) as [a0|] eqn:E.
    + intros [= ->]. apply body_ok in E as (st1 & E & R1).
      destruct (pos st <? pos st1); [|discriminate].
      apply IH in E as (st' & E & R2). eauto.
    + intro H. eauto.
Qed.

Lemma lazy_loop_ok k n st a :
  lazy_loop body k n st = Some a -> exists st', k st' = Some a /\ R st st'.
Proof.
  revert st. induction n as [|n IH]; intros st; simpl.
  - intro H. eauto.
  - destruct (k st) as [a0|] eqn:E.
    + intros [= ->]. eauto.
    + intro H. apply body_ok in H as (st1 & H & R1).
      destruct (pos st <? pos st1); [|discriminate].
      apply IH in H as (st' & H & R2). eauto.
Qed.

End Loops.

Lemma rmatch_consumes (r : regex) :
  consumes_only P r ->
  forall A st (k : mstate -> option A) a,
    rmatch r st k = Some a -> exists st', k st' = Some a /\ consumed P st st'.
Proof.
  induction r as [|ic c|p|r1 IH1 r2 IH2|r1 IH1 r2 IH2|r1 IH1|r1 IH1|r1 IH1];
    cbn [consumes_only rmatch]; intros Hr A st k a.
  - intro H. exists st. split; [exact H | apply consumed_refl].
  - destruct (rest st) as [|x xs] eqn:Rs; [discriminate|].
    destruct (char_match ic c x) eqn:M; [|discriminate].
    intro H. exists (advance st xs). split; [exact H|].
    apply (consumed_advance st x xs); auto.
  - destruct (rest st) as [|x xs] eqn:Rs; [discriminate|].
    destruct (p x) eqn:M; [|discriminate].
    intro H. exists (advance st xs). split; [exact H|].
    apply (consumed_advance st x xs); auto.
  - destruct Hr as [H1 H2]. intro H.
    apply (IH1 H1) in H as (st1 & H & C1).
    apply (IH2 H2) in H as (st2 & H & C2).
    exists st2. split; [exact H | eapply consumed_trans; eauto].
  - destruct Hr as [H1 H2].
    destruct (rmatch r1 st k) as [a0|] eqn:E.
    + intros [= ->]. apply (IH1 H1) in E. exact E.
    + apply (IH2 H2).
  - apply (greedy_loop_ok A (rmatch r1) (consumed P) consumed_refl consumed_trans).
    intros st0 k0 a0. apply (IH1 Hr).
  - apply (lazy_loop_ok A (rmatch r1) (consumed P) consumed_refl consumed_trans).
    intros st0 k0 a0. apply (IH1 Hr).
  - destruct Hr.
Qed.

Lemma firstn_consumed st st' :
  consumed P st st' ->
  Forall (fun x => P x = true) (firstn (pos st' - pos st) (rest st)).
Proof.
  intros [_ (w & Rw & Pw & Fw)]. rewrite Rw, Pw.
  replace (pos st + length w - pos st) with (length w) by lia.
  rewrite firstn_app, Nat.sub_diag, firstn_all. cbn. rewrite app_nil_r.
  exact Fw.
Qed.

Lemma rmatch_groups (r : regex) :
  groups_only P r ->
  forall A st (k : mstate -> option A) a,
    rmatch r st k = Some a ->
    exists st', k st' = Some a /\ keeps_cap P st st'.
Proof.
  assert (Krefl : forall st, keeps_cap P st st) by (intros st H; exact H).
  assert (Ktrans : forall a b c, keeps_cap P a b -> keeps_cap P b c ->
                                 keeps_cap P a c).
  { unfold keeps_cap. auto. }
  induction r as [|ic c|p|r1 IH1 r2 IH2|r1 IH1 r2 IH2|r1 IH1|r1 IH1|r1 IH1];
    cbn [groups_only rmatch]; intros Hr A st k a.
  - intro H. eauto.
  - destruct (rest st) as [|x xs]; [discriminate|].
    destruct (char_match ic c x); [|discriminate]. intro H.
    exists (advance st xs). split; [exact H | intro C; exact C].
  - destruct (rest st) as [|x xs]; [discriminate|].
    destruct (p x); [|discriminate]. intro H.
    exists (advance st xs). split; [exact H | intro C; exact C].
  - destruct Hr as [H1 H2]. intro H.
    apply (IH1 H1) in H as (st1 & H & C1).
    apply (IH2 H2) in H as (st2 & H & C2). eauto.
  - destruct Hr as [H1 H2].
    destruct (rmatch r1 st k) as [a0|] eqn:E.
    + intros [= ->]. apply (IH1 H1) in E. exact E.
    + apply (IH2 H2).
  - apply (greedy_loop_ok A (rmatch r1) (keeps_cap P) Krefl Ktrans).
    intros st0 k0 a0. apply (IH1 Hr).
  - apply (lazy_loop_ok A (rmatch r1) (keeps_cap P) Krefl Ktrans).
    intros st0 k0 a0. apply (IH1 Hr).
  - intro H. apply (rmatch_consumes r1 Hr) in H as (st1 & H & C).
    eexists. split; [exact H|]. intros _. cbn [cap cap_only].
    apply firstn_consumed, C.
Qed.

Lemma match_here_group (r : regex) (s : str) (i : nat) (m : rmatch_obj) :
  groups_only P r -> match_here r s i = Some m -> cap_only P (group1 m).
Proof.
  unfold match_here. intros Hr H.
  apply (rmatch_groups r Hr) in H as (st' & [= <-] & K).
  cbn [group1]. apply K. exact I.
Qed.

Lemma search_at_group (r : regex) (s : str) (i : nat) (m : rmatch_obj) :
  groups_only P r -> search_at r s i = Some m -> cap_only P (group1 m).
Proof.
  intro Hr. revert i. induction s as [|x s IH]; intros i; cbn [search_at].
  - destruct (match_here r [] i) as [m0|] eqn:E; [|discriminate].
    intros [= <-]. eapply match_here_group; eauto.
  - destruct (match_here r (x :: s) i) as [m0|] eqn:E.
    + intros [= <-]. eapply match_here_group; eauto.
    + apply IH.
Qed.

Lemma finditer_at_group (r : regex) (s : str) (i skip : nat) :
  groups_only P r ->
  Forall (fun m => cap_only P (group1 m)) (finditer_at r s i skip).
Proof.
  intro Hr. revert i skip. induction s as [|x s IH]; intros i skip;
    cbn [finditer_at].
  - destruct skip; [|constructor].
    destruct (match_here r [] i) as [m|] eqn:E; [|constructor].
    constructor; [eapply match_here_group; eauto | constructor].
  - destruct skip; [|apply IH].
    destruct (match_here r (x :: s) i) as [m|] eqn:E; [|apply IH].
    constructor; [eapply match_here_group; eauto | apply IH].
Qed.

End CaptureFacts.

Section AmountGroups.

Lemma amount_body_chars : consumes_only amount_char amount_body.
Proof.
  assert (D : forall x, is_ascii_digit x = true -> amount_char x = true).
  { intros x H. unfold amount_char. rewrite H. reflexivity. }
  cbn. repeat split; try exact I; intros x H;
    first [ exact (D x H)
          | repeat (apply orb_true_iff in H; destruct H as [H | H]);
            try discriminate; apply eqc_true in H; subst x; reflexivity ].
Qed.

Lemma script_patterns_groups :
  Forall (groups_only amount_char) script_patterns.
Proof.
  pose proof amount_body_chars as B.
  unfold script_patterns.
  repeat (apply Forall_cons;
          [cbn -[amount_body consumes_only];
           repeat match goal with |- _ /\ _ => split end;
           try exact I; exact B|]).
  apply Forall_nil.
Qed.

(** Every amount the patterns of the script capture is made of ASCII
    digits, spaces, no-break spaces, commas and dots: the strings on which
    the model of [float] is exact. *)
Lemma captured_amount_chars (r : regex) (text : str) (m : rmatch_obj) :
  In r script_patterns -> search r text = Some m ->
  cap_only amount_char (group1 m).
Proof.
  intros Hin H. apply (search_at_group amount_char r text 0 m); [|exact H].
  pose proof script_patterns_groups as G. rewrite Forall_forall in G.
  apply G, Hin.
Qed.

End AmountGroups.

(** ** The rent cascade *)

Section RentFacts.

Local Open Scope Q_scope.

Lemma plausible_range (lo hi : Q) (x : option Q) :
  Rent.plausible lo hi x = true ->
  exists v, x = Some v /\ lo <= v /\ v <= hi.
Proof.
  destruct x as [v|]; simpl; [|discriminate].
  rewrite andb_true_iff, between_true. intros [_ H]. eauto.
Qed.

Lemma accept_sound (b : Spec.basis) (x : option Q) (v : Q) :
  Spec.accept b x = Some v ->
  match b with
  | Spec.PerMonth => x = Some v /\ 300 <= v /\ v <= 3000
  | Spec.PerYear =>
    exists a, x = Some a /\ 3600 <= a /\ a <= 36000 /\ v == a / 12
  end.
Proof.
  destruct b; simpl.
  - destruct (Rent.plausible 300 3000 x) eqn:E; [|discriminate].
    intros ->. apply plausible_range in E as (w & Hw & H1 & H2).
    inversion Hw; subst. auto.
  - destruct (Rent.plausible 3600 36000 x) eqn:E; [|discriminate].
    apply plausible_range in E as (a & -> & H1 & H2). simpl.
    intros [= <-]. exists a. repeat split; auto. apply fdiv_eq.
Qed.

Lemma accept_range (b : Spec.basis) (x : option Q) (v : Q) :
  Spec.accept b x = Some v -> 300 <= v /\ v <= 3000.
Proof.
  intro H. apply accept_sound in H. destruct b.
  - tauto.
  - destruct H as (a & _ & H1 & H2 & E). rewrite E.
    split; [apply Qle_shift_div_l | apply Qle_shift_div_r]; lra.
Qed.

Lemma on_match_range m b v :
  Spec.on_match m b = Some v -> 300 <= v /\ v <= 3000.
Proof.
  destruct m; simpl; [apply accept_range | discriminate].
Qed.

Ltac rent_step :=
  repeat match goal with
         | |- context [match ?x with Some _ => _ | None => _ end] =>
           destruct x eqn:?; simpl; try reflexivity; try congruence
         | |- context [if ?x then _ else _] =>
           destruct x eqn:?; simpl; try reflexivity; try congruence
         end.

Lemma pattern1_rule text :
  Rent.monthly_rent (Rent.pattern1 text Rent.init) = Spec.rule1 text.
Proof.
  unfold Rent.pattern1, Spec.rule1, Spec.on_match, Spec.accept. rent_step.
Qed.

Lemma pattern2_rule text st :
  Rent.monthly_rent (Rent.pattern2 text st) =
  match Rent.monthly_rent st with
  | Some v => Some v
  | None => Spec.rule2 text
  end.
Proof.
  unfold Rent.pattern2, Spec.rule2, Spec.on_match, Spec.accept. rent_step.
Qed.

Lemma pattern3_rule text st :
  Rent.monthly_rent (Rent.pattern3 text st) =
  match Rent.monthly_rent st with
  | Some v => Some v
  | None => Spec.rule3 text
  end.
Proof.
  unfold Rent.pattern3, Spec.rule3, Spec.on_match, Spec.accept. rent_step.
Qed.

Lemma pattern4_rule text st :
  Rent.monthly_rent (Rent.pattern4 text st) =
  match Rent.monthly_rent st with
  | Some v => Some v
  | None => Spec.rule4 text
  end.
Proof.
  unfold Rent.pattern4, Spec.rule4, Spec.on_match, Spec.rule4_basis,
    Spec.accept.
  change (Nat.max 0 ?x) with x.
  destruct (Rent.monthly_rent st) eqn:E; [exact E|].
  destruct (search RENT_RE4 text) as [m|]; [|exact E].
  cbv zeta.
  destruct (contains (u "annuel") _ || contains (u "par an") _
            || contains (u "/an") _);
    rent_step.
Qed.

Lemma pattern5_rule text st :
  Rent.monthly_rent (Rent.pattern5 text st) =
  match Rent.monthly_rent st with
  | Some v => Some v
  | None => Spec.rule5 text
  end.
Proof.
  unfold Rent.pattern5, Spec.rule5, Spec.on_match, Spec.accept. rent_step.
Qed.

Lemma pattern6_rule text st :
  Rent.monthly_rent (Rent.pattern6 text st) =
  match Rent.monthly_rent st with
  | Some v => Some v
  | None => Spec.rule6 text
  end.
Proof.
  unfold Rent.pattern6, Spec.rule6, Spec.on_match, Spec.accept. rent_step.
Qed.

(** The six blocks of the script are the cascade runner on the six rules. *)
Lemma rent_extract_cascade text :
  Rent.monthly_rent (Rent.extract text)
  = Spec.run_cascade Spec.rent_rules text.
Proof.
  unfold Rent.extract.
  rewrite pattern6_rule, pattern5_rule, pattern4_rule, pattern3_rule,
    pattern2_rule, pattern1_rule.
  simpl.
  destruct (Spec.rule1 text); [reflexivity|].
  destruct (Spec.rule2 text); [reflexivity|].
  destruct (Spec.rule3 text); [reflexivity|].
  destruct (Spec.rule4 text); [reflexivity|].
  destruct (Spec.rule5 text); [reflexivity|].
  destruct (Spec.rule6 text); reflexivity.
Qed.

Lemma rent_rules_range r text v :
  In r Spec.rent_rules -> r text = Some v -> 300 <= v /\ v <= 3000.
Proof.
  intros Hin Hr.
  repeat (destruct Hin as [<- | Hin];
          [eapply on_match_range; exact Hr|]).
  destruct Hin.
Qed.

Lemma run_cascade_first rules text v :
  Spec.run_cascade rules text = Some v ->
  exists before r after,
    rules = before ++ r :: after /\ r text = Some v
    /\ Forall (fun r' => r' text = None) before.
Proof.
  induction rules as [|r rules IH]; simpl; [discriminate|].
  destruct (r text) as [w|] eqn:E.
  - intros [= ->]. exists [], r, rules. auto.
  - intro H. destruct (IH H) as (b & r' & a & -> & Hr & Hb).
    exists (r :: b), r', a. auto.
Qed.


(** The monthly rent of the cascade lies in the monthly range. *)
Lemma rent_extract_range text m :
  Rent.monthly_rent (Rent.extract text) = Some m -> 300 <= m /\ m <= 3000.
Proof.
  rewrite rent_extract_cascade. intro H.
  apply run_cascade_first in H as (b & r & a & E & Hr & _).
  apply (rent_rules_range r text); [|exact Hr].
  rewrite E. apply in_elt.
Qed.

End RentFacts.


(** ** Amounts are non-negative *)

Section Nonneg.

Local Open Scope Q_scope.

Lemma digits_value_nonneg (s : str) (acc : Z) :
  (0 <= acc)%Z -> (0 <= digits_value acc s)%Z.
Proof.
  revert acc. induction s as [|c s IH]; simpl; intros acc H; [exact H|].
  apply IH. lia.
Qed.

Lemma py_float_nonneg (v : str) (q : Q) : py_float v = Some q -> 0 <= q.
Proof.
  unfold py_float. destruct (span_digits v) as [ip r].
  destruct r as [|c fp].
  - destruct (Str.truthy ip); [|discriminate]. intros [= <-].
    change 0 with (inject_Z 0). rewrite <- Zle_Qle.
    apply digits_value_nonneg. lia.
  - destruct (_ && _); [|discriminate].
    remember (Qred _) as x eqn:Ex. intros [= <-].
    rewrite Ex, Qred_correct.
    apply Qle_shift_div_l.
    + change 0 with (inject_Z 0). rewrite <- Zlt_Qlt.
      apply Z.pow_pos_nonneg; lia.
    + rewrite Qmult_0_l. change 0 with (inject_Z 0). rewrite <- Zle_Qle.
      apply digits_value_nonneg. lia.
Qed.

Lemma parse_amount_nonneg (raw : option str) (q : Q) :
  parse_amount raw = Some q -> 0 <= q.
Proof.
  destruct raw as [raw|]; simpl; [|discriminate]. apply py_float_nonneg.
Qed.

Lemma near_keyword_loop_nonneg text keyword strict fuel start v snip :
  near_keyword_loop text keyword strict fuel start = Some (Some v, snip) ->
  0 <= v.
Proof.
  revert start. induction fuel as [|fuel IH]; simpl; intros start;
    [discriminate|].
  destruct (find _ _ start) as [idx|]; [|discriminate].
  destruct (search AMOUNT_RE _) as [m|]; [|apply IH].
  intros [= H _]. apply parse_amount_nonneg in H. exact H.
Qed.

Lemma near_keyword_nonneg text keyword strict :
  Spec.nonneg_or_absent (fst (parse_amounts_near_keyword text keyword strict)).
Proof.
  unfold parse_amounts_near_keyword.
  destruct (near_keyword_loop _ _ _ _ _) as [[[v|] snip]|] eqn:E; simpl; auto.
  apply near_keyword_loop_nonneg in E. exact E.
Qed.

Lemma price_keyword_loop_nonneg text kws price0 :
  Spec.nonneg_or_absent price0 ->
  Spec.nonneg_or_absent (price_keyword_loop text kws price0).
Proof.
  revert price0. induction kws as [|kw kws IH]; simpl; intros p0 H; [exact H|].
  destruct (truthy _); [|apply IH]; apply near_keyword_nonneg.
Qed.

Lemma max_amount_nonneg l x :
  0 <= x -> Forall (fun y => 0 <= y) l -> 0 <= max_amount x l.
Proof.
  unfold max_amount. revert x. induction l as [|y l IH]; simpl; intros x Hx Hl;
    [exact Hx|].
  inversion Hl; subst. apply IH; [|assumption].
  destruct (gtb y x); assumption.
Qed.

Lemma large_amounts_nonneg text : Forall (fun y => 0 <= y) (large_amounts text).
Proof.
  unfold large_amounts. apply Forall_flat_map, Forall_forall. intros m _.
  destruct (parse_amount (group1 m)) as [val|] eqn:E; [|constructor].
  destruct (_ && _); constructor; [|constructor].
  apply parse_amount_nonneg in E. exact E.
Qed.

Lemma extract_price_nonneg ad_price text :
  Spec.nonneg_or_absent ad_price ->
  Spec.nonneg_or_absent (extract_price ad_price text).
Proof.
  unfold extract_price. destruct ad_price as [p|]; [auto|]. intros _.
  pose proof (price_keyword_loop_nonneg text price_keywords None I) as H.
  destruct (price_keyword_loop _ _ _); [exact H|].
  pose proof (large_amounts_nonneg text) as L.
  destruct (large_amounts text) as [|x l]; simpl; [exact I|].
  inversion L; subst. apply max_amount_nonneg; assumption.
Qed.

Lemma charges_keyword_loop_nonneg text kws cur :
  Spec.nonneg_or_absent (fst cur) ->
  Spec.nonneg_or_absent (fst (charges_keyword_loop text kws cur)).
Proof.
  revert cur. induction kws as [|kw kws IH]; simpl; intros cur H; [exact H|].
  pose proof (near_keyword_nonneg text kw true) as N.
  destruct (fst (parse_amounts_near_keyword text kw true)) eqn:E.
  - rewrite E. exact N.
  - apply IH. rewrite E. exact I.
Qed.

Lemma extract_charges_nonneg text :
  Spec.nonneg_or_absent (fst (extract_charges text)).
Proof.
  unfold extract_charges.
  destruct (search CHARGES_RE1 text) as [m|]; cbn [fst].
  { destruct (parse_amount _) eqn:E; simpl; auto.
    apply parse_amount_nonneg in E. exact E. }
  destruct (search CHARGES_RE2 text) as [m|]; cbn [fst].
  { destruct (parse_amount _) eqn:E; simpl; auto.
    apply parse_amount_nonneg in E. exact E. }
  apply charges_keyword_loop_nonneg. exact I.
Qed.

Lemma extract_taxe_nonneg text :
  Spec.nonneg_or_absent (fst (extract_taxe text)).
Proof.
  unfold extract_taxe.
  pose proof (near_keyword_nonneg text KW_TAXE_FONCI true) as N.
  destruct (parse_amounts_near_keyword text KW_TAXE_FONCI true) as [[t|] s];
    simpl in *; [exact N|].
  apply near_keyword_nonneg.
Qed.

Lemma monthly_charges_of_nonneg found :
  Spec.nonneg_or_absent (fst found) ->
  Spec.nonneg_or_absent (monthly_charges_of found).
Proof.
  destruct found as [[c|] snip]; simpl; auto. intro H.
  destruct (detect_period_from_snippet _) as [[|]|]; simpl; auto.
  rewrite fdiv_eq. apply Qle_shift_div_l; lra.
Qed.

Lemma taxe_annual_of_nonneg found :
  Spec.nonneg_or_absent (fst found) ->
  Spec.nonneg_or_absent (taxe_annual_of found).
Proof.
  destruct found as [[c|] snip]; simpl; auto. intro H.
  destruct (detect_period_from_snippet _) as [[|]|]; simpl; auto.
  rewrite fmul_eq. lra.
Qed.




Lemma times12_nonneg x :
  Spec.nonneg_or_absent x ->
  Spec.nonneg_or_absent (option_map (fun m => fmul m 12) x).
Proof.
  destruct x as [v|]; simpl; auto. intro H. rewrite fmul_eq. lra.
Qed.

End Nonneg.

(** ** The yield block and the returned record *)

Section RecordFacts.

Local Open Scope Q_scope.

Lemma parse_ad_text_unfold url title ad_price text :
  parse_ad_text url title ad_price text =
  let price := extract_price ad_price text in
  let v := yield_block price (raw_vars text) in
  {| url := url;
     title := title;
     price := rounded price;
     monthly_rent := rounded (v_monthly_rent v);
     annual_rent := rounded (v_annual_rent v);
     monthly_charges := rounded (monthly_charges_of (extract_charges text));
     annual_charges := rounded (v_annual_charges v);
     taxe_fonciere_annual := rounded (v_taxe_annual v);
     gross_yield_pct := rounded (v_gross_yield v);
     net_yield_pct := rounded (v_net_yield v) |}.
Proof. reflexivity. Qed.

Lemma gross_raw_eq ar p : fmul (fdiv ar p) 100 == ar / p * 100.
Proof. rewrite fmul_eq, fdiv_eq. reflexivity. Qed.

Lemma yield_block_case price v : yield_case price v (yield_block price v).
Proof.
  unfold yield_block.
  destruct price as [p|] eqn:Ep;
    [|apply Skipped; intros; congruence].
  destruct (v_annual_rent v) as [ar|] eqn:Ea;
    [|apply Skipped; intros; congruence].
  destruct (nonzero p) eqn:Np; simpl.
  - destruct (nonzero ar) eqn:Na; simpl.
    + apply nonzero_true in Np. apply nonzero_true in Na.
      destruct (gtb (fmul (fdiv ar p) 100) 20) eqn:G.
      * apply gtb_true in G. rewrite gross_raw_eq in G.
        eapply Rejected; eauto.
      * apply gtb_false in G. rewrite gross_raw_eq in G.
        eapply Accepted; eauto.
    + apply nonzero_false in Na. apply Skipped.
      intros p' ar' [= <-] H. rewrite Ea in H. injection H as <-. now right.
  - apply nonzero_false in Np. apply Skipped.
    intros p' ar' [= <-] H. now left.
Qed.

Lemma round2_zero x : x == 0 -> round2 x == 0.
Proof.
  intro E. apply Qle_antisym.
  - apply (round2_le x 0). rewrite E. apply Qle_refl.
  - apply (round2_ge x 0). rewrite E. apply Qle_refl.
Qed.

Lemma raw_annual_rent_range text ar :
  v_annual_rent (raw_vars text) = Some ar ->
  3600 <= ar /\ ar <= 36000.
Proof.
  unfold raw_vars. cbn [v_annual_rent].
  destruct (Rent.monthly_rent (Rent.extract text)) as [m|] eqn:E;
    [|discriminate].
  apply rent_extract_range in E. cbn [option_map].
  remember (fmul m 12) as x eqn:Ex. intros [= <-].
  rewrite Ex, fmul_eq. lra.
Qed.

End RecordFacts.



Section RecordCases.

Local Open Scope Q_scope.

Lemma rounded_some x q :
  rounded x = Some q -> exists x0, x = Some x0 /\ q = round2 x0.
Proof.
  destruct x as [x0|]; simpl; [|discriminate].
  intro H. exists x0. split; [reflexivity | congruence].
Qed.




End RecordCases.



(** C3 (as amended) -- monthly_rent and annual_rent are both roundings of
    the same unrounded monthly value m of the cascade (or both absent):
    monthly_rent = round(m, 2) and annual_rent = round(m * 12, 2); the
    annual value is never supplied independently.  Likewise, when
    monthly_charges is present, annual_charges is the rounding of 12 times
    the unrounded monthly charges. *)
Theorem annual_rent_from_unrounded_monthly
        (url title : str) (ad_price : option Q) (text : str) :
  let r := parse_ad_text url title ad_price text in
  (exists m : option Q,
      (m = None \/ m = Rent.monthly_rent (Rent.extract text))
      /\ monthly_rent r = option_map round2 m
      /\ annual_rent r = option_map (fun x => round2 (fmul x 12)) m)
  /\ (monthly_charges r
      = option_map round2 (monthly_charges_of (extract_charges text))
      /\ forall c, monthly_charges_of (extract_charges text) = Some c ->
                   annual_charges r = Some (round2 (fmul c 12))).
Proof.
  cbv zeta. rewrite parse_ad_text_unfold. cbv zeta.
  cbn [monthly_rent annual_rent monthly_charges annual_charges].
  destruct (yield_block_case (extract_price ad_price text) (raw_vars text))
    as [p0 ar Ep Ea Np Na Hgt | p0 ar Ep Ea Np Na Hle | Hz].
  - cbn [v_monthly_rent v_annual_rent v_annual_charges raw_vars]. split.
    + exists None. auto.
    + split; [reflexivity|]. intros c ->. reflexivity.
  - cbn [v_monthly_rent v_annual_rent v_annual_charges raw_vars]. split.
    + exists (Rent.monthly_rent (Rent.extract text)).
      split; [now right|]. split; [reflexivity|].
      unfold raw_vars in Ea. cbn [v_annual_rent] in Ea.
      destruct (Rent.monthly_rent (Rent.extract text)) as [m|];
        [|discriminate].
      cbn [option_map rounded] in *. congruence.
    + split; [reflexivity|]. intros c ->. reflexivity.
  - cbn [v_monthly_rent v_annual_rent v_annual_charges raw_vars]. split.
    + exists (Rent.monthly_rent (Rent.extract text)).
      split; [now right|]. split; [reflexivity|].
      destruct (Rent.monthly_rent (Rent.extract text)); reflexivity.
    + split; [reflexivity|]. intros c ->. reflexivity.
Qed.

(** C3, the statement of the specification fails: an annual rent of
    10 000 is stored as monthly_rent 833.33 and annual_rent 10000.0, while
    round(833.33 * 12, 2) is 9999.96. *)
Lemma annual_from_stored_monthly_fails :
  ~ Spec.annual_from_stored_monthly
      (parse_ad_text [] [] None (u "Loyer annuel : 10 000 €")).
Proof.
  intro H. specialize (H (83333 # 100)%Q).
  vm_compute in H. specialize (H eq_refl). discriminate.
Qed.




(** ** The period detector *)

Section PeriodFacts.

Lemma euro_slash_mois (s : str) :
  contains (u "€/mois") s = true -> contains (u "/mois") s = true.
Proof. apply (contains_suffix (u "€") (u "/mois")). Qed.

Lemma par_mois_mois (s : str) :
  contains (u "par mois") s = true -> contains (u "mois") s = true.
Proof. apply (contains_suffix (u "par ") (u "mois")). Qed.

Lemma slash_mois_mois (s : str) :
  contains (u "/mois") s = true -> contains (u "mois") s = true.
Proof. apply (contains_suffix (u "/") (u "mois")). Qed.

Lemma detect_period_monthly_first_eq (snippet : str) :
  detect_period_from_snippet snippet
  = Spec.detect_period_monthly_first snippet.
Proof.
  unfold detect_period_from_snippet, Spec.detect_period_monthly_first.
  cbv zeta.
  pose proof (euro_slash_mois (lower snippet)) as H.
  destruct (contains (u "par mois") (lower snippet)); [reflexivity|].
  destruct (contains (u "/mois") (lower snippet)); [reflexivity|].
  destruct (contains (u "€/mois") (lower snippet));
    [specialize (H eq_refl); discriminate|].
  cbn [orb].
  destruct (contains (u "mois") (lower snippet) && _); [reflexivity|].
  destruct (contains (u "par an") (lower snippet)); [reflexivity|].
  cbn [orb].
  destruct (contains (u "/an") (lower snippet)); [reflexivity|].
  cbn [orb].
  destruct (contains (u "annuel") (lower snippet)); reflexivity.
Qed.

End PeriodFacts.

(** C5 (as amended) -- The period detector lower-cases the snippet and
    checks the monthly markers first: it returns monthly if the snippet
    contains "par mois" or "/mois", or contains "mois" and not "par an";
    else annual if it contains "par an", "/an" or "annuel"; else unknown.
    It agrees with the detector of the specification (annual markers
    first) except on the snippets that hold an annual marker together
    with "par mois" or "/mois", or with "mois" and no "par an": those are
    classified monthly. *)
Theorem detect_period_monthly_markers_first (snippet : str) :
  let s := lower snippet in
  let annual_marker :=
    contains (u "par an") s || contains (u "/an") s
    || contains (u "annuel") s in
  let monthly_marker :=
    contains (u "par mois") s || contains (u "/mois") s
    || contains (u "mois") s && negb (contains (u "par an") s) in
  detect_period_from_snippet snippet
  = (if monthly_marker then Some Monthly
     else if annual_marker then Some Annual else None)
  /\ (detect_period_from_snippet snippet = Spec.detect_period snippet
      <-> annual_marker && monthly_marker = false).
Proof.
  cbv zeta. rewrite detect_period_monthly_first_eq.
  unfold Spec.detect_period_monthly_first, Spec.detect_period. cbv zeta.
  split; [reflexivity|].
  pose proof (par_mois_mois (lower snippet)) as H1.
  pose proof (slash_mois_mois (lower snippet)) as H2.
  destruct (contains (u "par mois") (lower snippet));
    destruct (contains (u "/mois") (lower snippet));
    destruct (contains (u "mois") (lower snippet));
    try (specialize (H1 eq_refl)); try (specialize (H2 eq_refl));
    try discriminate;
    destruct (contains (u "par an") (lower snippet));
    destruct (contains (u "/an") (lower snippet));
    destruct (contains (u "annuel") (lower snippet));
    cbn; split; intro; congruence.
Qed.

(** C5, the statement of the specification fails: a snippet with both
    "annuel" and "par mois" is classified monthly by the script, annual by
    the specification. *)
Lemma detect_period_annual_first_fails :
  let snippet := u "loyer annuel 9600 € soit 800 € par mois" in
  detect_period_from_snippet snippet = Some Monthly
  /\ Spec.detect_period snippet = Some Annual
  /\ detect_period_from_snippet snippet <> Spec.detect_period snippet.
Proof.
  cbv zeta. split; [vm_compute; reflexivity|].
  split; [vm_compute; reflexivity|].
  vm_compute. discriminate.
Qed.

(** ** The number normalizer *)

Section NormalizerFacts.

Local Open Scope nat_scope.

(** *** [replace] as a character-wise map *)

Lemma flat_map_flat_map (f g : char -> str) (s : str) :
  flat_map f (flat_map g s) = flat_map (fun x => flat_map f (g x)) s.
Proof.
  induction s as [|x s IH]; simpl; [reflexivity|].
  rewrite flat_map_app, IH. reflexivity.
Qed.

Lemma filter_flat_map (p : char -> bool) (s : str) :
  filter p s = flat_map (fun x => if p x then [x] else []) s.
Proof.
  induction s as [|x s IH]; simpl; [reflexivity|].
  rewrite IH. destruct (p x); reflexivity.
Qed.

Lemma flat_map_ext_Forall (f g : char -> str) (P : char -> Prop) (s : str) :
  Forall P s -> (forall x, P x -> f x = g x) -> flat_map f s = flat_map g s.
Proof.
  intros H E. induction H as [|x s Hx Hs IH]; simpl; [reflexivity|].
  rewrite IH, (E x Hx). reflexivity.
Qed.

(** *** [rfind] *)

Lemma rfind_at_bounds (c : char) (s : str) (i last : Z) :
  (last < i)%Z ->
  let r := rfind_at c s i last in
  (r = last \/ (i <= r < i + Z.of_nat (length s))%Z).
Proof.
  revert i last. induction s as [|x s IH]; intros i last H; cbn zeta.
  - left. reflexivity.
  - cbn [rfind_at length]. destruct (eqc x c).
    + specialize (IH (i + 1)%Z i ltac:(lia)). cbn zeta in IH.
      destruct IH as [-> | IH]; right; lia.
    + specialize (IH (i + 1)%Z last ltac:(lia)). cbn zeta in IH.
      destruct IH as [-> | IH]; [left; reflexivity | right; lia].
Qed.

(** The decomposition of a string at its last [c]. *)
Lemma rfind_at_split (c : char) (s : str) (i last : Z) :
  (last < i)%Z ->
  let r := rfind_at c s i last in
  if (r <? i)%Z then
    r = last /\ Forall (fun x => eqc x c = false) s
  else
    exists pre post,
      s = pre ++ c :: post /\ Z.of_nat (length pre) = (r - i)%Z
      /\ Forall (fun x => eqc x c = false) post.
Proof.
  revert i last. induction s as [|x s IH]; intros i last H; cbn zeta.
  - cbn [rfind_at]. destruct (last <? i)%Z eqn:L; [auto|].
    apply Z.ltb_ge in L. lia.
  - cbn [rfind_at]. destruct (eqc x c) eqn:E.
    + apply eqc_true in E. subst x.
      specialize (IH (i + 1)%Z i ltac:(lia)). cbn zeta in IH.
      pose proof (rfind_at_bounds c s (i + 1)%Z i ltac:(lia)) as B.
      cbn zeta in B.
      destruct (rfind_at c s (i + 1) i <? i + 1)%Z eqn:L1.
      * destruct IH as [-> Hall].
        rewrite Z.ltb_irrefl. exists [], s. repeat split; auto.
        simpl. lia.
      * apply Z.ltb_ge in L1.
        destruct (rfind_at c s (i + 1) i <? i)%Z eqn:L2;
          [apply Z.ltb_lt in L2; lia|].
        destruct IH as (pre & post & -> & Hl & Hall).
        exists (c :: pre), post. repeat split; auto.
        cbn [length]. lia.
    + specialize (IH (i + 1)%Z last ltac:(lia)). cbn zeta in IH.
      pose proof (rfind_at_bounds c s (i + 1)%Z last ltac:(lia)) as B.
      cbn zeta in B.
      destruct (rfind_at c s (i + 1) last <? i + 1)%Z eqn:L1.
      * destruct IH as [-> Hall].
        assert (L : (last <? i)%Z = true) by (apply Z.ltb_lt; lia).
        rewrite L. split; [reflexivity|]. constructor; assumption.
      * apply Z.ltb_ge in L1.
        destruct (rfind_at c s (i + 1) last <? i)%Z eqn:L2;
          [apply Z.ltb_lt in L2; lia|].
        destruct IH as (pre & post & -> & Hl & Hall).
        exists (x :: pre), post. repeat split; auto.
        cbn [length]. lia.
Qed.

Lemma rfind_absent (c : char) (s : str) :
  (rfind c s < 0)%Z -> Forall (fun x => eqc x c = false) s.
Proof.
  intro H. pose proof (rfind_at_split c s 0 (-1) ltac:(lia)) as S.
  cbn zeta in S. fold (rfind c s) in S.
  destruct (rfind c s <? 0)%Z eqn:L; [tauto|].
  apply Z.ltb_ge in L. lia.
Qed.

Lemma rfind_present (c : char) (s : str) :
  (0 <= rfind c s)%Z ->
  exists pre post,
    s = pre ++ c :: post /\ length pre = Z.to_nat (rfind c s)
    /\ Forall (fun x => eqc x c = false) post.
Proof.
  intro H. pose proof (rfind_at_split c s 0 (-1) ltac:(lia)) as S.
  cbn zeta in S. fold (rfind c s) in S.
  destruct (rfind c s <? 0)%Z eqn:L; [apply Z.ltb_lt in L; lia|].
  destruct S as (pre & post & E & Hl & Hall).
  exists pre, post. repeat split; auto. lia.
Qed.

Lemma rfind_ge_m1 (c : char) (s : str) : (-1 <= rfind c s)%Z.
Proof.
  pose proof (rfind_at_bounds c s 0 (-1) ltac:(lia)) as B. cbn zeta in B.
  fold (rfind c s) in B. lia.
Qed.

Lemma rfind_at_map (c : char) (f : char -> char) (s : str) (i last : Z) :
  (forall x, eqc (f x) c = eqc x c) ->
  rfind_at c (map f s) i last = rfind_at c s i last.
Proof.
  intro Hf. revert i last. induction s as [|x s IH]; intros i last; simpl;
    [reflexivity|].
  rewrite Hf, IH. reflexivity.
Qed.

Lemma count_digits_map (f : char -> char) (s : str) :
  (forall x, isdigit (f x) = isdigit x) ->
  count_digits (map f s) = count_digits s.
Proof.
  intro Hf. induction s as [|x s IH]; simpl; [reflexivity|].
  rewrite Hf, IH. reflexivity.
Qed.

Lemma contains_char (c : char) (s : str) :
  contains [c] s = (0 <=? rfind c s)%Z.
Proof.
  destruct (0 <=? rfind c s)%Z eqn:L.
  - apply Z.leb_le in L. apply rfind_present in L as (pre & post & E & _).
    apply contains_true. exists pre, post. exact E.
  - apply Z.leb_gt in L. apply rfind_absent in L.
    destruct (contains [c] s) eqn:C; [|reflexivity].
    apply contains_true in C as (pre & post & ->).
    apply Forall_app in L as [_ L]. inversion L as [|? ? Hc _]; subst.
    rewrite eqc_refl in Hc. discriminate.
Qed.

End NormalizerFacts.

Section NormalizerStrings.

Local Open Scope nat_scope.

Ltac char_case x c :=
  let E := fresh "E" in
  destruct (eqc x c) eqn:E;
  [apply eqc_true in E; subst x | ].

Ltac char_simp :=
  repeat (cbn;
          match goal with
          | H : eqc ?x ?c = false |- context [eqc ?x ?c] => rewrite H
          end);
  cbn; try reflexivity.

Ltac char_cases x :=
  char_case x NBSP; [try reflexivity; try discriminate|];
  char_case x SPACE; [try reflexivity; try discriminate|];
  char_case x COMMA; [try reflexivity; try discriminate|];
  char_case x DOT; [try reflexivity; try discriminate|].

Lemma ungroup_flat (s : str) :
  Spec.ungroup s
  = flat_map (fun x => if Spec.is_grouping x then [] else [x]) s.
Proof.
  unfold Spec.ungroup. rewrite filter_flat_map.
  apply flat_map_ext. intro x. destruct (Spec.is_grouping x); reflexivity.
Qed.

Lemma no_decimal_ungroup (s : str) : no_decimal s = Spec.ungroup s.
Proof.
  unfold no_decimal, replace. rewrite !flat_map_flat_map, ungroup_flat.
  apply flat_map_ext. intro x. unfold Spec.is_grouping, Spec.is_sep.
  char_cases x. char_simp.
Qed.

Lemma comma_decimal_ungroup (s : str) :
  Forall (fun x => eqc x COMMA = false) s -> comma_decimal s = Spec.ungroup s.
Proof.
  intro H. unfold comma_decimal, replace.
  rewrite !flat_map_flat_map, ungroup_flat.
  apply (flat_map_ext_Forall _ _ _ _ H). intros x Hx.
  unfold Spec.is_grouping, Spec.is_sep. rewrite Hx.
  char_case x NBSP; [reflexivity|].
  char_case x SPACE; [reflexivity|].
  char_case x DOT; [reflexivity|].
  char_simp.
Qed.

Lemma dot_decimal_ungroup (s : str) :
  Forall (fun x => eqc x DOT = false) s -> dot_decimal s = Spec.ungroup s.
Proof.
  intro H. unfold dot_decimal, replace.
  rewrite !flat_map_flat_map, ungroup_flat.
  apply (flat_map_ext_Forall _ _ _ _ H). intros x Hx.
  unfold Spec.is_grouping, Spec.is_sep. rewrite Hx.
  char_case x NBSP; [reflexivity|].
  char_case x SPACE; [reflexivity|].
  char_case x COMMA; [reflexivity|].
  char_simp.
Qed.

Lemma no_separator_ungroup (s : str) :
  Forall (fun x => eqc x COMMA = false) s ->
  Forall (fun x => eqc x DOT = false) s ->
  no_separator s = Spec.ungroup s.
Proof.
  intros Hc Hd. unfold no_separator, replace.
  rewrite !flat_map_flat_map, ungroup_flat.
  assert (H : Forall (fun x => eqc x COMMA = false /\ eqc x DOT = false) s).
  { rewrite Forall_forall in *. auto. }
  apply (flat_map_ext_Forall _ _ _ _ H). intros x [Hx1 Hx2].
  unfold Spec.is_grouping, Spec.is_sep. rewrite Hx1, Hx2.
  char_case x NBSP; [reflexivity|].
  char_case x SPACE; [reflexivity|].
  char_simp.
Qed.

Lemma comma_decimal_app (a b : str) :
  comma_decimal (a ++ COMMA :: b)
  = comma_decimal a ++ DOT :: comma_decimal b.
Proof.
  unfold comma_decimal, replace. rewrite !flat_map_flat_map.
  rewrite flat_map_app. reflexivity.
Qed.

Lemma dot_decimal_app (a b : str) :
  dot_decimal (a ++ DOT :: b) = dot_decimal a ++ DOT :: dot_decimal b.
Proof.
  unfold dot_decimal, replace. rewrite !flat_map_flat_map.
  rewrite flat_map_app. reflexivity.
Qed.

End NormalizerStrings.

Section NormalizerCore.

Local Open Scope nat_scope.

(** *** [float] rejects a string with two dots *)

Lemma ndots_app (a b : str) : ndots (a ++ b) = ndots a + ndots b.
Proof. unfold ndots. rewrite filter_app, length_app. reflexivity. Qed.

Lemma ndots_digits (s : str) :
  forallb is_ascii_digit s = true -> ndots s = 0.
Proof.
  induction s as [|c s IH]; [reflexivity|].
  cbn [forallb]. rewrite andb_true_iff. intros [Hc Hs].
  unfold ndots in *. cbn [filter].
  destruct (eqc c DOT) eqn:E; [|apply IH, Hs].
  apply eqc_true in E. subst c. discriminate.
Qed.

Lemma span_digits_spec (v ip r : str) :
  span_digits v = (ip, r) ->
  v = ip ++ r /\ forallb is_ascii_digit ip = true.
Proof.
  revert ip r. induction v as [|c v IH]; intros ip r; simpl.
  - intros [= <- <-]. auto.
  - destruct (is_ascii_digit c) eqn:D.
    + destruct (span_digits v) as [d r']. intros [= <- <-].
      destruct (IH d r' eq_refl) as [-> H]. simpl. rewrite D. auto.
    + intros [= <- <-]. auto.
Qed.

Lemma py_float_dots (v : str) (q : Q) : py_float v = Some q -> ndots v <= 1.
Proof.
  unfold py_float. destruct (span_digits v) as [ip r] eqn:S.
  apply span_digits_spec in S as [-> Hip].
  rewrite ndots_app, (ndots_digits _ Hip).
  destruct r as [|c fp]; [intros _; cbn; lia|].
  destruct (eqc c 46%N && forallb is_ascii_digit fp && _) eqn:C;
    [|discriminate].
  intros _. apply andb_true_iff in C as [C _].
  apply andb_true_iff in C as [_ C].
  change (c :: fp) with ([c] ++ fp). rewrite ndots_app, (ndots_digits _ C).
  unfold ndots. cbn. destruct (eqc c DOT); cbn; lia.
Qed.

Lemma py_float_two_dots (a b c : str) :
  py_float (a ++ DOT :: b ++ DOT :: c) = None.
Proof.
  destruct (py_float _) as [q|] eqn:E; [|reflexivity].
  apply py_float_dots in E.
  change (a ++ DOT :: b ++ DOT :: c)
    with (a ++ [DOT] ++ b ++ [DOT] ++ c) in E.
  rewrite !ndots_app in E. change (ndots [DOT]) with 1 in E. lia.
Qed.

(** *** What lies after the candidate separator *)

Lemma Forall_skipn_char (P : char -> Prop) (n : nat) (s : str) :
  Forall P s -> Forall P (skipn n s).
Proof.
  revert n. induction s as [|x s IH]; intros [|n] H; simpl; auto.
  inversion H; subst. apply IH. assumption.
Qed.

Lemma absent_after (c : char) (s : str) (p : nat) :
  (rfind c s < Z.of_nat p)%Z ->
  Forall (fun x => eqc x c = false) (skipn p s).
Proof.
  intro H. destruct (Z.ltb_spec (rfind c s) 0) as [L | L].
  - apply Forall_skipn_char, rfind_absent, L.
  - destruct (rfind_present _ _ L) as (pre & post & E & Hl & Hall).
    rewrite E at 1. rewrite skipn_app.
    rewrite skipn_all2 by lia. cbn [app].
    replace (p - length pre) with (S (p - length pre - 1)) by lia.
    cbn [skipn]. apply Forall_skipn_char, Hall.
Qed.

Lemma existsb_eqc_false (c : char) (s : str) :
  existsb (eqc c) s = false -> Forall (fun x => eqc x c = false) s.
Proof.
  induction s as [|x s IH]; cbn [existsb]; [constructor|].
  rewrite orb_false_iff. intros [H1 H2]. constructor; [|apply IH, H2].
  unfold eqc in *. rewrite N.eqb_sym. exact H1.
Qed.

Lemma existsb_eqc_true (c : char) (s : str) :
  existsb (eqc c) s = true -> exists a b, s = a ++ c :: b.
Proof.
  rewrite existsb_exists. intros (x & Hin & E).
  apply eqc_true in E. subst x. apply in_split, Hin.
Qed.

Lemma replace_nbsp_map (s : str) :
  replace NBSP [SPACE] s = map (fun x => if eqc x NBSP then SPACE else x) s.
Proof.
  unfold replace. induction s as [|x s IH]; simpl; [reflexivity|].
  rewrite IH. destruct (eqc x NBSP); reflexivity.
Qed.

Lemma rfind_nbsp (c : char) (s : str) :
  eqc SPACE c = false -> eqc NBSP c = false ->
  rfind c (replace NBSP [SPACE] s) = rfind c s.
Proof.
  intros H1 H2. rewrite replace_nbsp_map. unfold rfind.
  apply rfind_at_map. intro x.
  destruct (eqc x NBSP) eqn:E; [|reflexivity].
  apply eqc_true in E. subst x. congruence.
Qed.

Lemma digits_after_nbsp (s : str) (p : Z) :
  digits_after (replace NBSP [SPACE] s) p = digits_after s p.
Proof.
  unfold digits_after. rewrite replace_nbsp_map, skipn_map.
  apply count_digits_map. intro x.
  destruct (eqc x NBSP) eqn:E; [|reflexivity].
  apply eqc_true in E. subst x. reflexivity.
Qed.

(** [parse_amount] on the stripped input, by branch. *)
Lemma parse_amount_branches (raw : str) :
  parse_amount (Some raw) =
  let v := strip raw in
  let lc := rfind COMMA v in
  let ld := rfind DOT v in
  if ((0 <=? lc) || (0 <=? ld))%Z then
    if (ld <? lc)%Z then
      if (1 <=? digits_after v lc) && (digits_after v lc <=? 2)
      then py_float (comma_decimal v) else py_float (no_decimal v)
    else
      if (1 <=? digits_after v ld) && (digits_after v ld <=? 2)
      then py_float (dot_decimal v) else py_float (no_decimal v)
  else py_float (no_separator v).
Proof.
  unfold parse_amount. cbv zeta.
  rewrite !contains_char, !rfind_nbsp by reflexivity.
  rewrite !digits_after_nbsp.
  pose proof (rfind_ge_m1 COMMA (strip raw)) as Bc.
  pose proof (rfind_ge_m1 DOT (strip raw)) as Bd.
  destruct (0 <=? rfind COMMA (strip raw))%Z eqn:Lc;
    destruct (0 <=? rfind DOT (strip raw))%Z eqn:Ld; cbn [orb];
    try reflexivity;
    destruct (rfind DOT (strip raw) <? rfind COMMA (strip raw))%Z eqn:L;
    try reflexivity;
    try (destruct (_ && _); reflexivity);
    rewrite ?Z.leb_le, ?Z.leb_gt, ?Z.ltb_lt, ?Z.ltb_ge in *; lia.
Qed.

End NormalizerCore.

Section NormalizerRule.

Local Open Scope nat_scope.

Lemma split_at_length (pre post : str) (c : char) :
  firstn (length pre) (pre ++ c :: post) = pre
  /\ skipn (length pre + 1) (pre ++ c :: post) = post.
Proof.
  split.
  - rewrite firstn_app, Nat.sub_diag, firstn_all. cbn. apply app_nil_r.
  - rewrite skipn_app, skipn_all2 by lia.
    replace (length pre + 1 - length pre) with 1 by lia. reflexivity.
Qed.

(** The decimal branch of a separator [c] whose last occurrence is the
    candidate. *)
Lemma decimal_branch (decimal : str -> str) (c : char) (v : str) :
  (forall a b, decimal (a ++ c :: b) = decimal a ++ DOT :: decimal b) ->
  (forall s, Forall (fun x => eqc x c = false) s ->
             decimal s = Spec.ungroup s) ->
  (0 <= rfind c v)%Z ->
  let pos := Z.to_nat (rfind c v) in
  py_float (decimal v) =
  if existsb (eqc c) (firstn pos v) then None
  else py_float (Spec.ungroup (firstn pos v)
                 ++ DOT :: Spec.ungroup (skipn (pos + 1) v)).
Proof.
  intros Happ Hfree L. cbv zeta.
  destruct (rfind_present _ _ L) as (pre & post & E & Hl & Hall).
  rewrite <- Hl. clear Hl L. subst v.
  destruct (split_at_length pre post c) as [-> ->].
  rewrite Happ, (Hfree post Hall).
  destruct (existsb (eqc c) pre) eqn:X.
  - apply existsb_eqc_true in X as (a & b & ->).
    rewrite Happ, <- app_assoc. cbn [app]. apply py_float_two_dots.
  - apply existsb_eqc_false in X. rewrite (Hfree pre X). reflexivity.
Qed.

Lemma normalize_branches (v : str) :
  (let lc := rfind COMMA v in
   let ld := rfind DOT v in
   if ((0 <=? lc) || (0 <=? ld))%Z then
     if (ld <? lc)%Z then
       if (1 <=? digits_after v lc) && (digits_after v lc <=? 2)
       then py_float (comma_decimal v) else py_float (no_decimal v)
     else
       if (1 <=? digits_after v ld) && (digits_after v ld <=? 2)
       then py_float (dot_decimal v) else py_float (no_decimal v)
   else py_float (no_separator v))
  = if Spec.decimal_repeated v then None else Spec.normalize v.
Proof.
  cbv zeta. unfold Spec.decimal_repeated, Spec.candidate, Spec.normalize.
  cbv zeta.
  pose proof (rfind_ge_m1 COMMA v) as Bc.
  pose proof (rfind_ge_m1 DOT v) as Bd.
  destruct (Z.max (rfind COMMA v) (rfind DOT v) <? 0)%Z eqn:M.
  - apply Z.ltb_lt in M.
    assert (Lc : (0 <=? rfind COMMA v)%Z = false) by (apply Z.leb_gt; lia).
    assert (Ld : (0 <=? rfind DOT v)%Z = false) by (apply Z.leb_gt; lia).
    rewrite Lc, Ld. cbn [orb].
    rewrite no_separator_ungroup; [reflexivity | |];
      apply rfind_absent; lia.
  - apply Z.ltb_ge in M.
    assert (O : ((0 <=? rfind COMMA v) || (0 <=? rfind DOT v))%Z = true).
    { apply orb_true_iff. rewrite !Z.leb_le. lia. }
    rewrite O.
    destruct (rfind DOT v <? rfind COMMA v)%Z eqn:L.
    + apply Z.ltb_lt in L.
      replace (Z.max (rfind COMMA v) (rfind DOT v)) with (rfind COMMA v)
        by lia.
      rewrite Z2Nat.id by lia.
      destruct ((1 <=? digits_after v (rfind COMMA v))
                && (digits_after v (rfind COMMA v) <=? 2)).
      * cbn [andb].
        rewrite (decimal_branch comma_decimal COMMA v
                   comma_decimal_app comma_decimal_ungroup) by lia.
        destruct (existsb _ _); reflexivity.
      * cbn [andb]. rewrite no_decimal_ungroup. reflexivity.
    + apply Z.ltb_ge in L.
      replace (Z.max (rfind COMMA v) (rfind DOT v)) with (rfind DOT v)
        by lia.
      rewrite Z2Nat.id by lia.
      destruct ((1 <=? digits_after v (rfind DOT v))
                && (digits_after v (rfind DOT v) <=? 2)).
      * cbn [andb].
        rewrite (decimal_branch dot_decimal DOT v
                   dot_decimal_app dot_decimal_ungroup) by lia.
        destruct (existsb _ _); reflexivity.
      * cbn [andb]. rewrite no_decimal_ungroup. reflexivity.
Qed.

End NormalizerRule.

(** C7 (as amended) -- normalize("4 524,92") == 4524.92,
    normalize("3.125") == 3125.0, normalize("1234.56") == 1234.56 and
    normalize("12,5") == 12.5.  In general, on the stripped input, the
    rightmost occurrence of "," or "." is the decimal separator exactly
    when 1 or 2 digits follow it: the spaces and the occurrences of the
    other separator are removed as thousands grouping, and if the same
    separator character also occurs before it the normalization fails;
    when 0 or at least 3 digits follow it, all separators are removed and
    the value has no decimal part. *)
Theorem normalizer_rule :
  (parse_amount (Some (u "4 524,92")) = Some (Qred (452492 # 100))
   /\ parse_amount (Some (u "3.125")) = Some (Qred (3125 # 1))
   /\ parse_amount (Some (u "1234.56")) = Some (Qred (123456 # 100))
   /\ parse_amount (Some (u "12,5")) = Some (Qred (125 # 10)))
  /\ forall raw : str,
      parse_amount (Some raw)
      = if Spec.decimal_repeated (strip raw) then None
        else Spec.normalize (strip raw).
Proof.
  split.
  - repeat split; vm_compute; reflexivity.
  - intro raw. rewrite parse_amount_branches. cbv zeta.
    apply normalize_branches.
Qed.

(** C7, the statement of the specification fails: in "1,234,56" the last
    comma is followed by two digits; removing the other separators gives
    1234.56, but the script turns every comma into a dot and the
    conversion fails. *)
Lemma normalize_other_separators_fails :
  Spec.normalize (u "1,234,56") = Some (Qred (123456 # 100))
  /\ parse_amount (Some (u "1,234,56")) = None.
Proof.
  split; vm_compute; reflexivity.
Qed.

(** ** The keyword window locator *)

Section LocatorFacts.

Local Open Scope nat_scope.

Variables (text keyword : str) (strict : bool).

Lemma occurs_bound (j : nat) :
  Spec.occurs_at text keyword j -> j <= length (text_lower text).
Proof.
  unfold Spec.occurs_at. intro H. apply find_self in H. tauto.
Qed.

(** The loop invariant: no occurrence before [start] has an amount in its
    region. *)
Lemma near_keyword_loop_located (fuel start : nat) res :
  (forall j, j < start -> Spec.occurs_at text keyword j ->
             search AMOUNT_RE (Spec.search_region text keyword strict j)
             = None) ->
  near_keyword_loop text keyword strict fuel start = Some res ->
  Spec.located text keyword strict res.
Proof.
  revert start. induction fuel as [|fuel IH]; intros start Hpre;
    cbn [near_keyword_loop]; [discriminate|].
  destruct (find (keyword_lower keyword) (text_lower text) start)
    as [idx|] eqn:F.
  - pose proof (find_some _ _ _ _ F) as (F1 & F2 & F3 & F4).
    assert (Hocc : Spec.occurs_at text keyword idx)
      by (apply find_self; auto).
    assert (Hbefore :
              forall j, j < idx -> Spec.occurs_at text keyword j ->
                search AMOUNT_RE (Spec.search_region text keyword strict j)
                = None).
    { intros j Hj Oj. destruct (Nat.lt_ge_cases j start) as [L | L].
      - apply Hpre; assumption.
      - apply find_self in Oj as [_ Oj]. rewrite (F4 j L Hj) in Oj.
        discriminate. }
    cbv zeta.
    destruct (search AMOUNT_RE
                (from (len keyword) (search_snippet text keyword strict idx)))
      as [m|] eqn:S.
    + intros [= <-]. unfold Spec.located. cbn [fst snd].
      exists idx, m. auto.
    + apply IH. intros j Hj Oj.
      destruct (Nat.eq_dec j idx) as [-> | N]; [exact S|].
      apply Hbefore; [lia | exact Oj].
  - intros [= <-]. unfold Spec.located. cbn [fst snd].
    split; [reflexivity|]. intros j Oj.
    destruct (Nat.lt_ge_cases j start) as [L | L]; [apply Hpre; assumption|].
    pose proof (occurs_bound j Oj) as B.
    apply find_self in Oj as [_ Oj].
    rewrite (find_none _ _ _ F j L B) in Oj. discriminate.
Qed.

(** The loop ends before the fuel does. *)
Lemma near_keyword_loop_total (fuel start : nat) :
  start <= length (text_lower text) + 1 ->
  length (text_lower text) + 2 <= fuel + start ->
  near_keyword_loop text keyword strict fuel start <> None.
Proof.
  revert start. induction fuel as [|fuel IH]; intros start B H;
    cbn [near_keyword_loop]; [simpl in H; lia|].
  destruct (find (keyword_lower keyword) (text_lower text) start)
    as [idx|] eqn:F; [|discriminate].
  cbv zeta. destruct (search AMOUNT_RE _); [discriminate|].
  apply find_some in F as (F1 & F2 & _). apply IH; lia.
Qed.

Lemma parse_amounts_near_keyword_located :
  Spec.located text keyword strict (parse_amounts_near_keyword text keyword strict).
Proof.
  unfold parse_amounts_near_keyword.
  destruct (near_keyword_loop text keyword strict (len (text_lower text) + 2) 0) as [res|] eqn:E.
  - apply (near_keyword_loop_located (len (text_lower text) + 2) 0 res);
      [|exact E]. intros j Hj. lia.
  - exfalso. revert E. apply near_keyword_loop_total; unfold len; lia.
Qed.

End LocatorFacts.

Section RegionFacts.

Local Open Scope nat_scope.

Lemma from_slice (k a b : nat) (s : str) :
  from k (slice a b s) = slice (a + k) b s.
Proof.
  unfold from, slice. rewrite skipn_firstn_comm, skipn_skipn.
  f_equal; [lia | f_equal; lia].
Qed.

Lemma search_region_strict (text keyword : str) (idx : nat) :
  Spec.search_region text keyword true idx
  = slice (idx + len keyword) (Nat.min (len text) (idx + len keyword + 50))
          text.
Proof.
  unfold Spec.search_region, search_snippet. cbv zeta. apply from_slice.
Qed.

Lemma search_region_lenient (text keyword : str) (idx : nat) :
  Spec.search_region text keyword false idx
  = slice (idx - 300 + len keyword) (Nat.min (len text) (idx + 300)) text.
Proof.
  unfold Spec.search_region, search_snippet. cbv zeta.
  change (Nat.max 0 (idx - 300)) with (idx - 300). apply from_slice.
Qed.

Lemma taxe_occurrence (text : str) (j : nat) :
  Spec.occurs_at text KW_TAXE_FONCIERE j -> Spec.occurs_at text KW_TAXE_FONCI j.
Proof.
  unfold Spec.occurs_at. rewrite !find_self. intros [B H]. split; [exact B|].
  apply (startswith_prefix _ (u "ère")). exact H.
Qed.

End RegionFacts.

(** C8 -- Where the search for the amount starts.  With strict=true the
    searched region is the text just past the keyword occurrence, to 50
    characters past it.  With strict=false the snippet runs from 300
    characters before the occurrence to 300 after it, and the searched
    region starts len(keyword) characters after the start of the snippet,
    not after the keyword: in "vente 999 € prix 100 €" the search for
    "prix" returns 999, while the amount just past the keyword is 100. *)
Theorem lenient_search_region_misplaced :
  (forall text keyword idx,
      Spec.search_region text keyword true idx
      = Spec.region_after_keyword text keyword true idx)
  /\ (forall text keyword idx,
         Spec.search_region text keyword false idx
         = slice (idx - 300 + len keyword) (Nat.min (len text) (idx + 300))
                 text)
  /\ (let text := u "vente 999 € prix 100 €" in
      let keyword := u "prix" in
      find (keyword_lower keyword) (text_lower text) 0 = Some 12%nat
      /\ find (keyword_lower keyword) (text_lower text) 13 = None
      /\ parse_amounts_near_keyword text keyword false
         = (Some 999%Q, Some text)
      /\ Spec.search_region text keyword false 12 = u "e 999 € prix 100 €"
      /\ Spec.region_after_keyword text keyword false 12 = u " 100 €"
      /\ option_map (fun m => parse_amount (group1 m))
                    (search AMOUNT_RE (u " 100 €")) = Some (Some 100%Q)).
Proof.
  split; [|split].
  - intros text keyword idx. rewrite search_region_strict. reflexivity.
  - apply search_region_lenient.
  - cbv zeta. repeat split; vm_compute; reflexivity.
Qed.

(** C9 (as amended) -- The keyword-window search scans the occurrences
    left to right and stops at the first occurrence whose searched region
    holds an amount pattern: it returns the normalization of that match,
    absent when the normalization fails, together with the snippet of the
    occurrence, and does not go on to later occurrences; it returns
    (absent, absent) exactly when no occurrence has an amount pattern in
    its region. *)
Theorem near_keyword_first_amount_pattern (text keyword : str) (strict : bool) :
  let res := parse_amounts_near_keyword text keyword strict in
  match snd res with
  | Some snip =>
    exists idx m,
      Spec.occurs_at text keyword idx
      /\ (forall j, (j < idx)%nat -> Spec.occurs_at text keyword j ->
            search AMOUNT_RE (Spec.search_region text keyword strict j) = None)
      /\ search AMOUNT_RE (Spec.search_region text keyword strict idx) = Some m
      /\ fst res = parse_amount (group1 m)
      /\ snip = search_snippet text keyword strict idx
  | None =>
    fst res = None
    /\ forall j, Spec.occurs_at text keyword j ->
         search AMOUNT_RE (Spec.search_region text keyword strict j) = None
  end.
Proof.
  exact (parse_amounts_near_keyword_located text keyword strict).
Qed.

(** C9, the statement of the specification fails: the amount of the first
    occurrence of "taxe" does not normalize; the script returns no value
    there, the locator of the specification goes on to the second
    occurrence and returns 500. *)
Lemma locate_first_normalized_fails :
  let text := u "taxe 1,234,56 € taxe 500 €" in
  let keyword := u "taxe" in
  parse_amounts_near_keyword text keyword true = (None, Some text)
  /\ fst (Spec.locate text keyword true) = Some 500%Q
  /\ parse_amounts_near_keyword text keyword true
     <> Spec.locate text keyword true.
Proof.
  cbv zeta. split; [vm_compute; reflexivity|].
  split; [vm_compute; reflexivity|].
  vm_compute. discriminate.
Qed.

(** C10 (as amended) -- Every occurrence of "taxe foncière" is also an
    occurrence of "taxe fonci", but the two searches do not read the same
    window: the first reads characters 10 to 60 past the start of the
    occurrence, the fallback characters 13 to 63.  The fallback is only
    consulted when the first search returns no value, and removing it
    changes taxe_fonciere_annual only if the region of some occurrence of
    "taxe foncière" holds an amount that normalizes while the first search
    either stopped on an amount that does not normalize or found no amount
    pattern in the region of that occurrence. *)
Theorem taxe_fallback_effect (text : str) :
  (forall j, Spec.occurs_at text KW_TAXE_FONCIERE j ->
             Spec.occurs_at text KW_TAXE_FONCI j)
  /\ (forall j,
         Spec.search_region text KW_TAXE_FONCI true j
         = slice (j + 10) (Nat.min (len text) (j + 60)) text
         /\ Spec.search_region text KW_TAXE_FONCIERE true j
            = slice (j + 13) (Nat.min (len text) (j + 63)) text)
  /\ (fst (Spec.extract_taxe_without_fallback text) <> None ->
      extract_taxe text = Spec.extract_taxe_without_fallback text)
  /\ (taxe_annual_of (extract_taxe text)
      <> taxe_annual_of (Spec.extract_taxe_without_fallback text) ->
      fst (Spec.extract_taxe_without_fallback text) = None
      /\ exists idx m v,
          Spec.occurs_at text KW_TAXE_FONCIERE idx
          /\ search AMOUNT_RE (Spec.search_region text KW_TAXE_FONCIERE true idx)
             = Some m
          /\ parse_amount (group1 m) = Some v
          /\ fst (extract_taxe text) = Some v
          /\ (snd (Spec.extract_taxe_without_fallback text) = None ->
              search AMOUNT_RE (Spec.search_region text KW_TAXE_FONCI true idx)
              = None)).
Proof.
  split; [apply taxe_occurrence|].
  split.
  { intro j. rewrite !search_region_strict.
    change (len KW_TAXE_FONCI) with 10%nat.
    change (len KW_TAXE_FONCIERE) with 13%nat.
    replace (j + 10 + 50)%nat with (j + 60)%nat by lia.
    replace (j + 13 + 50)%nat with (j + 63)%nat by lia.
    split; reflexivity. }
  unfold extract_taxe, Spec.extract_taxe_without_fallback.
  pose proof (parse_amounts_near_keyword_located text KW_TAXE_FONCI true)
    as L1.
  pose proof (parse_amounts_near_keyword_located text KW_TAXE_FONCIERE true)
    as L2.
  destruct (parse_amounts_near_keyword text KW_TAXE_FONCI true)
    as [[t1|] s1]; cbn [fst snd].
  - split; [reflexivity|]. intro H. exfalso. apply H. reflexivity.
  - split; [intro H; exfalso; apply H; reflexivity|].
    intro H. split; [reflexivity|].
    destruct (parse_amounts_near_keyword text KW_TAXE_FONCIERE true)
      as [t2 s2].
    destruct t2 as [v|].
    2:{ exfalso. apply H. cbn. reflexivity. }
    unfold Spec.located in L2. cbn [fst snd] in L2.
    destruct s2 as [snip|]; [|destruct L2; discriminate].
    destruct L2 as (idx & m & O & _ & S & P & _).
    exists idx, m, v. repeat split; auto.
    intros ->. unfold Spec.located in L1. cbn [fst snd] in L1.
    destruct L1 as [_ L1]. apply L1, taxe_occurrence, O.
Qed.

(** The fallback at work: the amount ends one character past the window
    of the first search. *)
Lemma taxe_fallback_effect_witness :
  let text :=
    u "taxe foncière du bien (montant du dernier avis connu) : 900 €" in
  fst (Spec.extract_taxe_without_fallback text) = None
  /\ exists idx m v,
      Spec.occurs_at text KW_TAXE_FONCIERE idx
      /\ search AMOUNT_RE (Spec.search_region text KW_TAXE_FONCIERE true idx)
         = Some m
      /\ parse_amount (group1 m) = Some v
      /\ fst (extract_taxe text) = Some v
      /\ (snd (Spec.extract_taxe_without_fallback text) = None ->
          search AMOUNT_RE (Spec.search_region text KW_TAXE_FONCI true idx)
          = None).
Proof.
  cbv zeta.
  apply (taxe_fallback_effect
           (u "taxe foncière du bien (montant du dernier avis connu) : 900 €")).
  vm_compute. discriminate.
Defined.

(** C10, the statement of the specification fails: the amount lies
    within 50 characters of the end of "taxe foncière" but not of the end
    of "taxe fonci"; the first search finds nothing, the fallback finds
    900, and without the fallback the property tax is absent. *)
Lemma taxe_fallback_never_matters_fails :
  let text :=
    u "taxe foncière du bien (montant du dernier avis connu) : 900 €" in
  fst (Spec.extract_taxe_without_fallback text) = None
  /\ fst (extract_taxe text) = Some 900%Q
  /\ taxe_fonciere_annual (parse_ad_text [] [] None text) = Some 900%Q
  /\ taxe_annual_of (extract_taxe text)
     <> taxe_annual_of (Spec.extract_taxe_without_fallback text).
Proof.
  cbv zeta. repeat split; try (vm_compute; reflexivity).
  vm_compute. discriminate.
Qed.

(* ------------------------------------------------------------------ *)
(** * Further properties of the extraction *)

(** ** Rounding is monotone *)

Section RoundMono.

Local Open Scope Q_scope.

Lemma round_half_even_mono (x y : Q) :
  x <= y -> (round_half_even x <= round_half_even y)%Z.
Proof.
  intro H.
  pose proof (Qfloor_resp_le _ _ H) as F.
  pose proof (Qfloor_le x) as X1. pose proof (Qlt_floor x) as X2.
  pose proof (Qfloor_le y) as Y1. pose proof (Qlt_floor y) as Y2.
  unfold round_half_even.
  destruct (Z.eq_dec (Qfloor x) (Qfloor y)) as [E | N].
  - rewrite <- E in *.
    destruct (Qcompare (x - inject_Z (Qfloor x)) (1 # 2)) eqn:Cx;
      destruct (Qcompare (y - inject_Z (Qfloor x)) (1 # 2)) eqn:Cy;
      try (destruct (Z.even (Qfloor x))); try lia;
      rewrite <- ?Qeq_alt, <- ?Qlt_alt, <- ?Qgt_alt in *; lra.
  - assert (L : (Qfloor x + 1 <= Qfloor y)%Z) by lia.
    destruct (Qcompare (x - inject_Z (Qfloor x)) (1 # 2));
      destruct (Qcompare (y - inject_Z (Qfloor y)) (1 # 2));
      try (destruct (Z.even (Qfloor x))); try (destruct (Z.even (Qfloor y)));
      lia.
Qed.

Lemma round2_mono (x y : Q) : x <= y -> round2 x <= round2 y.
Proof.
  intro H. rewrite !round2_eq.
  assert (L : (round_half_even (x * 100) <= round_half_even (y * 100))%Z).
  { apply round_half_even_mono. lra. }
  rewrite Zle_Qle in L.
  apply Qle_shift_div_l; [lra|].
  unfold Qdiv. rewrite <- Qmult_assoc.
  setoid_replace (/ 100 * 100) with 1 by reflexivity.
  rewrite Qmult_1_r. exact L.
Qed.



End RoundMono.

(** ** The yields of the returned record *)

(** X1 -- gross_yield_pct and net_yield_pct are present together, and only
    in a record whose price, monthly_rent and annual_rent are present. *)
Theorem yields_present_together
        (url title : str) (ad_price : option Q) (text : str) :
  let r := parse_ad_text url title ad_price text in
  (gross_yield_pct r = None <-> net_yield_pct r = None)
  /\ (gross_yield_pct r <> None ->
      price r <> None /\ monthly_rent r <> None /\ annual_rent r <> None).
Proof.
  cbv zeta. rewrite parse_ad_text_unfold. cbv zeta.
  cbn [price monthly_rent annual_rent gross_yield_pct net_yield_pct].
  destruct (yield_block_case (extract_price ad_price text) (raw_vars text))
    as [p0 ar Ep Ea Np Na Hgt | p0 ar Ep Ea Np Na Hle | Hz].
  - cbn. split; [tauto|]. intro H. exfalso. apply H. reflexivity.
  - unfold raw_vars in Ea. cbn [v_annual_rent] in Ea.
    cbn [v_gross_yield v_net_yield v_monthly_rent v_annual_rent raw_vars].
    rewrite Ep.
    destruct (Rent.monthly_rent (Rent.extract text)); [|discriminate].
    cbn. split; [split; discriminate|]. intros _.
    repeat split; discriminate.
  - cbn. split; [tauto|]. intro H. exfalso. apply H. reflexivity.
Qed.

(** X2 -- In the returned record a monthly rent lies in [300, 3000] and an
    annual rent in [3600, 36000]. *)
Theorem record_rent_ranges
        (url title : str) (ad_price : option Q) (text : str) :
  let r := parse_ad_text url title ad_price text in
  (forall m, monthly_rent r = Some m -> (300 <= m /\ m <= 3000)%Q)
  /\ (forall a, annual_rent r = Some a -> (3600 <= a /\ a <= 36000)%Q).
Proof.
  cbv zeta. rewrite parse_ad_text_unfold. cbv zeta.
  cbn [monthly_rent annual_rent].
  assert (Hm : forall m0 m, rounded (Rent.monthly_rent (Rent.extract text))
                            = Some m -> m0 = m -> (300 <= m0 /\ m0 <= 3000)%Q).
  { intros m0 m H <-. apply rounded_some in H as (x & Ex & ->).
    apply rent_extract_range in Ex as [L U].
    split; [apply (round2_ge x 300), L | apply (round2_le x 3000), U]. }
  assert (Ha : forall a, rounded (v_annual_rent (raw_vars text)) = Some a ->
                         (3600 <= a /\ a <= 36000)%Q).
  { intros a H. apply rounded_some in H as (x & Ex & ->).
    apply raw_annual_rent_range in Ex as [L U].
    split; [apply (round2_ge x 3600), L | apply (round2_le x 36000), U]. }
  destruct (yield_block_case (extract_price ad_price text) (raw_vars text))
    as [p0 ar Ep Ea Np Na Hgt | p0 ar Ep Ea Np Na Hle | Hz].
  - cbn. split; intros ? H; discriminate.
  - cbn [v_monthly_rent v_annual_rent]. split.
    + intros m H. apply (Hm m m H eq_refl).
    + intros a H. apply Ha. rewrite Ea. exact H.
  - split; [intros m H; apply (Hm m m H eq_refl) | exact Ha].
Qed.

(** X3 -- When the price of the embedded JSON, if any, is non-negative,
    the net yield of a record never exceeds its gross yield. *)
Theorem net_yield_le_gross
        (url title : str) (ad_price : option Q) (text : str) (g n : Q) :
  Spec.nonneg_or_absent ad_price ->
  let r := parse_ad_text url title ad_price text in
  gross_yield_pct r = Some g -> net_yield_pct r = Some n -> (n <= g)%Q.
Proof.
  intros Had. cbv zeta. rewrite parse_ad_text_unfold. cbv zeta.
  cbn [gross_yield_pct net_yield_pct].
  pose proof (extract_price_nonneg ad_price text Had) as Hp.
  pose proof (monthly_charges_of_nonneg _ (extract_charges_nonneg text)) as Hc.
  pose proof (taxe_annual_of_nonneg _ (extract_taxe_nonneg text)) as Ht.
  pose proof (times12_nonneg _ Hc) as Hac.
  destruct (yield_block_case (extract_price ad_price text) (raw_vars text))
    as [p0 ar Ep Ea Np Na Hgt | p0 ar Ep Ea Np Na Hle | Hz];
    try (cbn; discriminate).
  cbn [v_gross_yield v_net_yield raw_vars v_annual_charges v_taxe_annual
       rounded option_map].
  intros Hg Hn.
  assert (Eg : g = round2 (fmul (fdiv ar p0) 100)) by congruence.
  remember (fmul (fdiv (fsub (fsub ar _) _) p0) 100) as net eqn:En.
  assert (E : n = round2 net) by congruence.
  rewrite Eg, E. apply round2_mono.
  rewrite En, !fmul_eq, !fdiv_eq, !fsub_eq.
  rewrite Ep in Hp. simpl in Hp.
  assert (Ppos : (0 < p0)%Q).
  { apply Qle_lteq in Hp as [L | Z]; [exact L|].
    exfalso. apply Np. symmetry. exact Z. }
  assert (Z1 : (0 <= or_zero
                       (option_map (fun m => fmul m 12)
                          (monthly_charges_of (extract_charges text))))%Q).
  { destruct (option_map _ _); simpl in *; [exact Hac | apply Qle_refl]. }
  assert (Z2 : (0 <= or_zero (taxe_annual_of (extract_taxe text)))%Q).
  { destruct (taxe_annual_of _); simpl in *; [exact Ht | apply Qle_refl]. }
  apply Qmult_le_compat_r; [|discriminate].
  unfold Qdiv. apply Qmult_le_compat_r; [lra|].
  apply Qlt_le_weak, Qinv_lt_0_compat, Ppos.
Qed.

(** A listing with charges and a property tax: 6.4 gross, 4.96 net. *)
Lemma net_yield_le_gross_witness :
  (Qred (496 # 100) <= Qred (64 # 10))%Q.
Proof.
  apply (net_yield_le_gross [] [] None
           (u "Prix de vente : 150 000 €. Loyer annuel : 9 600 €, charges 80 € par mois, taxe foncière : 1 200 € par an")).
  - exact I.
  - vm_compute. reflexivity.
  - vm_compute. reflexivity.
Defined.

(** X4 -- What analyze_property relies on: when the price and the monthly
    rent of the returned record are both truthy (present and not zero),
    gross_yield_pct and net_yield_pct are numbers, so that formatting and
    comparing them cannot fail on None. *)
Theorem truthy_price_and_rent_give_yields
        (url title : str) (ad_price : option Q) (text : str) :
  let r := parse_ad_text url title ad_price text in
  truthy (price r) = true -> truthy (monthly_rent r) = true ->
  exists g n, gross_yield_pct r = Some g /\ net_yield_pct r = Some n.
Proof.
  cbv zeta. rewrite parse_ad_text_unfold. cbv zeta.
  cbn [price monthly_rent gross_yield_pct net_yield_pct].
  destruct (yield_block_case (extract_price ad_price text) (raw_vars text))
    as [p0 ar Ep Ea Np Na Hgt | p0 ar Ep Ea Np Na Hle | Hz].
  - cbn. intros _ H. discriminate.
  - cbn. eauto.
  - intros Hp Hm. exfalso.
    destruct (extract_price ad_price text) as [p0|] eqn:Ep;
      [|discriminate].
    cbn [rounded option_map truthy] in Hp. apply nonzero_true in Hp.
    unfold raw_vars in Hm. cbn [v_monthly_rent] in Hm.
    destruct (v_annual_rent (raw_vars text)) as [ar|] eqn:Ea.
    + destruct (Hz p0 ar eq_refl eq_refl) as [Z | Z].
      * apply Hp, round2_zero, Z.
      * apply raw_annual_rent_range in Ea. lra.
    + unfold raw_vars in Ea. cbn [v_annual_rent] in Ea.
      destruct (Rent.monthly_rent (Rent.extract text)); discriminate.
Qed.

(** The scenario of the specification has a price and a rent. *)
Lemma truthy_price_and_rent_give_yields_witness :
  let r := parse_ad_text [] [] None
             (u "Prix de vente : 150 000 € Loyer annuel : 9 600 €") in
  exists g n, gross_yield_pct r = Some g /\ net_yield_pct r = Some n.
Proof.
  apply (truthy_price_and_rent_give_yields [] [] None
           (u "Prix de vente : 150 000 € Loyer annuel : 9 600 €"));
    vm_compute; reflexivity.
Defined.



(** ** The price fallback *)

Section PriceFallback.

Local Open Scope Q_scope.

Lemma max_amount_spec (l : list Q) (x : Q) :
  In (max_amount x l) (x :: l)
  /\ forall y, In y (x :: l) -> y <= max_amount x l.
Proof.
  unfold max_amount. revert x. induction l as [|b l IH]; intros x; simpl.
  - split; [auto|]. intros y [<- | []]. apply Qle_refl.
  - destruct (IH (if gtb b x then b else x)) as [I1 I2]. split.
    + destruct (gtb b x); simpl in I1; tauto.
    + intros y Hy.
      assert (Hx : x <= (if gtb b x then b else x)
                   /\ b <= (if gtb b x then b else x)).
      { destruct (gtb b x) eqn:G.
        - apply gtb_true in G. split; [lra | apply Qle_refl].
        - apply gtb_false in G. split; [apply Qle_refl | exact G]. }
      destruct Hy as [<- | [<- | Hy]].
      * eapply Qle_trans; [apply Hx | apply I2; left; reflexivity].
      * eapply Qle_trans; [apply Hx | apply I2; left; reflexivity].
      * apply I2. right. exact Hy.
Qed.

Lemma large_amounts_large (text : str) :
  Forall (fun y => 10000 < y) (large_amounts text).
Proof.
  unfold large_amounts. apply Forall_flat_map, Forall_forall. intros m _.
  destruct (parse_amount (group1 m)) as [val|]; [|constructor].
  destruct (nonzero val && gtb val 10000) eqn:E; [|constructor].
  apply andb_true_iff in E as [_ E]. apply gtb_true in E.
  constructor; [exact E | constructor].
Qed.

End PriceFallback.

(** X6 -- The price fallback.  Without a price in the embedded JSON and
    without a value from the three price keywords, the price is absent
    when the text holds no amount above 10 000, and otherwise it is one of
    the amounts of the text above 10 000 and no such amount exceeds it. *)
Theorem price_fallback_is_largest_amount (text : str) :
  price_keyword_loop text price_keywords None = None ->
  match extract_price None text with
  | Some p =>
    In p (large_amounts text) /\ (10000 < p)%Q
    /\ forall q, In q (large_amounts text) -> (q <= p)%Q
  | None => large_amounts text = []
  end.
Proof.
  intro H. unfold extract_price. rewrite H.
  pose proof (large_amounts_large text) as L.
  destruct (large_amounts text) as [|x l]; [reflexivity|].
  destruct (max_amount_spec l x) as [I1 I2].
  split; [exact I1|]. split; [|exact I2].
  rewrite Forall_forall in L. apply L, I1.
Qed.

(** A text without price keyword: the largest of its amounts is kept. *)
Lemma price_fallback_is_largest_amount_witness :
  In (Qred (152000 # 1)) (large_amounts (u "152 000 € ou 149 500 €, loyer 650 €"))
  /\ (10000 < Qred (152000 # 1))%Q.
Proof.
  pose proof (price_fallback_is_largest_amount
                (u "152 000 € ou 149 500 €, loyer 650 €")) as H.
  assert (E : extract_price None (u "152 000 € ou 149 500 €, loyer 650 €")
              = Some (Qred (152000 # 1))) by (vm_compute; reflexivity).
  rewrite E in H. destruct H as (H1 & H2 & _);
    [vm_compute; reflexivity|]. split; assumption.
Defined.

(** ** The keyword window locator, further *)

Section LocatorExtras.

Local Open Scope nat_scope.

Lemma occurs_contains (text keyword : str) (idx : nat) :
  Spec.occurs_at text keyword idx ->
  contains (keyword_lower keyword) (text_lower text) = true.
Proof.
  unfold Spec.occurs_at. intro H. apply find_self in H as [_ H].
  apply startswith_app in H as [post H].
  apply contains_true. exists (firstn idx (text_lower text)), post.
  rewrite <- H. symmetry. apply firstn_skipn.
Qed.

Lemma slice_length (a b : nat) (s : str) : length (slice a b s) <= b - a.
Proof. unfold slice. apply firstn_le_length. Qed.

Lemma search_snippet_length (text keyword : str) (strict : bool) (idx : nat) :
  length (search_snippet text keyword strict idx)
  <= if strict then len keyword + 50 else 600.
Proof.
  unfold search_snippet. destruct strict; cbv zeta.
  - eapply Nat.le_trans; [apply slice_length|]. lia.
  - eapply Nat.le_trans; [apply slice_length|].
    change (Nat.max 0 (idx - 300)) with (idx - 300). lia.
Qed.

Lemma near_keyword_loop_keyword (text k1 k2 : str) (strict : bool) :
  lower k1 = lower k2 -> len k1 = len k2 ->
  forall fuel start,
    near_keyword_loop text k1 strict fuel start
    = near_keyword_loop text k2 strict fuel start.
Proof.
  intros Hl Hn. induction fuel as [|fuel IH]; intro start; [reflexivity|].
  cbn [near_keyword_loop]. unfold keyword_lower, search_snippet.
  rewrite Hl, Hn.
  destruct (find (lower k2) (text_lower text) start) as [idx|];
    [|reflexivity].
  cbv zeta. destruct (search AMOUNT_RE _); [reflexivity | apply IH].
Qed.

End LocatorExtras.

(** X7 -- A keyword that does not occur in the text (case-insensitively)
    gives no amount and no snippet; in particular an empty text gives
    nothing for a non-empty keyword. *)
Theorem keyword_absent_gives_nothing (text keyword : str) (strict : bool) :
  contains (lower keyword) (lower text) = false ->
  parse_amounts_near_keyword text keyword strict = (None, None).
Proof.
  intro H.
  pose proof (parse_amounts_near_keyword_located text keyword strict) as L.
  destruct (parse_amounts_near_keyword text keyword strict) as [v s].
  unfold Spec.located in L. cbn [fst snd] in L. destruct s as [snip|].
  - destruct L as (idx & m & O & _). apply occurs_contains in O.
    unfold keyword_lower, text_lower in O. congruence.
  - destruct L as [-> _]. reflexivity.
Qed.

(** The keyword "taxe" in a text about the price only. *)
Lemma keyword_absent_gives_nothing_witness :
  parse_amounts_near_keyword (u "Prix de vente : 150 000 €") (u "taxe") true
  = (None, None).
Proof.
  apply keyword_absent_gives_nothing. vm_compute. reflexivity.
Defined.

(** X8 -- The search depends on the keyword only through its lower-cased
    form and its length: two keywords of the same length that differ in
    case give the same result on every text. *)
Theorem keyword_case_is_ignored (text k1 k2 : str) (strict : bool) :
  lower k1 = lower k2 -> len k1 = len k2 ->
  parse_amounts_near_keyword text k1 strict
  = parse_amounts_near_keyword text k2 strict.
Proof.
  intros Hl Hn. unfold parse_amounts_near_keyword.
  rewrite (near_keyword_loop_keyword text k1 k2 strict Hl Hn). reflexivity.
Qed.

(** "PRIX" and "prix". *)
Lemma keyword_case_is_ignored_witness :
  parse_amounts_near_keyword (u "Prix : 99 000 €") (u "PRIX") false
  = parse_amounts_near_keyword (u "Prix : 99 000 €") (u "prix") false.
Proof.
  apply keyword_case_is_ignored; vm_compute; reflexivity.
Defined.

(** X9 -- The snippet returned with a result is a slice of the original
    text (its case is kept) of bounded length: at most len(keyword) + 50
    characters with strict=true, at most 600 otherwise. *)
Theorem returned_snippet_is_bounded
        (text keyword : str) (strict : bool) (snip : str) :
  snd (parse_amounts_near_keyword text keyword strict) = Some snip ->
  (exists a b, snip = slice a b text)
  /\ (length snip <= if strict then len keyword + 50 else 600)%nat.
Proof.
  intro H.
  pose proof (parse_amounts_near_keyword_located text keyword strict) as L.
  unfold Spec.located in L. rewrite H in L.
  destruct L as (idx & m & _ & _ & _ & _ & ->). split.
  - unfold search_snippet. destruct strict; cbv zeta; eauto.
  - apply search_snippet_length.
Qed.

(** The snippet of a strict search for "charges". *)
Lemma returned_snippet_is_bounded_witness :
  (exists a b, u "charges 80 € par mois"
               = slice a b (u "Loyer 650 €, charges 80 € par mois"))
  /\ (length (u "charges 80 € par mois") <= len (u "charges") + 50)%nat.
Proof.
  apply (returned_snippet_is_bounded
           (u "Loyer 650 €, charges 80 € par mois") (u "charges") true).
  vm_compute. reflexivity.
Defined.

(** X10 -- Whatever the text, the amount captured by a pattern of the
    script (the amount pattern, the six rent patterns, the two charges
    patterns) is made of ASCII digits, spaces, no-break spaces, commas and
    dots only: [parse_amount] never receives a sign, a letter or an
    exponent from them. *)
Theorem captured_amounts_are_amount_strings
        (r : regex) (text : str) (m : rmatch_obj) (g : str) :
  In r script_patterns -> search r text = Some m -> group1 m = Some g ->
  Forall (fun c => amount_char c = true) g.
Proof.
  intros Hin Hs Hg.
  pose proof (captured_amount_chars r text m Hin Hs) as C.
  rewrite Hg in C. exact C.
Qed.

(** The annual rent pattern on the scenario of the specification. *)
Lemma captured_amounts_are_amount_strings_witness :
  Forall (fun c => amount_char c = true) (u "9 600").
Proof.
  apply (captured_amounts_are_amount_strings RENT_RE1
           (u "Loyer annuel : 9 600 €")
           {| m_start := 0; m_end := 22; group1 := Some (u "9 600") |}).
  - right. left. reflexivity.
  - vm_compute. reflexivity.
  - reflexivity.
Defined.

(** ** Spaces and no-break spaces in amounts *)

Section SpaceKinds.

Local Open Scope nat_scope.

Lemma lstrip_map (f : char -> char) (s : str) :
  (forall x, isspace (f x) = isspace x) ->
  lstrip (map f s) = map f (lstrip s).
Proof.
  intro Hf. induction s as [|x s IH]; [reflexivity|].
  cbn [map lstrip]. rewrite Hf. destruct (isspace x); [exact IH | reflexivity].
Qed.

Lemma strip_map (f : char -> char) (s : str) :
  (forall x, isspace (f x) = isspace x) ->
  strip (map f s) = map f (strip s).
Proof.
  intro Hf. unfold strip.
  rewrite (lstrip_map f s Hf), <- map_rev, (lstrip_map f _ Hf), map_rev.
  reflexivity.
Qed.

Lemma to_space_isspace x : isspace (to_space x) = isspace x.
Proof.
  unfold to_space. destruct (eqc x NBSP) eqn:E; [|reflexivity].
  apply eqc_true in E. subst x. reflexivity.
Qed.

Lemma to_nbsp_isspace x : isspace (to_nbsp x) = isspace x.
Proof.
  unfold to_nbsp. destruct (eqc x SPACE) eqn:E; [|reflexivity].
  apply eqc_true in E. subst x. reflexivity.
Qed.

Lemma to_space_to_space x : to_space (to_space x) = to_space x.
Proof.
  unfold to_space. destruct (eqc x NBSP) eqn:E; [reflexivity|].
  rewrite E. reflexivity.
Qed.

Lemma to_space_to_nbsp x : to_space (to_nbsp x) = to_space x.
Proof.
  unfold to_space, to_nbsp. destruct (eqc x SPACE) eqn:E.
  - apply eqc_true in E. subst x. reflexivity.
  - reflexivity.
Qed.

(** [parse_amount] only sees its input after no-break spaces have become
    spaces. *)
Lemma parse_amount_space_map (f : char -> char) (raw : str) :
  (forall x, isspace (f x) = isspace x) ->
  (forall x, to_space (f x) = to_space x) ->
  parse_amount (Some (map f raw)) = parse_amount (Some raw).
Proof.
  intros Hs Hf. unfold parse_amount.
  rewrite (strip_map f raw Hs), !replace_nbsp_map, map_map.
  rewrite (map_ext (fun x => if eqc (f x) NBSP then SPACE else f x)
                   (fun x => if eqc x NBSP then SPACE else x) Hf).
  reflexivity.
Qed.

End SpaceKinds.

(** X11 -- Spaces and no-break spaces are interchangeable in an amount:
    replacing every no-break space by a space, or every space by a
    no-break space, does not change what [parse_amount] returns. *)
Theorem parse_amount_ignores_space_kind (raw : str) :
  parse_amount (Some (replace NBSP [SPACE] raw)) = parse_amount (Some raw)
  /\ parse_amount (Some (replace SPACE [NBSP] raw)) = parse_amount (Some raw).
Proof.
  split.
  - rewrite replace_nbsp_map.
    apply (parse_amount_space_map to_space raw to_space_isspace
                                  to_space_to_space).
  - assert (E : replace SPACE [NBSP] raw = map to_nbsp raw).
    { unfold replace, to_nbsp. induction raw as [|x s IH]; [reflexivity|].
      cbn [flat_map map]. rewrite IH. destruct (eqc x SPACE); reflexivity. }
    rewrite E.
    apply (parse_amount_space_map to_nbsp raw to_nbsp_isspace
                                  to_space_to_nbsp).
Qed.

(** ** The list of ad URLs *)

Section UrlListFacts.

Local Open Scope nat_scope.

Import UrlList.

Lemma str_eqb_eq (a b : str) : str_eqb a b = true <-> a = b.
Proof.
  revert b. induction a as [|x a IH]; intros [|y b]; simpl;
    try (split; [discriminate | intro H; discriminate H]).
  - tauto.
  - rewrite andb_true_iff, eqc_true, IH. split.
    + intros [-> ->]. reflexivity.
    + intros [= -> ->]. auto.
Qed.

Lemma str_eqb_refl (a : str) : str_eqb a a = true.
Proof. apply str_eqb_eq. reflexivity. Qed.

Lemma str_eqb_neq (a b : str) : str_eqb a b = false <-> a <> b.
Proof.
  destruct (str_eqb a b) eqn:E.
  - apply str_eqb_eq in E. split; [discriminate | tauto].
  - split; [|reflexivity]. intros _ H. apply str_eqb_eq in H. congruence.
Qed.

Lemma str_mem_In (x : str) (l : list str) : str_mem x l = true <-> In x l.
Proof.
  unfold str_mem. rewrite existsb_exists. split.
  - intros (y & Hy & E). apply str_eqb_eq in E. subst. exact Hy.
  - intro H. exists x. split; [exact H | apply str_eqb_refl].
Qed.

Lemma filter_twice (f g : str -> bool) (l : list str) :
  filter f (filter g l) = filter (fun x => f x && g x) l.
Proof.
  induction l as [|x l IH]; [reflexivity|]. cbn [filter].
  destruct (g x); cbn [filter]; rewrite IH, ?andb_true_r, ?andb_false_r;
    destruct (f x); reflexivity.
Qed.

(** The loop invariant: [seen] holds the elements of the output, which is
    the input so far with later copies removed. *)
Lemma dedupe_fold (l : list str) (seen out : list str) :
  (forall x, In x seen <-> In x out) ->
  let r := fold_left dedupe_step l (seen, out) in
  (forall x, In x (fst r) <-> In x (snd r))
  /\ snd r
     = out ++ filter (fun y => negb (str_mem y out)) (first_occurrences l).
Proof.
  revert seen out. induction l as [|a l IH]; intros seen out Hs; cbn zeta.
  - simpl. rewrite app_nil_r. auto.
  - cbn [fold_left dedupe_step first_occurrences filter].
    destruct (str_mem a seen) eqn:M.
    + destruct (IH seen out Hs) as [I1 I2]. split; [exact I1|].
      rewrite I2. f_equal.
      assert (Mo : str_mem a out = true).
      { apply str_mem_In, Hs, str_mem_In, M. }
      rewrite Mo. cbn [negb]. rewrite filter_twice.
      apply filter_ext_in. intros y Hy.
      destruct (str_mem y out) eqn:My; [reflexivity|]. cbn [negb andb].
      destruct (str_eqb y a) eqn:E; [|reflexivity].
      apply str_eqb_eq in E. subst y. congruence.
    + assert (Hs' : forall x, In x (a :: seen) <-> In x (out ++ [a])).
      { intro x. rewrite in_app_iff. simpl. rewrite Hs. tauto. }
      destruct (IH (a :: seen) (out ++ [a]) Hs') as [I1 I2].
      split; [exact I1|]. rewrite I2, <- app_assoc. f_equal.
      assert (Mo : str_mem a out = false).
      { destruct (str_mem a out) eqn:Mo; [|reflexivity].
        apply str_mem_In, Hs, str_mem_In in Mo. congruence. }
      rewrite Mo. cbn [negb app]. f_equal. rewrite filter_twice.
      apply filter_ext_in. intros y Hy.
      unfold str_mem. rewrite existsb_app. cbn [existsb].
      fold (str_mem y out). rewrite orb_false_r, negb_orb, andb_comm.
      reflexivity.
Qed.

Lemma dedupe_first_occurrences (l : list str) :
  dedupe l = first_occurrences l.
Proof.
  unfold dedupe.
  destruct (dedupe_fold l [] [] (fun x => iff_refl _)) as [_ E].
  cbn zeta in E. rewrite E. cbn [app].
  rewrite (filter_ext _ (fun _ => true)); [|reflexivity].
  clear E. induction (first_occurrences l) as [|x f IH]; [reflexivity|].
  cbn [filter]. rewrite IH. reflexivity.
Qed.

Lemma first_occurrences_In (l : list str) (x : str) :
  In x (first_occurrences l) <-> In x l.
Proof.
  induction l as [|a l IH]; [reflexivity|].
  cbn [first_occurrences In]. rewrite filter_In, IH, negb_true_iff.
  rewrite str_eqb_neq.
  destruct (list_eq_dec N.eq_dec a x) as [-> | N]; [tauto|].
  split; [tauto|]. intros [H | H]; [congruence|]. right. split; congruence.
Qed.

Lemma first_occurrences_NoDup (l : list str) : NoDup (first_occurrences l).
Proof.
  induction l as [|a l IH]; [constructor|].
  cbn [first_occurrences]. constructor.
  - rewrite filter_In, negb_true_iff, str_eqb_neq. tauto.
  - apply NoDup_filter, IH.
Qed.

Lemma first_occurrences_fixed (l : list str) :
  NoDup l -> first_occurrences l = l.
Proof.
  induction 1 as [|a l Ha Hl IH]; [reflexivity|].
  cbn [first_occurrences]. rewrite IH. f_equal.
  rewrite (filter_ext_in _ (fun _ => true)).
  - clear. induction l as [|x l IH]; [reflexivity|]. cbn. now rewrite IH.
  - intros y Hy. apply negb_true_iff, str_eqb_neq. congruence.
Qed.

Lemma prefix_slice_prefix (k : Z) (l : list str) :
  exists n, prefix_slice k l = firstn n l.
Proof. unfold prefix_slice. destruct (0 <=? k)%Z; eauto. Qed.

Lemma firstn_NoDup (n : nat) (l : list str) : NoDup l -> NoDup (firstn n l).
Proof.
  intro H. rewrite <- (firstn_skipn n l) in H.
  apply NoDup_app_remove_r in H. exact H.
Qed.

Lemma firstn_In (n : nat) (l : list str) (x : str) :
  In x (firstn n l) -> In x l.
Proof.
  intro H. rewrite <- (firstn_skipn n l). apply in_or_app. now left.
Qed.

Lemma dedupe_keeps_first_occurrences_aux (l : list str) :
  NoDup (dedupe l) /\ (forall x, In x (dedupe l) <-> In x l).
Proof.
  rewrite dedupe_first_occurrences.
  split; [apply first_occurrences_NoDup | apply first_occurrences_In].
Qed.

End UrlListFacts.

(** X12 -- The de-duplication loop of main and scan_leboncoin keeps
    exactly the first occurrence of every URL: the result has no
    duplicates, holds the same URLs as the input, starts with the first
    URL followed by the de-duplicated rest without it, and a list without
    duplicates is returned unchanged. *)
Theorem dedupe_keeps_first_occurrences (ad_urls : list str) :
  NoDup (UrlList.dedupe ad_urls)
  /\ (forall x, In x (UrlList.dedupe ad_urls) <-> In x ad_urls)
  /\ (forall x rest, ad_urls = x :: rest ->
        UrlList.dedupe ad_urls
        = x :: filter (fun y => negb (str_eqb y x)) (UrlList.dedupe rest))
  /\ (NoDup ad_urls -> UrlList.dedupe ad_urls = ad_urls)
  /\ UrlList.dedupe (UrlList.dedupe ad_urls) = UrlList.dedupe ad_urls.
Proof.
  rewrite !dedupe_first_occurrences.
  split; [apply first_occurrences_NoDup|].
  split; [apply first_occurrences_In|].
  split.
  { intros x rest ->. rewrite dedupe_first_occurrences. reflexivity. }
  split; [apply first_occurrences_fixed|].
  apply first_occurrences_fixed, first_occurrences_NoDup.
Qed.

(** X13 -- The list of ads main parses never holds a URL twice and holds
    only URLs that were found.  A positive max_ads keeps the first
    max_ads de-duplicated URLs; no max_ads, or max_ads = 0, keeps them
    all; a negative max_ads drops that many URLs from the end. *)
Theorem ads_to_parse_limited (max_ads : option Z) (ad_urls : list str) :
  let ads := UrlList.ads_to_parse max_ads ad_urls in
  NoDup ads
  /\ (forall x, In x ads -> In x ad_urls)
  /\ match max_ads with
     | None => ads = UrlList.dedupe ad_urls
     | Some k =>
       if (k =? 0)%Z then ads = UrlList.dedupe ad_urls
       else if (0 <? k)%Z then
         ads = firstn (Z.to_nat k) (UrlList.dedupe ad_urls)
         /\ length ads = Nat.min (Z.to_nat k) (length (UrlList.dedupe ad_urls))
       else
         ads = firstn (length (UrlList.dedupe ad_urls) - Z.to_nat (- k))
                      (UrlList.dedupe ad_urls)
     end.
Proof.
  cbv zeta. unfold UrlList.ads_to_parse.
  destruct (dedupe_keeps_first_occurrences_aux ad_urls) as [ND HIn].
  assert (P : exists n, UrlList.limit max_ads (UrlList.dedupe ad_urls)
                        = firstn n (UrlList.dedupe ad_urls)).
  { unfold UrlList.limit. destruct max_ads as [k|].
    - destruct (k =? 0)%Z; [|apply prefix_slice_prefix].
      exists (length (UrlList.dedupe ad_urls)). symmetry. apply firstn_all.
    - exists (length (UrlList.dedupe ad_urls)). symmetry. apply firstn_all. }
  destruct P as [n P]. split; [rewrite P; apply firstn_NoDup, ND|].
  split.
  { intros x Hx. rewrite P in Hx. apply HIn. eapply firstn_In, Hx. }
  unfold UrlList.limit. destruct max_ads as [k|]; [|reflexivity].
  destruct (k =? 0)%Z eqn:K0; [reflexivity|].
  apply Z.eqb_neq in K0. unfold UrlList.prefix_slice.
  destruct (0 <? k)%Z eqn:Kp.
  - apply Z.ltb_lt in Kp.
    replace (0 <=? k)%Z with true by (symmetry; apply Z.leb_le; lia).
    split; [reflexivity | apply length_firstn].
  - apply Z.ltb_ge in Kp.
    replace (0 <=? k)%Z with false by (symmetry; apply Z.leb_gt; lia).
    reflexivity.
Qed.

(** ** The property cache *)

Section DictFacts.

Import Cache.

Variable V : Type.

Lemma get_set_same (k : str) (v : V) (d : dict V) :
  get k (set k v d) = Some v.
Proof.
  induction d as [|[k' v'] d IH]; cbn [set get].
  - rewrite str_eqb_refl. reflexivity.
  - destruct (str_eqb k' k) eqn:E; cbn [get]; rewrite E; auto.
Qed.

Lemma get_set_other (k k0 : str) (v : V) (d : dict V) :
  k0 <> k -> get k0 (set k v d) = get k0 d.
Proof.
  intro N. induction d as [|[k' v'] d IH]; cbn [set get].
  - replace (str_eqb k k0) with false; [reflexivity|].
    symmetry. apply str_eqb_neq. congruence.
  - destruct (str_eqb k' k) eqn:E; cbn [get].
    + apply str_eqb_eq in E. subst k'.
      replace (str_eqb k k0) with false; [reflexivity|].
      symmetry. apply str_eqb_neq. congruence.
    + rewrite IH. reflexivity.
Qed.

Lemma get_del_same (k : str) (d : dict V) : get k (del k d) = None.
Proof.
  induction d as [|[k' v'] d IH]; cbn [del get]; [reflexivity|].
  destruct (str_eqb k' k) eqn:E; cbn [get]; [exact IH|].
  rewrite E. exact IH.
Qed.

Lemma get_del_other (k k0 : str) (d : dict V) :
  k0 <> k -> get k0 (del k d) = get k0 d.
Proof.
  intro N. induction d as [|[k' v'] d IH]; cbn [del get]; [reflexivity|].
  destruct (str_eqb k' k) eqn:E; cbn [get].
  - apply str_eqb_eq in E. subst k'.
    replace (str_eqb k k0) with false; [exact IH|].
    symmetry. apply str_eqb_neq. congruence.
  - rewrite IH. reflexivity.
Qed.

Lemma keys_set (k : str) (v : V) (d : dict V) :
  map fst (set k v d)
  = if has k d then map fst d else map fst d ++ [k].
Proof.
  unfold has. induction d as [|[k' v'] d IH]; cbn [set get map fst];
    [reflexivity|].
  destruct (str_eqb k' k) eqn:E; cbn [map fst]; [reflexivity|].
  rewrite IH. destruct (get k d); reflexivity.
Qed.

Lemma get_none_keys (k : str) (d : dict V) :
  get k d = None <-> ~ In k (map fst d).
Proof.
  induction d as [|[k' v'] d IH]; cbn [get map fst In]; [tauto|].
  destruct (str_eqb k' k) eqn:E.
  - apply str_eqb_eq in E. split; [discriminate | tauto].
  - apply str_eqb_neq in E. rewrite IH. tauto.
Qed.

Lemma set_well_formed (k : str) (v : V) (d : dict V) :
  well_formed d -> well_formed (set k v d).
Proof.
  unfold well_formed. rewrite keys_set. unfold has.
  destruct (get k d) eqn:G; [auto|]. intro H.
  apply get_none_keys in G.
  apply NoDup_app; [exact H | repeat constructor; simpl; tauto |].
  intros x Hx [<- | []]. exact (G Hx).
Qed.

Lemma keys_del (k : str) (d : dict V) :
  map fst (del k d) = filter (fun x => negb (str_eqb x k)) (map fst d).
Proof.
  induction d as [|[k' v'] d IH]; cbn [del map fst filter]; [reflexivity|].
  destruct (str_eqb k' k); cbn [negb map fst]; rewrite IH; reflexivity.
Qed.

Lemma del_well_formed (k : str) (d : dict V) :
  well_formed d -> well_formed (del k d).
Proof.
  unfold well_formed. rewrite keys_del. apply NoDup_filter.
Qed.

End DictFacts.

Section CacheFacts.

Import Cache.

Lemma field_keys_differ : ANALYSIS_AI <> USER_STATUS.
Proof. vm_compute. discriminate. Qed.

Lemma truthy_some (p : option property) :
  truthy p = true -> exists e c, p = Some (e :: c).
Proof.
  destruct p as [[|e c]|]; try discriminate. intros _. eauto.
Qed.

Lemma truthy_set (key : str) (value : pyval) (prop : property) :
  truthy (Some (set key value prop)) = true.
Proof.
  destruct prop as [|[k' v'] prop]; cbn [set]; [reflexivity|].
  destruct (str_eqb k' key); reflexivity.
Qed.

Lemma set_field_absent (key : str) (value : pyval) (url : str) (c : cache) :
  truthy (get_property url c) = false -> set_field key value url c = c.
Proof.
  unfold set_field. destruct (get_property url c) as [prop|]; [|reflexivity].
  intros ->. reflexivity.
Qed.

Lemma field_or_set_field (key : str) (d value : pyval) (url : str)
      (c : cache) :
  truthy (get_property url c) = true ->
  field_or key d url (set_field key value url c) = value.
Proof.
  intro T. unfold set_field. destruct (get_property url c) as [prop|] eqn:G;
    [|discriminate].
  rewrite T. unfold field_or, get_property. rewrite get_set_same.
  rewrite truthy_set, get_set_same. reflexivity.
Qed.

Lemma field_or_set_other_field (key key0 : str) (d value : pyval)
      (url : str) (c : cache) :
  key0 <> key ->
  field_or key0 d url (set_field key value url c) = field_or key0 d url c.
Proof.
  intro N. unfold set_field.
  destruct (get_property url c) as [prop|] eqn:G; [|reflexivity].
  destruct (truthy (Some prop)) eqn:T; [|reflexivity].
  unfold field_or, get_property. rewrite get_set_same.
  unfold get_property in G. rewrite G, truthy_set, T.
  rewrite get_set_other by exact N. reflexivity.
Qed.

Lemma get_property_set_field (key : str) (value : pyval) (url url0 : str)
      (c : cache) :
  url0 <> url ->
  get_property url0 (set_field key value url c) = get_property url0 c.
Proof.
  intro N. unfold set_field.
  destruct (get_property url c) as [prop|]; [|reflexivity].
  destruct (truthy (Some prop)); [|reflexivity].
  unfold get_property. apply get_set_other. exact N.
Qed.

End CacheFacts.

(** X14.  An analysis is stored only for a URL whose property is in the
    cache and is not an empty dict: [set_analysis] on any other URL leaves
    the whole cache as it was, so that [get_analysis] still answers [None]
    and [has_analysis] is still false. *)
Theorem set_analysis_needs_property (url : Str.str) (analysis : Cache.pyval)
        (c : Cache.cache) :
  Cache.truthy (Cache.get_property url c) = false ->
  Cache.set_analysis url analysis c = c
  /\ Cache.get_analysis url (Cache.set_analysis url analysis c) = Cache.VNone
  /\ Cache.has_analysis url (Cache.set_analysis url analysis c) = false.
Proof.
  intro T. unfold Cache.set_analysis.
  rewrite (set_field_absent _ _ _ _ T).
  split; [reflexivity|].
  unfold Cache.get_analysis, Cache.field_or, Cache.has_analysis.
  destruct (Cache.get_property url c) as [prop|]; [|split; reflexivity].
  rewrite T. split; reflexivity.
Qed.

Lemma set_analysis_needs_property_witness :
  Cache.set_analysis (u "https://www.leboncoin.fr/ad/1") (Cache.VStr (u "ok"))
                     [(u "https://www.leboncoin.fr/ad/1", [])]
  = [(u "https://www.leboncoin.fr/ad/1", [])]
  /\ Cache.get_analysis (u "https://www.leboncoin.fr/ad/1")
       (Cache.set_analysis (u "https://www.leboncoin.fr/ad/1")
          (Cache.VStr (u "ok")) [(u "https://www.leboncoin.fr/ad/1", [])])
     = Cache.VNone
  /\ Cache.has_analysis (u "https://www.leboncoin.fr/ad/1")
       (Cache.set_analysis (u "https://www.leboncoin.fr/ad/1")
          (Cache.VStr (u "ok")) [(u "https://www.leboncoin.fr/ad/1", [])])
     = false.
Proof.
  apply (set_analysis_needs_property
           (u "https://www.leboncoin.fr/ad/1") (Cache.VStr (u "ok"))
           [(u "https://www.leboncoin.fr/ad/1", [])]).
  vm_compute. reflexivity.
Defined.

(** X15.  For a URL whose property is in the cache (and not empty), an
    analysis stored by [set_analysis] is the one [get_analysis] gives
    back, [has_analysis] is true, the status of the property is what it
    was, and the property of every other URL is what it was. *)
Theorem analysis_round_trip (url : Str.str) (analysis : Cache.pyval)
        (c : Cache.cache) :
  Cache.truthy (Cache.get_property url c) = true ->
  Cache.get_analysis url (Cache.set_analysis url analysis c) = analysis
  /\ Cache.has_analysis url (Cache.set_analysis url analysis c) = true
  /\ Cache.get_status url (Cache.set_analysis url analysis c)
     = Cache.get_status url c
  /\ forall url0, url0 <> url ->
       Cache.get_property url0 (Cache.set_analysis url analysis c)
       = Cache.get_property url0 c.
Proof.
  intro T. split; [|split; [|split]].
  - apply field_or_set_field. exact T.
  - unfold Cache.set_analysis, Cache.set_field, Cache.has_analysis.
    destruct (Cache.get_property url c) as [prop|] eqn:G; [|discriminate].
    rewrite T. unfold Cache.get_property. rewrite get_set_same.
    rewrite truthy_set. unfold Cache.has. rewrite get_set_same. reflexivity.
  - apply field_or_set_other_field.
    intro E. apply field_keys_differ. symmetry. exact E.
  - intros url0 N. apply get_property_set_field. exact N.
Qed.

Lemma analysis_round_trip_witness :
  Cache.get_analysis (u "a")
    (Cache.set_analysis (u "a") (Cache.VStr (u "ok"))
       [(u "a", [(u "title", Cache.VStr (u "T2"));
                 (Cache.USER_STATUS, Cache.VStr (u "seen"))])])
  = Cache.VStr (u "ok").
Proof.
  apply (analysis_round_trip
           (u "a") (Cache.VStr (u "ok"))
           [(u "a", [(u "title", Cache.VStr (u "T2"));
                     (Cache.USER_STATUS, Cache.VStr (u "seen"))])]).
  vm_compute. reflexivity.
Defined.

(** X16.  The status written by [set_status] and the analysis written by
    [set_analysis] do not disturb each other: after both, in either order,
    [get_status] and [get_analysis] give the two values back. *)
Theorem status_and_analysis_independent (url : Str.str)
        (status analysis : Cache.pyval) (c : Cache.cache) :
  Cache.truthy (Cache.get_property url c) = true ->
  let c1 := Cache.set_status url status (Cache.set_analysis url analysis c) in
  let c2 := Cache.set_analysis url analysis (Cache.set_status url status c) in
  Cache.get_status url c1 = status /\ Cache.get_analysis url c1 = analysis
  /\ Cache.get_status url c2 = status /\ Cache.get_analysis url c2 = analysis.
Proof.
  intros T c1 c2. subst c1 c2.
  assert (K : forall key value,
             Cache.truthy
               (Cache.get_property url (Cache.set_field key value url c))
             = true).
  { intros key value. unfold Cache.set_field.
    destruct (Cache.get_property url c) as [prop|] eqn:G; [|discriminate].
    rewrite T. unfold Cache.get_property. rewrite get_set_same.
    apply truthy_set. }
  unfold Cache.get_status, Cache.get_analysis, Cache.set_status,
    Cache.set_analysis.
  split; [|split; [|split]].
  - apply field_or_set_field, K.
  - rewrite field_or_set_other_field by exact field_keys_differ.
    apply field_or_set_field, T.
  - rewrite field_or_set_other_field
      by (intro E; apply field_keys_differ; symmetry; exact E).
    apply field_or_set_field, T.
  - apply field_or_set_field, K.
Qed.

Lemma status_and_analysis_independent_witness :
  Cache.get_status (u "a")
    (Cache.set_status (u "a") (Cache.VStr (u "visited"))
       (Cache.set_analysis (u "a") (Cache.VStr (u "ok"))
          [(u "a", [(u "title", Cache.VStr (u "T2"))])]))
  = Cache.VStr (u "visited").
Proof.
  apply (status_and_analysis_independent
           (u "a") (Cache.VStr (u "visited")) (Cache.VStr (u "ok"))
           [(u "a", [(u "title", Cache.VStr (u "T2"))])]).
  vm_compute. reflexivity.
Defined.

(** X17.  [delete_property] answers [True] exactly when the URL was a key
    of the cache; afterwards the URL has no property and no analysis, and
    the property of every other URL is what it was. *)
Theorem delete_property_forgets (url : Str.str) (c : Cache.cache) :
  fst (Cache.delete_property url c) = Cache.has url c
  /\ Cache.get_property url (snd (Cache.delete_property url c)) = None
  /\ Cache.has_analysis url (snd (Cache.delete_property url c)) = false
  /\ forall url0, url0 <> url ->
       Cache.get_property url0 (snd (Cache.delete_property url c))
       = Cache.get_property url0 c.
Proof.
  assert (G : Cache.get_property url (snd (Cache.delete_property url c))
              = None).
  { unfold Cache.delete_property, Cache.get_property, Cache.has.
    destruct (Cache.get url c) eqn:E; cbn [snd]; [|exact E].
    apply get_del_same. }
  split; [|split; [|split]].
  - unfold Cache.delete_property. destruct (Cache.has url c); reflexivity.
  - exact G.
  - unfold Cache.has_analysis. rewrite G. reflexivity.
  - intros url0 N. unfold Cache.delete_property, Cache.get_property.
    destruct (Cache.has url c); cbn [snd]; [|reflexivity].
    apply get_del_other. exact N.
Qed.

(** ** [parse_properties] *)

Section ParseFacts.

Import Cache.

Variable parse_ad_page : str -> option property.

Lemma step_cases (st : run) (url : str) :
  (truthy (get_property url (data st)) = true
   /\ exists d, get_property url (data st) = Some d
      /\ step parse_ad_page st url
         = Run (data st) (properties st ++ [d]) (parsed st))
  \/ (truthy (get_property url (data st)) = false
      /\ exists d, parse_ad_page url = Some d
         /\ step parse_ad_page st url
            = Run (set_property url d (data st)) (properties st ++ [d])
                  (parsed st ++ [url]))
  \/ (truthy (get_property url (data st)) = false
      /\ parse_ad_page url = None
      /\ step parse_ad_page st url
         = Run (data st) (properties st) (parsed st ++ [url])).
Proof.
  unfold step.
  destruct (get_property url (data st)) as [[|e c]|] eqn:G.
  - destruct (parse_ad_page url) as [d|] eqn:P.
    + right. left. split; [reflexivity|]. exists d. split; reflexivity.
    + right. right. repeat split.
  - left. split; [reflexivity|]. exists (e :: c). split; reflexivity.
  - destruct (parse_ad_page url) as [d|] eqn:P.
    + right. left. split; [reflexivity|]. exists d. split; reflexivity.
    + right. right. repeat split.
Qed.

Lemma served_step (st : run) (url url0 : str) :
  served parse_ad_page (data (step parse_ad_page st url)) url0
  = served parse_ad_page (data st) url0.
Proof.
  destruct (step_cases st url)
    as [(T & d & G & ->) | [(T & d & P & ->) | (T & P & ->)]];
    cbn [data]; try reflexivity.
  unfold served, set_property, get_property.
  destruct (str_eqb url url0) eqn:E.
  - apply str_eqb_eq in E. subst url0. rewrite get_set_same.
    unfold get_property in T. rewrite T, P.
    destruct (truthy (Some d)); reflexivity.
  - apply str_eqb_neq in E. rewrite get_set_other by congruence.
    reflexivity.
Qed.

Lemma properties_step (st : run) (url : str) :
  properties (step parse_ad_page st url)
  = properties st ++ Cache.olist (served parse_ad_page (data st) url).
Proof.
  unfold served.
  destruct (step_cases st url)
    as [(T & d & G & ->) | [(T & d & P & ->) | (T & P & ->)]];
    cbn [properties]; rewrite T.
  - rewrite G. reflexivity.
  - rewrite P. reflexivity.
  - rewrite P. symmetry. apply app_nil_r.
Qed.

Lemma flat_map_served_ext (f g : str -> option property) (l : list str) :
  (forall url, In url l -> f url = g url) ->
  flat_map (fun url => Cache.olist (f url)) l
  = flat_map (fun url => Cache.olist (g url)) l.
Proof.
  induction l as [|x l IH]; intro H; cbn [flat_map]; [reflexivity|].
  rewrite (H x (or_introl eq_refl)), IH; [reflexivity|].
  intros url Hu. apply H. right. exact Hu.
Qed.

Lemma properties_fold (ad_urls : list str) (st : run) :
  properties (fold_left (step parse_ad_page) ad_urls st)
  = properties st
    ++ flat_map (fun url => Cache.olist (served parse_ad_page (data st) url))
                ad_urls.
Proof.
  revert st. induction ad_urls as [|url l IH]; intro st; cbn [fold_left flat_map].
  - symmetry. apply app_nil_r.
  - rewrite IH, properties_step, <- app_assoc. f_equal. f_equal.
    apply flat_map_ext. intro url0. rewrite served_step. reflexivity.
Qed.

(** The cache after the loop serves what the loop appended. *)
Lemma data_step (st : run) (url url0 : str) :
  get_property url0 (data (step parse_ad_page st url))
  = if str_eqb url url0 then
      match served parse_ad_page (data st) url with
      | Some d => Some d
      | None => get_property url0 (data st)
      end
    else get_property url0 (data st).
Proof.
  unfold served.
  destruct (step_cases st url)
    as [(T & d & G & ->) | [(T & d & P & ->) | (T & P & ->)]];
    cbn [data]; rewrite T.
  - destruct (str_eqb url url0) eqn:E; [|reflexivity].
    apply str_eqb_eq in E. subst url0. rewrite G. reflexivity.
  - rewrite P. unfold set_property, get_property.
    destruct (str_eqb url url0) eqn:E.
    + apply str_eqb_eq in E. subst url0. apply get_set_same.
    + apply str_eqb_neq in E. apply get_set_other. congruence.
  - rewrite P. destruct (str_eqb url url0); reflexivity.
Qed.

Lemma served_get (c : cache) (url : str) :
  served parse_ad_page c url = None -> truthy (get_property url c) = false.
Proof.
  unfold served. destruct (truthy (get_property url c)) eqn:T; [|reflexivity].
  intro G. rewrite G in T. discriminate.
Qed.

Lemma data_fold (ad_urls : list str) (st : run) (url0 : str) :
  get_property url0 (data (fold_left (step parse_ad_page) ad_urls st))
  = if str_mem url0 ad_urls then
      match served parse_ad_page (data st) url0 with
      | Some d => Some d
      | None => get_property url0 (data st)
      end
    else get_property url0 (data st).
Proof.
  revert st. induction ad_urls as [|url l IH]; intro st;
    cbn [fold_left str_mem existsb]; [reflexivity|].
  fold (str_mem url0 l). rewrite IH, served_step, data_step.
  destruct (str_eqb url0 url) eqn:E.
  - apply str_eqb_eq in E. subst url0. rewrite str_eqb_refl. cbn [orb].
    destruct (served parse_ad_page (data st) url) as [d|];
      destruct (str_mem url l); reflexivity.
  - replace (str_eqb url url0) with false.
    + cbn [orb]. reflexivity.
    + symmetry. apply str_eqb_neq. apply str_eqb_neq in E. congruence.
Qed.

Lemma parsed_step_uncached (st : run) (url url0 : str) :
  In url0 (parsed (step parse_ad_page st url)) ->
  In url0 (parsed st) \/ (url0 = url /\ truthy (get_property url (data st)) = false).
Proof.
  destruct (step_cases st url)
    as [(T & d & G & ->) | [(T & d & P & ->) | (T & P & ->)]];
    cbn [parsed]; try tauto;
    intro H; apply in_app_or in H; destruct H as [H | [<- | []]]; auto.
Qed.

Lemma truthy_kept (st : run) (url url0 : str) :
  truthy (get_property url0 (data st)) = true ->
  get_property url0 (data (step parse_ad_page st url))
  = get_property url0 (data st).
Proof.
  intro T0. rewrite data_step.
  destruct (str_eqb url url0) eqn:E; [|reflexivity].
  apply str_eqb_eq in E. subst url0. unfold served. rewrite T0.
  destruct (get_property url (data st)); [reflexivity | discriminate].
Qed.

Lemma parsed_fold_uncached (ad_urls : list str) (st : run) (url0 : str) :
  In url0 (parsed (fold_left (step parse_ad_page) ad_urls st)) ->
  In url0 (parsed st) \/ truthy (get_property url0 (data st)) = false.
Proof.
  revert st. induction ad_urls as [|url l IH]; intro st; cbn [fold_left];
    [tauto|].
  intro H. apply IH in H. destruct H as [H | H].
  - apply parsed_step_uncached in H.
    destruct H as [H | [-> T]]; [left | right]; assumption.
  - destruct (truthy (get_property url0 (data st))) eqn:T; [|tauto].
    rewrite (truthy_kept _ _ _ T) in H. congruence.
Qed.

(** With every URL of the list served by a non-empty property, the URLs
    parsed so far are cached and are parsed once. *)
Lemma parsed_fold_once (ad_urls : list str) (st : run) :
  (forall url, In url ad_urls ->
     truthy (served parse_ad_page (data st) url) = true) ->
  (forall url, In url (parsed st) ->
     truthy (get_property url (data st)) = true) ->
  NoDup (parsed st) ->
  NoDup (parsed (fold_left (step parse_ad_page) ad_urls st)).
Proof.
  revert st. induction ad_urls as [|url l IH]; intros st S C N;
    cbn [fold_left]; [exact N|].
  apply IH.
  - intros url0 H. rewrite served_step. apply S. right. exact H.
  - intros url0 H. apply parsed_step_uncached in H.
    destruct H as [H | [-> T]].
    + rewrite truthy_kept; apply C; exact H.
    + rewrite data_step, str_eqb_refl.
      specialize (S url (or_introl eq_refl)).
      destruct (served parse_ad_page (data st) url); [exact S | discriminate].
  - destruct (step_cases st url)
      as [(T & d & G & ->) | [(T & d & P & ->) | (T & P & ->)]];
      cbn [parsed]; [exact N | |];
      (apply NoDup_app; [exact N | repeat constructor; simpl; tauto |];
       intros x Hx [<- | []]; apply C in Hx; congruence).
Qed.

Lemma fold_all_cached (ad_urls : list str) (st : run) :
  (forall url, In url ad_urls ->
     truthy (get_property url (data st)) = true) ->
  data (fold_left (step parse_ad_page) ad_urls st) = data st
  /\ parsed (fold_left (step parse_ad_page) ad_urls st) = parsed st.
Proof.
  revert st. induction ad_urls as [|url l IH]; intros st C; cbn [fold_left];
    [split; reflexivity|].
  assert (E : data (step parse_ad_page st url) = data st
              /\ parsed (step parse_ad_page st url) = parsed st).
  { destruct (step_cases st url)
      as [(T & d & G & ->) | [(T & d & P & ->) | (T & P & ->)]];
      cbn [data parsed]; try (split; reflexivity);
      rewrite (C url (or_introl eq_refl)) in T; discriminate. }
  destruct E as [E1 E2].
  destruct (IH (step parse_ad_page st url)) as [I1 I2].
  - intros url0 H. rewrite E1. apply C. right. exact H.
  - rewrite I1, I2. split; assumption.
Qed.

End ParseFacts.

(** X18.  The list [parse_properties] returns is, in the order of the
    URLs and with their repetitions, the property each URL is served by:
    the cached one when the cache had a non-empty property for the URL at
    the start, else the one [parse_ad_page] returns; a URL whose parse
    raises contributes nothing.  A property stored on the way never changes
    what a later URL is served by. *)
Theorem parse_properties_result
        (parse_ad_page : Str.str -> option Cache.property)
        (ad_urls : list Str.str) (cache0 : Cache.cache) :
  Cache.properties (Cache.parse_properties parse_ad_page ad_urls cache0)
  = flat_map (fun url => Cache.olist (Cache.served parse_ad_page cache0 url))
             ad_urls.
Proof.
  unfold Cache.parse_properties. rewrite properties_fold. reflexivity.
Qed.

(** X19.  After [parse_properties] the cache holds, for each URL of the
    list that was served by a property, that property; every other URL
    has the property it had before (or none). *)
Theorem parse_properties_cache
        (parse_ad_page : Str.str -> option Cache.property)
        (ad_urls : list Str.str) (cache0 : Cache.cache) (url : Str.str) :
  Cache.get_property url
    (Cache.data (Cache.parse_properties parse_ad_page ad_urls cache0))
  = if str_mem url ad_urls then
      match Cache.served parse_ad_page cache0 url with
      | Some d => Some d
      | None => Cache.get_property url cache0
      end
    else Cache.get_property url cache0.
Proof.
  unfold Cache.parse_properties. rewrite data_fold. reflexivity.
Qed.

(** X20.  [parse_ad_page] is never called on a URL for which the cache
    had a non-empty property when [parse_properties] started. *)
Theorem cached_urls_not_parsed
        (parse_ad_page : Str.str -> option Cache.property)
        (ad_urls : list Str.str) (cache0 : Cache.cache) (url : Str.str) :
  In url (Cache.parsed (Cache.parse_properties parse_ad_page ad_urls cache0)) ->
  Cache.truthy (Cache.get_property url cache0) = false.
Proof.
  unfold Cache.parse_properties. intro H.
  apply parsed_fold_uncached in H. destruct H as [[] | H]. exact H.
Qed.

Lemma cached_urls_not_parsed_witness :
  Cache.truthy (Cache.get_property (u "b")
                  [(u "a", [(u "title", Cache.VStr (u "T2"))])]) = false.
Proof.
  apply (cached_urls_not_parsed
           (fun url => Some [(u "url", Cache.VStr url)])
           [u "a"; u "b"; u "a"]
           [(u "a", [(u "title", Cache.VStr (u "T2"))])]
           (u "b")).
  vm_compute. left. reflexivity.
Defined.

(** X21.  When every URL of the list is served by a non-empty property
    (the cache has one, or [parse_ad_page] returns one), no URL is parsed
    twice, however often it occurs in the list. *)
Theorem each_url_parsed_once
        (parse_ad_page : Str.str -> option Cache.property)
        (ad_urls : list Str.str) (cache0 : Cache.cache) :
  (forall url, In url ad_urls ->
     Cache.truthy (Cache.served parse_ad_page cache0 url) = true) ->
  NoDup (Cache.parsed (Cache.parse_properties parse_ad_page ad_urls cache0)).
Proof.
  intro S. unfold Cache.parse_properties. apply parsed_fold_once.
  - exact S.
  - intros url [].
  - constructor.
Qed.

Lemma each_url_parsed_once_witness :
  NoDup (Cache.parsed
           (Cache.parse_properties
              (fun url => Some [(u "url", Cache.VStr url)])
              [u "a"; u "b"; u "a"; u "b"]
              [(u "a", [])])).
Proof.
  apply (each_url_parsed_once
           (fun url => Some [(u "url", Cache.VStr url)])
           [u "a"; u "b"; u "a"; u "b"]
           [(u "a", [])]).
  intros url _. unfold Cache.served.
  destruct (Cache.truthy (Cache.get_property url [(u "a", [])])) eqn:T;
    [exact T | reflexivity].
Defined.

(** X22.  A second run of [parse_properties] on the same URLs, started
    from the cache the first run left and with every URL served by a
    non-empty property, calls [parse_ad_page] on nothing, leaves the cache
    as it is and returns the list the first run returned. *)
Theorem second_run_parses_nothing
        (parse_ad_page : Str.str -> option Cache.property)
        (ad_urls : list Str.str) (cache0 : Cache.cache) :
  (forall url, In url ad_urls ->
     Cache.truthy (Cache.served parse_ad_page cache0 url) = true) ->
  let first := Cache.parse_properties parse_ad_page ad_urls cache0 in
  let second :=
      Cache.parse_properties parse_ad_page ad_urls (Cache.data first) in
  Cache.parsed second = []
  /\ Cache.data second = Cache.data first
  /\ Cache.properties second = Cache.properties first.
Proof.
  intros S first second.
  assert (G : forall url, In url ad_urls ->
                Cache.get_property url (Cache.data first)
                = Cache.served parse_ad_page cache0 url).
  { intros url H. subst first. unfold Cache.parse_properties.
    rewrite data_fold. cbn [Cache.data].
    replace (str_mem url ad_urls) with true.
    - specialize (S url H).
      destruct (Cache.served parse_ad_page cache0 url);
        [reflexivity | discriminate].
    - symmetry. apply str_mem_In. exact H. }
  assert (C : forall url, In url ad_urls ->
                Cache.truthy (Cache.get_property url (Cache.data first))
                = true).
  { intros url H. rewrite (G url H). apply S. exact H. }
  subst second. unfold Cache.parse_properties at 1 2 3.
  destruct (fold_all_cached parse_ad_page ad_urls
              (Cache.Run (Cache.data first) [] []) C) as [E1 E2].
  split; [exact E2 | split; [exact E1|]].
  rewrite properties_fold. cbn [Cache.properties Cache.data app].
  transitivity
    (flat_map (fun url => Cache.olist (Cache.served parse_ad_page cache0 url))
              ad_urls).
  - apply flat_map_served_ext. intros url H.
    unfold Cache.served at 1.
    rewrite (C url H). apply G. exact H.
  - subst first. unfold Cache.parse_properties.
    rewrite properties_fold. reflexivity.
Qed.

Lemma second_run_parses_nothing_witness :
  Cache.parsed
    (Cache.parse_properties
       (fun url => Some [(u "url", Cache.VStr url)])
       [u "a"; u "b"; u "a"]
       (Cache.data
          (Cache.parse_properties
             (fun url => Some [(u "url", Cache.VStr url)])
             [u "a"; u "b"; u "a"]
             [(u "a", [])])))
  = [].
Proof.
  apply (second_run_parses_nothing
           (fun url => Some [(u "url", Cache.VStr url)])
           [u "a"; u "b"; u "a"]
           [(u "a", [])]).
  intros url _. unfold Cache.served.
  destruct (Cache.truthy (Cache.get_property url [(u "a", [])])) eqn:T;
    [exact T | reflexivity].
Defined.

(** ** The links kept by [extract_ad_links_from_search] *)

Section LinkFacts.

Import Links.

Local Open Scope nat_scope.

Lemma split_nonempty (c : char) (s : str) : split c s <> [].
Proof.
  destruct s as [|x s]; cbn [split]; [discriminate|].
  destruct (eqc x c); [discriminate|].
  destruct (split c s); discriminate.
Qed.

Lemma split_app_sep (c : char) (a b : str) :
  split c (a ++ c :: b) = split c a ++ split c b.
Proof.
  induction a as [|x a IH]; cbn [app split].
  - rewrite eqc_refl. reflexivity.
  - destruct (eqc x c); [rewrite IH; reflexivity|].
    rewrite IH. destruct (split c a) as [|h t] eqn:E.
    + exfalso. exact (split_nonempty _ _ E).
    + reflexivity.
Qed.

Lemma segments_app_sep (a b : str) :
  segments (a ++ SLASH :: b) = segments a ++ segments b.
Proof. unfold segments. rewrite split_app_sep. apply filter_app. Qed.

Lemma segments_nil : segments [] = [].
Proof. reflexivity. Qed.

Lemma segments_slash (p : str) : segments (SLASH :: p) = segments p.
Proof. exact (segments_app_sep [] p). Qed.

Lemma segments_slashes (a p : str) :
  Forall (eq SLASH) a -> segments (a ++ p) = segments p.
Proof.
  induction 1 as [|x a <- _ IH]; cbn [app]; [reflexivity|].
  rewrite segments_slash. exact IH.
Qed.

(** [is_ad_path] looks at the segments only. *)
Lemma is_ad_path_segments (p q : str) :
  segments p = segments q -> is_ad_path p = is_ad_path q.
Proof. unfold is_ad_path. intros ->. reflexivity. Qed.

Lemma segments_none (p : str) :
  segments p = [] <-> Forall (eq SLASH) p.
Proof.
  induction p as [|x p IH].
  - split; [constructor | reflexivity].
  - destruct (eqc x SLASH) eqn:E.
    + apply eqc_true in E. subst x. rewrite segments_slash, IH.
      split; [intro H; constructor; auto | intro H; inversion H; auto].
    + split.
      * unfold segments. cbn [split]. rewrite E.
        destruct (split SLASH p) as [|h t]; cbn; discriminate.
      * intro H. inversion H as [|? ? X _]; subst.
        rewrite eqc_refl in E. discriminate.
Qed.

Lemma has_segment (p : str) :
  existsb (fun x => negb (eqc x SLASH)) p = true <-> segments p <> [].
Proof.
  rewrite segments_none, existsb_exists. split.
  - intros (x & Hx & N) F. rewrite Forall_forall in F.
    rewrite <- (F x Hx), eqc_refl in N. discriminate.
  - intro N. induction p as [|x p IH].
    + exfalso. apply N. constructor.
    + destruct (eqc x SLASH) eqn:E.
      * apply eqc_true in E. subst x.
        destruct IH as (y & Hy & Ny).
        -- intro F. apply N. constructor; auto.
        -- exists y. split; [right; exact Hy | exact Ny].
      * exists x. split; [left; reflexivity | rewrite E; reflexivity].
Qed.

Lemma prefix_segments (seg : str) :
  In seg ad_prefixes ->
  segments seg = [seg] /\ id_like seg = false
  /\ str_mem seg ad_prefixes = true.
Proof.
  intros [<- | [<- | [<- | []]]]; vm_compute; repeat split.
Qed.

End LinkFacts.

(** X23.  [is_ad_url] does not see empty path segments: a doubled slash,
    a slash in front and a slash at the end change nothing. *)
Theorem is_ad_path_ignores_empty_segments (a b : Str.str) :
  Links.is_ad_path (a ++ Links.SLASH :: Links.SLASH :: b)
  = Links.is_ad_path (a ++ Links.SLASH :: b)
  /\ Links.is_ad_path (Links.SLASH :: a) = Links.is_ad_path a
  /\ Links.is_ad_path (a ++ [Links.SLASH]) = Links.is_ad_path a.
Proof.
  split; [|split]; apply is_ad_path_segments.
  - rewrite !segments_app_sep, segments_slash. reflexivity.
  - apply segments_slash.
  - rewrite segments_app_sep, segments_nil. apply app_nil_r.
Qed.

(** X24.  A path whose first segment is [annonces], [v] or [vi] is an ad
    path exactly when some segment follows it: the bare root links are
    filtered out, and any second segment is enough, an identifier is not
    asked for. *)
Theorem prefixed_path_needs_second_segment (seg a rest : Str.str) :
  In seg Links.ad_prefixes ->
  Forall (eq Links.SLASH) a ->
  Links.is_ad_path (a ++ seg) = false
  /\ Links.is_ad_path (a ++ seg ++ Links.SLASH :: rest)
     = existsb (fun x => negb (Str.eqc x Links.SLASH)) rest.
Proof.
  intros Hseg Ha. destruct (prefix_segments seg Hseg) as (S1 & S2 & S3).
  split.
  - unfold Links.is_ad_path. rewrite (segments_slashes a seg Ha), S1, S3.
    cbn [length Nat.leb andb existsb]. rewrite S2. reflexivity.
  - unfold Links.is_ad_path.
    rewrite (segments_slashes a _ Ha), segments_app_sep, S1.
    cbn [app]. rewrite S3. cbn [andb length].
    destruct (existsb (fun x => negb (Str.eqc x Links.SLASH)) rest) eqn:E.
    + apply has_segment in E.
      destruct (Links.segments rest) as [|s l]; [congruence | reflexivity].
    + assert (N : Links.segments rest = []).
      { destruct (Links.segments rest) as [|s l] eqn:R; [reflexivity|].
        assert (X : existsb (fun x => negb (Str.eqc x Links.SLASH)) rest
                    = true)
          by (apply has_segment; rewrite R; discriminate).
        congruence. }
      rewrite N. cbn [length Nat.leb existsb]. rewrite S2. reflexivity.
Qed.

Lemma prefixed_path_needs_second_segment_witness :
  Links.is_ad_path (u "//" ++ u "vi") = false
  /\ Links.is_ad_path (u "//" ++ u "vi" ++ Links.SLASH :: u "/x/")
     = existsb (fun x => negb (Str.eqc x Links.SLASH)) (u "/x/").
Proof.
  apply (prefixed_path_needs_second_segment (u "vi") (u "//") (u "/x/")).
  - right. right. left. reflexivity.
  - repeat constructor.
Defined.

(** X25.  In the three tests that pick links out of a search page the
    test on [/vi] never decides: every string that passes it passes the
    test on [/v] already, so each test is the one without [/vi], and any
    link beginning with (or, for a full URL, containing) [/v] is taken. *)
Theorem vi_tests_never_decide (href : Str.str) :
  Links.relative_href_kept href
  = (Str.contains (u "/annonces/") href || Str.startswith (u "/v") href
     || Str.startswith (u "/ad") href)
  /\ Links.absolute_href_kept href
     = (Str.contains (u "leboncoin.fr") href
        && (Str.contains (u "/annonces/") href || Str.contains (u "/v") href
            || Str.contains (u "/ad") href))
  /\ Links.walk_keeps href
     = (Str.startswith (u "/annonces/") href || Str.startswith (u "/v") href
        || Str.contains (u "leboncoin.fr/annonces") href).
Proof.
  assert (S : Str.startswith (u "/vi") href = true ->
              Str.startswith (u "/v") href = true)
    by exact (startswith_prefix (u "/v") (u "i") href).
  assert (C : Str.contains (u "/vi") href = true ->
              Str.contains (u "/v") href = true)
    by exact (contains_prefix (u "/v") (u "i") href).
  unfold Links.relative_href_kept, Links.absolute_href_kept,
    Links.walk_keeps.
  destruct (Str.startswith (u "/vi") href);
    destruct (Str.contains (u "/vi") href);
    try rewrite (S eq_refl); try rewrite (C eq_refl);
    rewrite ?orb_true_r, ?orb_false_r; cbn [orb andb];
    rewrite ?orb_true_r, ?orb_false_r; repeat split; reflexivity.
Qed.

(** ** Search URLs *)

Section EngineFacts.

Local Open Scope nat_scope.

(** A literal matches as [startswith]. *)
Lemma rmatch_lit (A : Type) (l : str) (st : mstate) (k : mstate -> option A) :
  rmatch (lit false l) st k
  = if startswith l (rest st)
    then k {| pos := pos st + length l; rest := skipn (length l) (rest st);
              cap := cap st |}
    else None.
Proof.
  revert st. induction l as [|c l IH]; intro st.
  - cbn. rewrite Nat.add_0_r. destruct st; reflexivity.
  - assert (E : rmatch (lit false (c :: l)) st k
                = rmatch (Chr false c) st
                         (fun st1 => rmatch (lit false l) st1 k)).
    { destruct l; reflexivity. }
    rewrite E. cbn [rmatch startswith length].
    destruct (rest st) as [|x xs] eqn:R; [reflexivity|].
    unfold char_match. cbn [skipn].
    replace (eqc x c) with (eqc c x)
      by (unfold eqc; apply N.eqb_sym).
    destruct (eqc c x); [|reflexivity].
    rewrite IH. cbn [advance rest pos cap].
    replace (S (pos st) + length l) with (pos st + S (length l)) by lia.
    reflexivity.
Qed.

(** A greedy repetition of a character class before a continuation that
    always accepts takes every leading character of the class. *)
Lemma greedy_cls (A : Type) (p : char -> bool) (k : mstate -> option A) :
  (forall st, k st <> None) ->
  forall n st,
    length (rest st) <= n ->
    greedy_loop (rmatch (Cls p)) k n st
    = k {| pos := pos st + leading p (rest st);
           rest := skipn (leading p (rest st)) (rest st);
           cap := cap st |}.
Proof.
  intros K. set (body := rmatch (Cls p)).
  induction n as [|n IH]; intros st L.
  - destruct st as [i [|x xs] c]; cbn in L; [|lia].
    cbn. rewrite Nat.add_0_r. reflexivity.
  - cbn [greedy_loop]. unfold body at 1. cbn [rmatch].
    destruct (rest st) as [|x xs] eqn:R.
    + cbn. rewrite Nat.add_0_r. destruct st; cbn in R; subst; reflexivity.
    + cbn [leading]. destruct (p x) eqn:P.
      * cbn [advance pos]. replace (pos st <? S (pos st)) with true
          by (symmetry; apply Nat.ltb_lt; lia).
        specialize (IH {| pos := S (pos st); rest := xs; cap := cap st |}).
        cbn [rest pos cap] in IH. unfold advance.
        rewrite IH by (cbn in L; lia).
        cbn [skipn].
        replace (pos st + S (leading p xs)) with (S (pos st) + leading p xs)
          by lia.
        destruct (k _) eqn:E; [reflexivity|]. exfalso. exact (K _ E).
      * cbn. rewrite Nat.add_0_r. destruct st; cbn in R; subst; reflexivity.
Qed.

Lemma rmatch_plus_cls (A : Type) (p : char -> bool) (st : mstate)
      (k : mstate -> option A) :
  rmatch (plus (Cls p)) st k
  = match rest st with
    | [] => None
    | d :: r =>
      if p d then greedy_loop (rmatch (Cls p)) k (length r) (advance st r)
      else None
    end.
Proof. reflexivity. Qed.

(** The match of [page=\d+] at the head of a string. *)
Lemma match_here_page (s : str) (i : nat) :
  match_here SearchUrl.PAGE_RE s i
  = option_map (fun n => {| m_start := i; m_end := i + n; group1 := None |})
               (page_match s).
Proof.
  unfold match_here, SearchUrl.PAGE_RE, page_match.
  change (rmatch (Seq ?a ?b) ?st ?k)
    with (rmatch a st (fun st1 => rmatch b st1 k)).
  rewrite rmatch_lit. cbn [rest pos cap].
  destruct (startswith (u "page=") s); [|reflexivity].
  change (length (u "page=")) with 5.
  unfold digit. rewrite rmatch_plus_cls. cbn [rest].
  destruct (skipn 5 s) as [|d r]; [reflexivity|].
  destruct (is_ascii_digit d); [|reflexivity].
  rewrite greedy_cls; [|discriminate|reflexivity].
  cbn [advance pos rest cap option_map]. do 2 f_equal. lia.
Qed.

End EngineFacts.

Section PageFacts.

Import SearchUrl.

Local Open Scope nat_scope.

Lemma leading_le (p : char -> bool) (s : str) : leading p s <= length s.
Proof.
  induction s as [|x s IH]; cbn [leading length]; [lia|].
  destruct (p x); lia.
Qed.

Lemma leading_all (p : char -> bool) (a b : str) :
  forallb p a = true ->
  leading p (a ++ b) = length a + leading p b.
Proof.
  induction a as [|x a IH]; cbn [forallb app leading length]; [reflexivity|].
  intro H. apply andb_prop in H as [-> H]. rewrite IH by exact H. reflexivity.
Qed.

Lemma leading_stop (p : char -> bool) (s : str) :
  match skipn (leading p s) s with
  | x :: _ => p x = false
  | [] => True
  end.
Proof.
  induction s as [|x s IH]; cbn [leading]; [exact I|].
  destruct (p x) eqn:P; cbn [skipn]; [exact IH | exact P].
Qed.

Lemma leading_firstn (p : char -> bool) (s : str) :
  forallb p (firstn (leading p s) s) = true.
Proof.
  induction s as [|x s IH]; cbn [leading]; [reflexivity|].
  destruct (p x) eqn:P; cbn [firstn forallb]; [|reflexivity].
  rewrite P. exact IH.
Qed.

(** A match of [page=\d+] at the head of [s]: the shape of [s]. *)
Lemma page_match_some (s : str) (n : nat) :
  page_match s = Some n ->
  exists d ds post,
    s = u "page=" ++ d :: ds ++ post
    /\ is_ascii_digit d = true /\ forallb is_ascii_digit ds = true
    /\ n = 6 + length ds /\ skipn n s = post
    /\ match post with
       | x :: _ => is_ascii_digit x = false
       | [] => True
       end.
Proof.
  unfold page_match. destruct (startswith (u "page=") s) eqn:S; [|discriminate].
  apply startswith_app in S as [t ->].
  change (skipn 5 (u "page=" ++ t)) with t.
  destruct t as [|d r]; [discriminate|].
  destruct (is_ascii_digit d) eqn:D; [|discriminate].
  intros [= <-].
  exists d, (firstn (leading is_ascii_digit r) r),
    (skipn (leading is_ascii_digit r) r).
  rewrite firstn_skipn. split; [reflexivity|]. split; [exact D|].
  split; [apply leading_firstn|].
  assert (L := leading_le is_ascii_digit r).
  split; [rewrite length_firstn; lia|].
  split; [reflexivity|]. apply leading_stop.
Qed.

Lemma page_match_digits (d : char) (ds post : str) :
  is_ascii_digit d = true -> forallb is_ascii_digit ds = true ->
  match post with
  | x :: _ => is_ascii_digit x = false
  | [] => True
  end ->
  page_match (u "page=" ++ d :: ds ++ post) = Some (6 + length ds)
  /\ skipn (6 + length ds) (u "page=" ++ d :: ds ++ post) = post.
Proof.
  intros D Ds P. unfold page_match.
  change (startswith (u "page=") (u "page=" ++ d :: ds ++ post)) with true.
  change (skipn 5 (u "page=" ++ d :: ds ++ post)) with (d :: ds ++ post).
  cbn match. rewrite D, (leading_all _ _ _ Ds).
  assert (L : leading is_ascii_digit post = 0).
  { destruct post as [|x post]; [reflexivity|]. cbn [leading]. rewrite P.
    reflexivity. }
  rewrite L, Nat.add_0_r. split; [reflexivity|].
  change (skipn (6 + length ds) (u "page=" ++ d :: ds ++ post))
    with (skipn (length ds) (ds ++ post)).
  rewrite skipn_app, Nat.sub_diag, skipn_all. reflexivity.
Qed.

Lemma page_match_head (s : str) (n : nat) :
  page_match s = Some n -> exists s', s = 112%N :: s'.
Proof.
  intro H. apply page_match_some in H as (d & ds & post & -> & _).
  eexists. reflexivity.
Qed.

Lemma sub_at_unfold (r : regex) (repl s : str) (i : nat) :
  sub_at r repl s i 0
  = match match_here r s i with
    | Some m =>
      repl ++ match s with
              | [] => []
              | _ :: s' => sub_at r repl s' (S i) (m_end m - i - 1)
              end
    | None =>
      match s with
      | [] => []
      | x :: s' => x :: sub_at r repl s' (S i) 0
      end
    end.
Proof. destruct s; reflexivity. Qed.

Lemma sub_at_skip (r : regex) (repl s : str) (i sk : nat) :
  sk <= length s ->
  sub_at r repl s i sk = sub_at r repl (skipn sk s) (i + sk) 0.
Proof.
  revert s i. induction sk as [|sk IH]; intros s i L.
  - rewrite Nat.add_0_r. reflexivity.
  - destruct s as [|x s]; cbn [length] in L; [lia|].
    cbn [sub_at skipn]. rewrite IH by lia. f_equal. lia.
Qed.

(** One step of the substitution of [page=\d+], at any position. *)
Lemma sub_at_page (repl s : str) (i : nat) :
  sub_at PAGE_RE repl s i 0
  = match page_match s with
    | Some n => repl ++ sub_at PAGE_RE repl (skipn n s) (i + n) 0
    | None =>
      match s with
      | [] => []
      | x :: s' => x :: sub_at PAGE_RE repl s' (S i) 0
      end
    end.
Proof.
  rewrite sub_at_unfold, match_here_page.
  destruct (page_match s) as [n|] eqn:M; cbn [option_map]; [|reflexivity].
  f_equal. cbn [m_end].
  destruct (page_match_some s n M) as (d & ds & post & -> & _ & _ & -> & _).
  pose (t := tl (u "page=") ++ d :: ds ++ post).
  assert (Lt : length t = 5 + length ds + length post).
  { unfold t. rewrite length_app. cbn [length]. rewrite length_app.
    change (length (tl (u "page="))) with 4. lia. }
  change (u "page=" ++ d :: ds ++ post) with (112%N :: t).
  cbn iota. rewrite sub_at_skip by lia.
  replace (i + (6 + length ds) - i - 1) with (5 + length ds) by lia.
  replace (S i + (5 + length ds)) with (i + (6 + length ds)) by lia.
  reflexivity.
Qed.

(** The position does not matter. *)
Lemma sub_at_page_pos (repl : str) (m : nat) :
  forall s i j, length s <= m ->
    sub_at PAGE_RE repl s i 0 = sub_at PAGE_RE repl s j 0.
Proof.
  induction m as [|m IH]; intros s i j L.
  - destruct s; [|cbn in L; lia]. reflexivity.
  - rewrite (sub_at_page repl s i), (sub_at_page repl s j).
    destruct (page_match s) as [n|] eqn:M.
    + f_equal. apply IH.
      destruct (page_match_some s n M) as (d & ds & post & E & _ & _ & N & K & _).
      rewrite K. rewrite E in L. rewrite !length_app in L. cbn [length] in L.
      rewrite length_app in L. change (length (u "page=")) with 5 in L. lia.
    + destruct s as [|x s]; [reflexivity|]. f_equal. apply IH.
      cbn in L. lia.
Qed.

(** The equation of [re.sub(r"page=\d+", repl, s)]. *)
Lemma sub_page (repl s : str) :
  sub PAGE_RE repl s
  = match page_match s with
    | Some n => repl ++ sub PAGE_RE repl (skipn n s)
    | None =>
      match s with
      | [] => []
      | x :: s' => x :: sub PAGE_RE repl s'
      end
    end.
Proof.
  unfold sub. rewrite sub_at_page.
  destruct (page_match s) as [n|].
  - f_equal. apply (sub_at_page_pos repl (length (skipn n s))). lia.
  - destruct s as [|x s]; [reflexivity|]. f_equal.
    apply (sub_at_page_pos repl (length s)). lia.
Qed.

End PageFacts.

Section PagingFacts.

Import SearchUrl.

Local Open Scope nat_scope.


Lemma page_match_starts (d : char) (t : str) :
  is_ascii_digit d = true -> page_match (u "page=" ++ d :: t) <> None.
Proof.
  intro D. unfold page_match.
  change (startswith (u "page=") (u "page=" ++ d :: t)) with true.
  change (skipn 5 (u "page=" ++ d :: t)) with (d :: t).
  cbn match. rewrite D. discriminate.
Qed.

Lemma sub_page_peel (repl : str) (c : char) (t w : str) :
  page_repl repl -> c <> 112%N ->
  sub PAGE_RE repl t = c :: w ->
  exists t', t = c :: t' /\ sub PAGE_RE repl t' = w.
Proof.
  intros (d & ds & -> & _) N. rewrite sub_page.
  destruct (page_match t) as [n|].
  - intros [= E _]. congruence.
  - destruct t as [|x t]; [discriminate|]. intros [= -> <-]. eauto.
Qed.

Lemma digit_not_p (d : char) : is_ascii_digit d = true -> d <> 112%N.
Proof. intros D ->. discriminate. Qed.

Lemma nomatch_preserved (repl s : str) :
  page_repl repl ->
  page_match s = None -> page_match (sub PAGE_RE repl s) = None.
Proof.
  intros R M. rewrite sub_page, M.
  destruct s as [|x s]; [reflexivity|].
  destruct (page_match (x :: sub PAGE_RE repl s)) as [n|] eqn:M'; [|reflexivity].
  exfalso.
  destruct (page_match_some _ _ M') as (d & ds & post & E & D & _).
  change (u "page=" ++ d :: ds ++ post)
    with (112 :: 97 :: 103 :: 101 :: 61 :: d :: ds ++ post)%N in E.
  injection E as -> E.
  apply (sub_page_peel repl) in E as (t1 & -> & E); [|exact R|discriminate].
  apply (sub_page_peel repl) in E as (t2 & -> & E); [|exact R|discriminate].
  apply (sub_page_peel repl) in E as (t3 & -> & E); [|exact R|discriminate].
  apply (sub_page_peel repl) in E as (t4 & -> & E); [|exact R|discriminate].
  apply (sub_page_peel repl) in E as (t5 & -> & E);
    [|exact R|apply digit_not_p; exact D].
  apply (page_match_starts d t5 D). exact M.
Qed.

Lemma sub_page_head (repl post : str) :
  page_repl repl ->
  match post with
  | x :: _ => is_ascii_digit x = false
  | [] => True
  end ->
  match sub PAGE_RE repl post with
  | x :: _ => is_ascii_digit x = false
  | [] => True
  end.
Proof.
  intros (d & ds & -> & _) H. rewrite sub_page.
  destruct (page_match post); [reflexivity|].
  destruct post; [exact I | exact H].
Qed.

(** A second substitution sees the matches the first one saw. *)
Lemma sub_page_twice (repl repl' : str) (m : nat) :
  page_repl repl ->
  forall s, length s <= m ->
    sub PAGE_RE repl' (sub PAGE_RE repl s) = sub PAGE_RE repl' s.
Proof.
  intro R. induction m as [|m IH]; intros s L.
  - destruct s; [reflexivity | cbn in L; lia].
  - destruct (page_match s) as [n|] eqn:M.
    + destruct (page_match_some s n M)
        as (d & ds & post & E & D & Ds & N & K & P).
      rewrite (sub_page repl s), (sub_page repl' s), M, K.
      destruct R as (d0 & ds0 & -> & D0 & Ds0).
      assert (R : page_repl (u "page=" ++ d0 :: ds0)) by (exists d0, ds0; auto).
      change ((u "page=" ++ d0 :: ds0) ++ sub PAGE_RE (u "page=" ++ d0 :: ds0) post)
        with (u "page=" ++ d0 :: ds0 ++ sub PAGE_RE (u "page=" ++ d0 :: ds0) post).
      destruct (page_match_digits d0 ds0 _ D0 Ds0 (sub_page_head _ post R P))
        as [M0 K0].
      rewrite (sub_page repl' (u "page=" ++ d0 :: ds0 ++ _)), M0, K0.
      f_equal. apply IH.
      rewrite E in L. rewrite !length_app in L. cbn [length] in L.
      rewrite length_app in L. lia.
    + assert (M' := nomatch_preserved repl s R M).
      rewrite (sub_page repl' (sub PAGE_RE repl s)), M'.
      rewrite (sub_page repl s), M, (sub_page repl' s), M.
      destruct s as [|x s]; [reflexivity|]. f_equal. apply IH.
      cbn in L. lia.
Qed.

Lemma contains_cons (sub_ : str) (x : char) (s : str) :
  contains sub_ (x :: s) = true
  <-> startswith sub_ (x :: s) = true \/ contains sub_ s = true.
Proof.
  rewrite !contains_true, startswith_app. split.
  - intros ([|y pre] & post & E).
    + left. exists post. exact E.
    + right. injection E as -> ->. eauto.
  - intros [[post E] | (pre & post & ->)].
    + exists [], post. exact E.
    + exists (x :: pre), post. reflexivity.
Qed.

Lemma page_match_not_p (x : char) (s : str) :
  x <> 112%N -> page_match (x :: s) = None.
Proof.
  intro N. unfold page_match.
  replace (startswith (u "page=") (x :: s)) with false; [reflexivity|].
  symmetry. change (eqc 112%N x && startswith (tl (u "page=")) s = false).
  replace (eqc 112%N x) with false; [reflexivity|].
  symmetry. apply N.eqb_neq. congruence.
Qed.

Lemma contains_sub_page (repl s : str) :
  page_repl repl ->
  contains (u "page=") s = true ->
  contains (u "page=") (sub PAGE_RE repl s) = true.
Proof.
  intros R. induction s as [|x s IH]; [discriminate|].
  intro C. rewrite sub_page.
  destruct (page_match (x :: s)) as [n|] eqn:M.
  - destruct R as (d & ds & -> & _). apply contains_true.
    exists [], (d :: ds ++ sub PAGE_RE (u "page=" ++ d :: ds) (skipn n (x :: s))).
    reflexivity.
  - apply contains_cons in C as [S | C].
    + apply startswith_app in S as [t E].
      change (u "page=" ++ t) with (112 :: 97 :: 103 :: 101 :: 61 :: t)%N in E.
      injection E as -> ->.
      rewrite (sub_page repl (97 :: _)%N), page_match_not_p by discriminate.
      rewrite (sub_page repl (103 :: _)%N), page_match_not_p by discriminate.
      rewrite (sub_page repl (101 :: _)%N), page_match_not_p by discriminate.
      rewrite (sub_page repl (61 :: _)%N), page_match_not_p by discriminate.
      apply contains_true. exists [], (sub PAGE_RE repl t). reflexivity.
    + apply contains_cons. right. apply IH. exact C.
Qed.

Lemma startswith_app_long (p w t : str) :
  length p <= length w -> startswith p (w ++ t) = startswith p w.
Proof.
  revert w. induction p as [|a p IH]; intros w L; [reflexivity|].
  destruct w as [|b w]; cbn [length] in L; [lia|].
  cbn [app startswith]. rewrite IH by lia. reflexivity.
Qed.

Lemma startswith_short_sep (p w : str) (sep : char) (t : str) :
  length w < length p ->
  startswith p (w ++ sep :: t) = true -> In sep p.
Proof.
  revert w. induction p as [|a p IH]; intros w L; cbn [length] in L; [lia|].
  destruct w as [|b w]; cbn [app startswith].
  - intro H. apply andb_prop in H as [H _]. apply eqc_true in H. left. exact H.
  - intro H. apply andb_prop in H as [_ H]. right.
    apply (IH w); [cbn [length] in L; lia | exact H].
Qed.

Lemma contains_tail (sub_ : str) (x : char) (s : str) :
  contains sub_ (x :: s) = false -> contains sub_ s = false.
Proof.
  intro H. destruct (contains sub_ s) eqn:C; [|reflexivity].
  rewrite <- H. symmetry. apply contains_cons. right. exact C.
Qed.

Lemma no_straddle (w : str) (sep : char) (t : str) :
  contains (u "page=") w = false ->
  sep = 38%N \/ sep = 63%N ->
  startswith (u "page=") (w ++ sep :: t) = false.
Proof.
  intros C S.
  destruct (startswith (u "page=") (w ++ sep :: t)) eqn:E; [|reflexivity].
  exfalso. destruct (Nat.le_gt_cases (length (u "page=")) (length w)) as [L | L].
  - rewrite startswith_app_long in E by exact L.
    apply startswith_app in E as [post ->].
    assert (X : contains (u "page=") (u "page=" ++ post) = true)
      by (apply contains_true; exists [], post; reflexivity).
    congruence.
  - apply startswith_short_sep in E; [|exact L].
    destruct S as [-> | ->];
      repeat (destruct E as [E | E]; [discriminate E|]); destruct E.
Qed.

Lemma sub_page_appended (repl' : str) (url : str) (sep d : char) (ds : str) :
  contains (u "page=") url = false ->
  sep = 38%N \/ sep = 63%N ->
  is_ascii_digit d = true -> forallb is_ascii_digit ds = true ->
  sub PAGE_RE repl' (url ++ sep :: u "page=" ++ d :: ds)
  = url ++ sep :: repl'.
Proof.
  intros C S D Ds. induction url as [|x url IH].
  - cbn [app]. rewrite sub_page, page_match_not_p
      by (destruct S as [-> | ->]; discriminate).
    f_equal. rewrite sub_page.
    destruct (page_match_digits d ds [] D Ds I) as [M K].
    rewrite app_nil_r in M, K. rewrite M, K. rewrite sub_page.
    cbn. apply app_nil_r.
  - rewrite sub_page. unfold page_match at 1.
    rewrite (no_straddle (x :: url) sep _ C S).
    cbn [app]. f_equal. apply IH. apply (contains_tail _ x). exact C.
Qed.

Lemma uint_str_digits (d : Decimal.uint) :
  forallb is_ascii_digit (uint_str d) = true.
Proof. induction d; cbn [uint_str forallb]; try rewrite IHd; reflexivity. Qed.

Lemma uint_str_nil (d : Decimal.uint) : uint_str d = [] -> d = Decimal.Nil.
Proof. destruct d; cbn [uint_str]; congruence. Qed.

Lemma page_param_repl (p : Z) : (0 <= p)%Z -> page_repl (page_param p).
Proof.
  intro H. unfold page_param, str_of_int.
  replace (p <? 0)%Z with false by (symmetry; apply Z.ltb_ge; exact H).
  assert (D := uint_str_digits (N.to_uint (Z.to_N p))).
  destruct (uint_str (N.to_uint (Z.to_N p))) as [|d ds] eqn:E.
  - exfalso. apply uint_str_nil in E. destruct (Z.to_N p) as [|q].
    + discriminate E.
    + exact (Unsigned.to_uint_nonnil q E).
  - cbn [forallb] in D. apply andb_prop in D as [D Ds].
    exists d, ds. auto.
Qed.

End PagingFacts.




(** X27.  With [--search-url], the URL of a page does not depend on the
    page the given URL was on: the URL of page [q] made from the URL of
    a page [p >= 0] is the URL of page [q] made from the given URL, be the
    page parameter replaced or appended. *)
Theorem page_url_from_any_page (search_url : Str.str) (p q : Z) :
  (0 <= p)%Z ->
  SearchUrl.search_page_url (SearchUrl.search_page_url search_url p) q
  = SearchUrl.search_page_url search_url q.
Proof.
  intro P. assert (R := page_param_repl p P).
  unfold SearchUrl.search_page_url at 2 3.
  destruct (Str.contains (u "page=") search_url) eqn:C.
  - unfold SearchUrl.search_page_url.
    rewrite (contains_sub_page _ _ R C).
    apply (sub_page_twice _ _ (length search_url) R). apply Nat.le_refl.
  - destruct R as (d & ds & E & D & Ds).
    assert (G : forall sep, sep = 38%N \/ sep = 63%N ->
                SearchUrl.search_page_url
                  (search_url ++ [sep] ++ SearchUrl.page_param p) q
                = search_url ++ [sep] ++ SearchUrl.page_param q).
    { intros sep S. rewrite E. cbn [app]. unfold SearchUrl.search_page_url.
      replace (Str.contains (u "page=")
                 (search_url ++ sep :: u "page=" ++ d :: ds)) with true.
      - apply sub_page_appended; assumption.
      - symmetry. apply contains_true.
        exists (search_url ++ [sep]), (d :: ds).
        rewrite <- app_assoc. reflexivity. }
    destruct (Str.contains (u "?") search_url);
      [apply (G 38%N) | apply (G 63%N)]; auto.
Qed.

Lemma page_url_from_any_page_witness :
  SearchUrl.search_page_url
    (SearchUrl.search_page_url (u "https://x/r?text=a&page=3") 12) 2
  = SearchUrl.search_page_url (u "https://x/r?text=a&page=3") 2.
Proof.
  apply (page_url_from_any_page (u "https://x/r?text=a&page=3") 12 2).
  vm_compute. discriminate.
Defined.

Section EncodeFacts.

Import SearchUrl.

Local Open Scope N_scope.

Lemma utf8_encode_scalar (c : char) :
  utf8_encode c = None <-> scalar c = false.
Proof.
  unfold utf8_encode, scalar.
  destruct (c <? 128) eqn:A.
  - apply N.ltb_lt in A.
    replace (c <? 55296) with true by (symmetry; apply N.ltb_lt; lia).
    split; discriminate.
  - destruct (c <? 2048) eqn:B.
    + apply N.ltb_lt in B.
      replace (c <? 55296) with true by (symmetry; apply N.ltb_lt; lia).
      split; discriminate.
    + destruct (c <? 65536) eqn:C.
      * apply N.ltb_lt in C.
        replace (c <? 1114112) with true by (symmetry; apply N.ltb_lt; lia).
        rewrite andb_true_r.
        destruct (55296 <=? c) eqn:D, (c <=? 57343) eqn:E; cbn [andb].
        -- apply N.leb_le in D. apply N.leb_le in E.
           replace (c <? 55296) with false by (symmetry; apply N.ltb_ge; lia).
           replace (57343 <? c) with false by (symmetry; apply N.ltb_ge; lia).
           split; reflexivity.
        -- apply N.leb_gt in E.
           replace (57343 <? c) with true by (symmetry; apply N.ltb_lt; lia).
           rewrite orb_true_r. split; discriminate.
        -- apply N.leb_gt in D.
           replace (c <? 55296) with true by (symmetry; apply N.ltb_lt; lia).
           split; discriminate.
        -- apply N.leb_gt in D.
           replace (c <? 55296) with true by (symmetry; apply N.ltb_lt; lia).
           split; discriminate.
      * apply N.ltb_ge in C.
        replace (c <? 55296) with false by (symmetry; apply N.ltb_ge; lia).
        replace (57343 <? c) with true by (symmetry; apply N.ltb_lt; lia).
        cbn [orb andb]. destruct (c <? 1114112); split; congruence.
Qed.

Ltac byte_bound :=
  match goal with
  | |- context [?a mod ?b] =>
    generalize (N.mod_lt a b ltac:(discriminate));
    generalize (a mod b); intros; lia
  | _ => zify; Z.div_mod_to_equations; lia
  end.

Lemma utf8_encode_bytes (c : char) (bs : list N) :
  utf8_encode c = Some bs -> Forall (fun b => b < 256) bs.
Proof.
  unfold utf8_encode.
  destruct (c <? 128) eqn:A.
  { apply N.ltb_lt in A.
    assert (F : Forall (fun b => b < 256) [c])
      by (repeat (apply Forall_cons; [cbv beta; lia|]); apply Forall_nil).
    intro H. replace bs with [c] by congruence. exact F. }
  destruct (c <? 2048) eqn:B.
  { apply N.ltb_lt in B.
    assert (F : Forall (fun b => b < 256) [192 + c / 64; 128 + c mod 64])
      by (repeat (apply Forall_cons; [cbv beta; byte_bound|]);
          apply Forall_nil).
    intro H. replace bs with [192 + c / 64; 128 + c mod 64] by congruence.
    exact F. }
  destruct (c <? 65536) eqn:C.
  { apply N.ltb_lt in C.
    destruct ((55296 <=? c) && (c <=? 57343)); [discriminate|].
    assert (F : Forall (fun b => b < 256)
                       [224 + c / 4096; 128 + (c / 64) mod 64; 128 + c mod 64])
      by (repeat (apply Forall_cons; [cbv beta; byte_bound|]);
          apply Forall_nil).
    intro H.
    replace bs with [224 + c / 4096; 128 + (c / 64) mod 64; 128 + c mod 64]
      by congruence.
    exact F. }
  destruct (c <? 1114112) eqn:D; [|discriminate].
  apply N.ltb_lt in D.
  assert (F : Forall (fun b => b < 256)
                     [240 + c / 262144; 128 + (c / 4096) mod 64;
                      128 + (c / 64) mod 64; 128 + c mod 64])
    by (repeat (apply Forall_cons; [cbv beta; byte_bound|]);
        apply Forall_nil).
  intro H.
  replace bs with [240 + c / 262144; 128 + (c / 4096) mod 64;
                   128 + (c / 64) mod 64; 128 + c mod 64]
    by congruence.
  exact F.
Qed.

Lemma hex_digit_safe (n : N) : n < 16 -> always_safe (hex_digit n) = true.
Proof.
  intro H.
  assert (F : forallb (fun k => always_safe (hex_digit (N.of_nat k)))
                      (List.seq 0%nat 16%nat) = true)
    by (vm_compute; reflexivity).
  rewrite forallb_forall in F. specialize (F (N.to_nat n)).
  rewrite N2Nat.id in F. apply F. apply in_seq. lia.
Qed.

Lemma quote_byte_safe (b : N) :
  b < 256 -> forallb url_safe (quote_byte b) = true.
Proof.
  intro H. unfold quote_byte.
  destruct (always_safe b) eqn:A.
  - cbn [forallb]. unfold url_safe. rewrite A. reflexivity.
  - destruct (b =? 32); [reflexivity|].
    cbn [forallb]. unfold url_safe at 2 3.
    rewrite !hex_digit_safe; [reflexivity | |].
    + apply N.mod_lt. discriminate.
    + byte_bound.
Qed.

Lemma quote_plus_safe (s q : str) :
  quote_plus s = Some q -> forallb url_safe q = true.
Proof.
  revert q. induction s as [|c s IH]; intro q; cbn [quote_plus].
  - intros [= <-]. reflexivity.
  - destruct (utf8_encode c) as [bs|] eqn:E; [|discriminate].
    destruct (quote_plus s) as [q'|]; [|discriminate].
    intros [= <-]. rewrite forallb_app, (IH q' eq_refl), andb_true_r.
    apply utf8_encode_bytes in E.
    induction E as [|b bs Hb _ IHb]; [reflexivity|].
    cbn [flat_map]. rewrite forallb_app, IHb, quote_byte_safe by exact Hb.
    reflexivity.
Qed.

Lemma quote_plus_none (s : str) :
  quote_plus s = None <-> forallb scalar s = false.
Proof.
  induction s as [|c s IH]; cbn [quote_plus forallb].
  - split; discriminate.
  - destruct (utf8_encode c) as [bs|] eqn:E.
    + assert (S : scalar c = true).
      { destruct (scalar c) eqn:S; [reflexivity|].
        apply utf8_encode_scalar in S. congruence. }
      rewrite S. cbn [andb]. rewrite <- IH.
      destruct (quote_plus s); split; congruence.
    + apply utf8_encode_scalar in E. rewrite E. cbn [andb].
      split; reflexivity.
Qed.

Lemma quote_plus_digits (s : str) :
  forallb is_ascii_digit s = true -> quote_plus s = Some s.
Proof.
  induction s as [|c s IH]; cbn [forallb quote_plus]; [reflexivity|].
  intro H. apply andb_prop in H as [D H]. rewrite (IH H).
  unfold is_ascii_digit in D. apply andb_prop in D as [D1 D2].
  apply N.leb_le in D1. apply N.leb_le in D2.
  unfold utf8_encode.
  replace (c <? 128) with true by (symmetry; apply N.ltb_lt; lia).
  cbn [flat_map app]. unfold quote_byte, always_safe.
  replace (48 <=? c) with true by (symmetry; apply N.leb_le; lia).
  replace (c <=? 57) with true by (symmetry; apply N.leb_le; lia).
  cbn [andb orb]. rewrite !orb_true_r. reflexivity.
Qed.

Lemma url_safe_no_amp (q : str) :
  forallb url_safe q = true -> ~ In AMP q.
Proof.
  intros H I. rewrite forallb_forall in H. specialize (H _ I). discriminate H.
Qed.

Lemma split_none (c : char) (x : str) :
  ~ In c x -> Links.split c x = [x].
Proof.
  induction x as [|y x IH]; intro N; cbn [Links.split]; [reflexivity|].
  replace (eqc y c) with false.
  - rewrite IH; [reflexivity|]. intro I. apply N. right. exact I.
  - symmetry. apply N.eqb_neq. intros ->. apply N. left. reflexivity.
Qed.

Lemma split_join (c : char) (items : list str) :
  items <> [] -> Forall (fun x => ~ In c x) items ->
  Links.split c (join [c] items) = items.
Proof.
  intros N F. revert N. induction F as [|x l Hx F IH]; intro N;
    [exfalso; apply N; reflexivity|].
  destruct l as [|y l].
  - cbn [join]. apply split_none. exact Hx.
  - change (join [c] (x :: y :: l)) with (x ++ c :: join [c] (y :: l)).
    rewrite split_app_sep, split_none by exact Hx.
    rewrite IH by discriminate. reflexivity.
Qed.

Lemma uint_str_no_amp (d : Decimal.uint) : ~ In AMP (uint_str d).
Proof.
  intro I. assert (D := uint_str_digits d). rewrite forallb_forall in D.
  specialize (D _ I). discriminate D.
Qed.

Lemma encode_items_cons (k v : str) (rest : list (str * str)) :
  encode_items ((k, v) :: rest)
  = match quote_plus k, quote_plus v, encode_items rest with
    | Some k', Some v', Some l => Some ((k' ++ u "=" ++ v') :: l)
    | _, _, _ => None
    end.
Proof. reflexivity. Qed.

Lemma encode_page (page : Z) :
  encode_items (if negb (page =? 0)%Z && (1 <? page)%Z
                then [(u "page", str_of_int page)] else [])
  = Some (if (1 <? page)%Z then [u "page=" ++ str_of_int page] else []).
Proof.
  destruct (1 <? page)%Z eqn:G.
  - apply Z.ltb_lt in G.
    replace (page =? 0)%Z with false by (symmetry; apply Z.eqb_neq; lia).
    cbn [negb andb]. rewrite encode_items_cons.
    change (quote_plus (u "page")) with (Some (u "page")).
    unfold str_of_int.
    replace (page <? 0)%Z with false by (symmetry; apply Z.ltb_ge; lia).
    rewrite quote_plus_digits by apply uint_str_digits. reflexivity.
  - rewrite andb_false_r. reflexivity.
Qed.

(** [urlencode] of the parameters of a search. *)
Lemma encode_search_params (city query : str) (page : Z) :
  encode_items (search_params city query page)
  = match quote_plus query, quote_plus city with
    | Some qq, Some qc =>
      Some ([u "text=" ++ qq; u "locations=" ++ qc; u "category=9";
             u "owner_type=all"; u "sort=time"; u "order=desc"]
              ++ (if (1 <? page)%Z then [u "page=" ++ str_of_int page]
                  else []))
    | _, _ => None
    end.
Proof.
  unfold search_params. cbn [app].
  rewrite !encode_items_cons, encode_page.
  change (quote_plus (u "text")) with (Some (u "text")).
  change (quote_plus (u "locations")) with (Some (u "locations")).
  change (quote_plus (u "category")) with (Some (u "category")).
  change (quote_plus (u "9")) with (Some (u "9")).
  change (quote_plus (u "owner_type")) with (Some (u "owner_type")).
  change (quote_plus (u "all")) with (Some (u "all")).
  change (quote_plus (u "sort")) with (Some (u "sort")).
  change (quote_plus (u "time")) with (Some (u "time")).
  change (quote_plus (u "order")) with (Some (u "order")).
  change (quote_plus (u "desc")) with (Some (u "desc")).
  destruct (quote_plus query), (quote_plus city); reflexivity.
Qed.

End EncodeFacts.

(** X28.  [build_search_url] raises (the [UnicodeEncodeError] of
    [urlencode]) exactly when the city or the query holds a surrogate
    code point; for every other city, query and page it returns a URL. *)
Theorem build_search_url_raises_on_surrogates_only
        (city query : Str.str) (page : Z) :
  SearchUrl.build_search_url city query page = None
  <-> forallb scalar (query ++ city) = false.
Proof.
  rewrite forallb_app.
  unfold SearchUrl.build_search_url, SearchUrl.urlencode.
  rewrite encode_search_params.
  destruct (SearchUrl.quote_plus query) as [qq|] eqn:Q;
    destruct (SearchUrl.quote_plus city) as [qc|] eqn:C; cbn [option_map].
  - split; [discriminate|]. intro H. apply andb_false_iff in H as [H | H].
    + apply quote_plus_none in H. congruence.
    + apply quote_plus_none in H. congruence.
  - apply quote_plus_none in C. rewrite C, andb_false_r. split; reflexivity.
  - apply quote_plus_none in Q. rewrite Q. split; reflexivity.
  - apply quote_plus_none in Q. rewrite Q. split; reflexivity.
Qed.

(** X29.  The URL [build_search_url] returns is the base, [?], and the
    parameters joined by [&]: the query, the city, the four fixed ones
    and, for a page above 1 only, the page.  The encoded city and query
    hold letters, digits and [_.-~+%] only, so that cutting the query
    string at [&] gives these parameters back, whatever the city and the
    query are: they can neither add a parameter nor break one. *)
Theorem search_url_parameters (city query qc qq : Str.str) (page : Z) :
  SearchUrl.quote_plus city = Some qc ->
  SearchUrl.quote_plus query = Some qq ->
  let items :=
      [u "text=" ++ qq; u "locations=" ++ qc; u "category=9";
       u "owner_type=all"; u "sort=time"; u "order=desc"]
        ++ (if (1 <? page)%Z then [u "page=" ++ SearchUrl.str_of_int page]
            else []) in
  SearchUrl.build_search_url city query page
  = Some (SearchUrl.BASE ++ u "?" ++ SearchUrl.join (u "&") items)
  /\ Links.split AMP (SearchUrl.join (u "&") items) = items
  /\ forallb url_safe qc = true /\ forallb url_safe qq = true.
Proof.
  intros C Q items.
  assert (Sc := quote_plus_safe _ _ C). assert (Sq := quote_plus_safe _ _ Q).
  split; [|split; [|split; assumption]].
  - unfold SearchUrl.build_search_url, SearchUrl.urlencode.
    rewrite encode_search_params, Q, C. reflexivity.
  - apply (split_join AMP items); [discriminate|].
    assert (L : forall (k v : Str.str),
               forallb (fun c => negb (Str.eqc c AMP)) k = true ->
               ~ In AMP v -> ~ In AMP (k ++ v)).
    { intros k v Hk Hv I. apply in_app_or in I as [I | I]; [|exact (Hv I)].
      rewrite forallb_forall in Hk. specialize (Hk _ I).
      rewrite eqc_refl in Hk. discriminate Hk. }
    unfold items. apply Forall_app. split.
    + repeat (apply Forall_cons;
              [first [ apply L; [reflexivity | apply url_safe_no_amp; assumption]
                     | intro I; vm_compute in I; intuition discriminate ]|]).
      apply Forall_nil.
    + destruct (1 <? page)%Z; [|apply Forall_nil].
      apply Forall_cons; [|apply Forall_nil].
      apply L; [reflexivity|]. unfold SearchUrl.str_of_int.
      destruct (page <? 0)%Z; [|apply uint_str_no_amp].
      intros [I | I]; [discriminate I | exact (uint_str_no_amp _ I)].
Qed.

Lemma search_url_parameters_witness :
  SearchUrl.build_search_url (u "Saint-Étienne") (u "T2 & loué") 3
  = Some (u "https://www.leboncoin.fr/recherche?text=T2+%26+lou%C3%A9&locations=Saint-%C3%89tienne&category=9&owner_type=all&sort=time&order=desc&page=3").
Proof.
  apply (search_url_parameters
           (u "Saint-Étienne") (u "T2 & loué")
           (u "Saint-%C3%89tienne") (u "T2+%26+lou%C3%A9") 3).
  - vm_compute. reflexivity.
  - vm_compute. reflexivity.
Defined.

(** ** The pages of [scan_leboncoin] *)

Section PagesFacts.

Import Pages.

Local Open Scope nat_scope.

Variable page_links : nat -> option (list str).

Lemma scan_loop_stops (ps1 ps2 : list nat) (k : nat) (ad_urls : list str) :
  page_links k = Some [] ->
  (forall j, In j ps1 -> page_links j <> Some []) ->
  scan_loop page_links (ps1 ++ k :: ps2) ad_urls
  = scan_loop page_links ps1 ad_urls.
Proof.
  intros K. revert ad_urls. induction ps1 as [|p ps1 IH]; intros ad_urls H.
  - cbn [app scan_loop]. rewrite K. reflexivity.
  - cbn [app scan_loop].
    assert (Hp := H p (or_introl eq_refl)).
    assert (H' : forall j, In j ps1 -> page_links j <> Some [])
      by (intros j I; apply H; right; exact I).
    destruct (page_links p) as [[|x l]|]; [congruence | |]; apply IH; exact H'.
Qed.

End PagesFacts.

(** X30.  [scan_leboncoin] stops at the first search page without links:
    when page [k] is the first one that is fetched and has no link, the
    result for any number of pages from [k] on is the result for [k - 1]
    pages; the later pages add nothing, whatever they hold.  (A page
    whose fetch raises does not stop the scan.) *)
Theorem scan_stops_at_first_empty_page
        (page_links : nat -> option (list Str.str)) (k pages : nat) :
  (1 <= k)%nat -> (k <= pages)%nat ->
  page_links k = Some [] ->
  (forall j, (1 <= j)%nat -> (j < k)%nat -> page_links j <> Some []) ->
  Pages.scan_leboncoin page_links pages
  = Pages.scan_leboncoin page_links (k - 1).
Proof.
  intros K1 K2 E H. unfold Pages.scan_leboncoin. f_equal.
  replace pages with ((k - 1) + S (pages - k))%nat by lia.
  rewrite seq_app. cbn [List.seq].
  replace (1 + (k - 1))%nat with k by lia.
  rewrite (scan_loop_stops page_links _ _ k [] E).
  - replace (k - 1 + S (pages - k))%nat with pages by lia. reflexivity.
  - intros j I. apply in_seq in I. apply H; lia.
Qed.

Lemma scan_stops_at_first_empty_page_witness :
  Pages.scan_leboncoin
    (fun p => match p with
              | 1 => Some [u "/ad/1"; u "/ad/2"]
              | 2 => None
              | 3 => Some []
              | _ => Some [u "/ad/9"]
              end%nat) 5
  = Pages.scan_leboncoin
      (fun p => match p with
                | 1 => Some [u "/ad/1"; u "/ad/2"]
                | 2 => None
                | 3 => Some []
                | _ => Some [u "/ad/9"]
                end%nat) (3 - 1).
Proof.
  apply (scan_stops_at_first_empty_page
           (fun p => match p with
                     | 1 => Some [u "/ad/1"; u "/ad/2"]
                     | 2 => None
                     | 3 => Some []
                     | _ => Some [u "/ad/9"]
                     end%nat) 3 5).
  - lia.
  - lia.
  - reflexivity.
  - intros j J1 J2.
    assert (C : j = 1%nat \/ j = 2%nat) by lia.
    destruct C as [-> | ->]; discriminate.
Defined.
